(** * Condition evaluation (src/lib/server/cond_eval.c)

    A shallow embedding of the condition evaluator of the server: the
    template test [cond_eval_tmpl], the regular expression comparison
    [cond_do_regex], the comparison dispatch [cond_cmp_values], the template
    realizer [cond_realize_tmpl], the type normaliser
    [cond_normalise_and_cmp], the map evaluator [cond_eval_map] and the
    iterative tree walk [cond_eval].

    Conventions.
    - C [int] results are integers of [Z]; [true] and [false] are [1] and [0].
      An [int] has 32 bits and an [ssize_t] 64; where the code returns an
      [ssize_t] from a function of type [int] (lines 464 and 856) the value
      is reduced modulo 2^32 into the range of [int], as the compilers the
      server is built with define that conversion.
    - The file is embedded as it is compiled with [HAVE_REGEX] and
      [WITH_REALIZE_TMPL] defined (line 397), without [WITH_EVAL_DEBUG], and
      with [fr_assert] compiled out; [fr_cond_assert] is a run-time test and
      is kept.
    - A pointer that may be [NULL] is an [option]; a condition node pointer is
      an index into the list of nodes that holds the tree.
    - Functions declared in other files are the fields of [externs].  The
      request is passed through the calls that are taken to change it: the
      expansions and the publication of captures.  [paircmp],
      [tmpl_find_vp], [tmpl_cursor_init] and the casts also receive the
      request; they are taken to leave it as it is, which is an assumption
      of the embedding and nothing this file shows.
    - A cursor is the list of the instances it yields, taken when it is
      initialised.
    - [FR_TYPE_INVALID] is the zero of [fr_type_t], so that the test
      [other->cast] of line 479 is [other->cast != FR_TYPE_INVALID]. *)

From Stdlib Require Import ZArith Lia Ascii String Sorted.
From stdpp Require Import base list strings.

Local Open Scope string_scope.
Local Open Scope Z_scope.
Local Open Scope list_scope.

(** ** Data model *)

Inductive fr_type_t :=
  | FR_TYPE_INVALID | FR_TYPE_STRING | FR_TYPE_OCTETS | FR_TYPE_IPV4_ADDR
  | FR_TYPE_BOOL | FR_TYPE_UINT8 | FR_TYPE_UINT16 | FR_TYPE_UINT32
  | FR_TYPE_UINT64 | FR_TYPE_INT32 | FR_TYPE_DATE.

Global Instance fr_type_t_eq_dec : EqDecision fr_type_t.
Proof. solve_decision. Defined.

Inductive fr_token_t :=
  | T_OP_CMP_EQ | T_OP_NE | T_OP_GE | T_OP_GT | T_OP_LE | T_OP_LT
  | T_OP_REG_EQ | T_OP_REG_NE.

Global Instance fr_token_t_eq_dec : EqDecision fr_token_t.
Proof. solve_decision. Defined.

(** The payload of a value box: the members of the C union that this file
    reads ([vb_strvalue]) or that a comparison needs. *)
Inductive fr_value_box_datum_t :=
  | datum_none
  | datum_strvalue (s : string)
  | datum_integer (n : Z).

Record fr_value_box_t := {
  vb_type : fr_type_t;
  datum : fr_value_box_datum_t;
  vb_length : Z
}.

Definition vb_strvalue (b : fr_value_box_t) : string :=
  match datum b with
  | datum_strvalue s => s
  | _ => ""
  end.

Record fr_dict_attr_t := {
  da_name : string;
  da_type : fr_type_t
}.

Record fr_pair_t := {
  vp_da : fr_dict_attr_t;
  vp_op : fr_token_t;
  vp_data : fr_value_box_t
}.

(** A compiled pattern is an opaque handle for this file. *)
Record regex_t := {
  re_pattern : string;
  re_flags : Z
}.

(** Match data: the captured substrings, slot 0 being the whole match. *)
Definition fr_regmatch_t := list string.

Inductive tmpl_type_t :=
  | TMPL_TYPE_UNINITIALISED | TMPL_TYPE_NULL | TMPL_TYPE_DATA
  | TMPL_TYPE_ATTR | TMPL_TYPE_LIST | TMPL_TYPE_EXEC | TMPL_TYPE_XLAT
  | TMPL_TYPE_REGEX | TMPL_TYPE_REGEX_UNCOMPILED | TMPL_TYPE_REGEX_XLAT
  | TMPL_TYPE_UNRESOLVED | TMPL_TYPE_ATTR_UNRESOLVED
  | TMPL_TYPE_EXEC_UNRESOLVED | TMPL_TYPE_XLAT_UNRESOLVED
  | TMPL_TYPE_REGEX_XLAT_UNRESOLVED | TMPL_TYPE_MAX.

Global Instance tmpl_type_t_eq_dec : EqDecision tmpl_type_t.
Proof. solve_decision. Defined.

(** A template.  The members of the C union are kept side by side; the
    accessors [tmpl_da], [tmpl_value], [tmpl_regex] and [tmpl_regex_flags]
    are the fields. *)
Record tmpl_t := {
  tmpl_type : tmpl_type_t;
  tmpl_name : string;
  cast : fr_type_t;
  tmpl_da : fr_dict_attr_t;
  tmpl_value : fr_value_box_t;
  tmpl_regex : regex_t;
  tmpl_regex_flags : Z
}.

Definition tmpl_is_attr (vpt : tmpl_t) : bool :=
  bool_decide (tmpl_type vpt = TMPL_TYPE_ATTR).
Definition tmpl_is_data (vpt : tmpl_t) : bool :=
  bool_decide (tmpl_type vpt = TMPL_TYPE_DATA).
Definition tmpl_is_regex_xlat (vpt : tmpl_t) : bool :=
  bool_decide (tmpl_type vpt = TMPL_TYPE_REGEX_XLAT).
Definition tmpl_value_type (vpt : tmpl_t) : fr_type_t :=
  vb_type (tmpl_value vpt).

Record map_t := {
  map_lhs : tmpl_t;
  map_op : fr_token_t;
  map_rhs : tmpl_t
}.

Inductive rlm_rcode_t :=
  | RLM_MODULE_REJECT | RLM_MODULE_FAIL | RLM_MODULE_OK | RLM_MODULE_HANDLED
  | RLM_MODULE_INVALID | RLM_MODULE_DISALLOW | RLM_MODULE_NOTFOUND
  | RLM_MODULE_NOOP | RLM_MODULE_UPDATED.

Global Instance rlm_rcode_t_eq_dec : EqDecision rlm_rcode_t.
Proof. solve_decision. Defined.

Inductive pass2_fixup_t :=
  | PASS2_FIXUP_NONE | PASS2_FIXUP_ATTR | PASS2_FIXUP_TYPE | PASS2_PAIRCOMPARE.

Global Instance pass2_fixup_t_eq_dec : EqDecision pass2_fixup_t.
Proof. solve_decision. Defined.

(** The type tag of a condition node together with the member of [data]
    that the tag selects. *)
Inductive fr_cond_type_t :=
  | COND_TYPE_INVALID
  | COND_TYPE_TRUE
  | COND_TYPE_FALSE
  | COND_TYPE_TMPL (vpt : tmpl_t)
  | COND_TYPE_RCODE (rcode : rlm_rcode_t)
  | COND_TYPE_MAP (map : map_t)
  | COND_TYPE_AND
  | COND_TYPE_OR
  | COND_TYPE_CHILD (child : option nat).

Record fr_cond_t := {
  type : fr_cond_type_t;
  negate : bool;
  pass2_fixup : pass2_fixup_t;
  parent : option nat;
  next : option nat
}.

(** The request: its attribute list, the regular expression captures
    attached to it, and whatever else the expansion engine keeps on it. *)
Record request_t := {
  request_pairs : list fr_pair_t;
  request_regex : option (regex_t * fr_regmatch_t);
  request_data : list string
}.

(** The only escape function this file passes to the expansion. *)
Inductive xlat_escape_legacy_t := regex_escape.

(** ** Functions of other files *)

Record externs := {
  (** the constant of the request header *)
  REQUEST_MAX_REGEX : Z;
  (** [tmpl_find_vp(NULL, request, vpt)]: 0 when an instance exists *)
  tmpl_find_vp : request_t -> tmpl_t -> Z;
  (** [tmpl_aexpand] with a [char *] output: length or negative, buffer,
      and the request as the expansion leaves it *)
  tmpl_aexpand :
    request_t -> tmpl_t -> option xlat_escape_legacy_t ->
    Z * string * request_t;
  (** [tmpl_aexpand] with a value box output *)
  tmpl_aexpand_box :
    request_t -> tmpl_t -> option xlat_escape_legacy_t ->
    Z * fr_value_box_t * request_t;
  (** [tmpl_cursor_init(&rcode, ...)] followed by [fr_cursor_next]: the value
      stored through the first argument and the instances in cursor order *)
  tmpl_cursor_init : request_t -> tmpl_t -> Z * list fr_pair_t;
  (** [fr_value_box_cast]: [None] for a negative return *)
  fr_value_box_cast :
    fr_type_t -> option fr_dict_attr_t -> fr_value_box_t ->
    option fr_value_box_t;
  (** [fr_value_box_cast_in_place]: [None] for a negative return *)
  fr_value_box_cast_in_place :
    fr_type_t -> option fr_dict_attr_t -> fr_value_box_t ->
    option fr_value_box_t;
  fr_value_box_cmp_op :
    fr_token_t -> option fr_value_box_t -> option fr_value_box_t -> Z;
  (** [regex_compile]: its [ssize_t] return and the compiled pattern *)
  regex_compile : string -> Z -> Z -> Z * regex_t;
  regex_subcapture_count : regex_t -> Z;
  (** [regex_exec(preg, subject, len, regmatch)] on match data allocated
      for the given number of slots: return value and filled match data *)
  regex_exec : regex_t -> string -> Z -> Z -> Z * fr_regmatch_t;
  paircmp : request_t -> list fr_pair_t -> list fr_pair_t -> Z
}.

(** Modelled from the spec: [regex_sub_to_request], which is declared in
    regex.h.  With a pattern and match data it publishes the captures on the
    request, replacing what was there; with [NULL] arguments it clears them. *)
Definition regex_sub_to_request
    (request : request_t) (m : option (regex_t * fr_regmatch_t)) : request_t :=
  {| request_pairs := request_pairs request;
     request_regex := m;
     request_data := request_data request |}.

(** [fr_value_box_bstrndup_shallow(&data, NULL, p, ret, false)] *)
Definition fr_value_box_bstrndup_shallow (p : string) (len : Z)
    : fr_value_box_t :=
  {| vb_type := FR_TYPE_STRING; datum := datum_strvalue p; vb_length := len |}.

(** The pair data of a pair fresh from [fr_pair_afrom_da]. *)
Definition fr_value_box_init (t : fr_type_t) : fr_value_box_t :=
  {| vb_type := t; datum := datum_none; vb_length := 0 |}.

(** The conversion of an [ssize_t] to the [int] a function returns. *)
Definition int_of_ssize_t (n : Z) : Z := (n + 2 ^ 31) mod 2 ^ 32 - 2 ^ 31.

(** [b->vb_strvalue] as a condition: the pointer is [NULL] in a box that
    holds no text. *)
Definition vb_strvalue_set (b : fr_value_box_t) : bool :=
  match datum b with
  | datum_strvalue _ => true
  | _ => false
  end.

(** ** [all_digits] (lines 64-77) *)

Definition isdigit (ch : ascii) : bool :=
  let n := nat_of_ascii ch in
  ((48 <=? n) && (n <=? 57))%nat.

(** [*p == '\0']: the end of a C string is the end of the buffer or the
    first NUL byte. *)
Definition at_nul (p : string) : bool :=
  match p with
  | EmptyString => true
  | String ch _ => bool_decide (ch = "000"%char)
  end.

(** [while (isdigit((int) *p)) p++;] *)
Fixpoint skip_digits (p : string) : string :=
  match p with
  | EmptyString => p
  | String ch p' => if isdigit ch then skip_digits p' else p
  end.

Definition all_digits (s : string) : bool :=
  if at_nul s then false
  else
    let p := match s with
             | String "-"%char p' => p'
             | _ => s
             end in
    at_nul (skip_digits p).

(** ** The evaluator *)

Section cond_eval.

Variable E : externs.

(** [cond_eval_tmpl] (lines 132-180).  The result is a C [bool] returned as
    [int]. *)
Definition cond_eval_tmpl (request : request_t) (vpt : tmpl_t)
    : Z * request_t :=
  match tmpl_type vpt with
  | TMPL_TYPE_ATTR | TMPL_TYPE_LIST =>
      if tmpl_find_vp E request vpt =? 0 then (1, request) else (0, request)
  | TMPL_TYPE_XLAT | TMPL_TYPE_EXEC =>
      let '(slen, _, request) := tmpl_aexpand E request vpt None in
      if slen <? 0 then (0, request)
      else if slen =? 0 then (0, request)
      else (1, request)
  | _ => (0, request)
  end.

(** [cond_do_regex] (lines 190-260).  [preg] is the pattern of the template
    or the one compiled from [rhs]; [None] stands for the early
    [return -1] of the switch: the two tests of lines 214 and 215 and the
    failed compilation. *)
Definition cond_do_regex_preg (map : map_t) (rhs : option fr_value_box_t)
    : option regex_t :=
  match tmpl_type (map_rhs map) with
  | TMPL_TYPE_REGEX => Some (tmpl_regex (map_rhs map))
  | _ =>
      match rhs with
      | None => None
      | Some r =>
          if negb (bool_decide (vb_type r = FR_TYPE_STRING)) then None
          else if negb (vb_strvalue_set r) then None
          else
            let '(slen, rreg) :=
              regex_compile E (vb_strvalue r) (vb_length r)
                (tmpl_regex_flags (map_rhs map)) in
            if slen <=? 0 then None else Some rreg
      end
  end.

(** The number of slots of the match data (lines 228-229). *)
Definition regex_slots (preg : regex_t) : Z :=
  let subcaptures := regex_subcapture_count E preg in
  if subcaptures =? 0 then REQUEST_MAX_REGEX E + 1 else subcaptures.

Definition cond_do_regex (request : request_t) (map : map_t)
    (lhs rhs : option fr_value_box_t) : Z * request_t :=
  match lhs with
  | None => (-1, request)
  | Some l =>
      if negb (bool_decide (vb_type l = FR_TYPE_STRING)) then (-1, request)
      else
        match cond_do_regex_preg map rhs with
        | None => (-1, request)
        | Some preg =>
            let subcaptures := regex_slots preg in
            let '(ret, regmatch) :=
              regex_exec E preg (vb_strvalue l) (vb_length l) subcaptures in
            match ret with
            | 0 => (ret, regex_sub_to_request request None)
            | 1 => (ret, regex_sub_to_request request (Some (preg, regmatch)))
            | _ => (ret, request)
            end
        end
  end.

(** The pair [vp] built for the pair comparison (lines 328-331).  A [NULL]
    [rhs] leaves its data as [fr_pair_afrom_da] made it. *)
Definition paircmp_check (map : map_t) (rhs : option fr_value_box_t)
    : fr_pair_t :=
  {| vp_da := tmpl_da (map_lhs map);
     vp_op := map_op map;
     vp_data :=
       match rhs with
       | Some r => r
       | None => fr_value_box_init (da_type (tmpl_da (map_lhs map)))
       end |}.

(** [cond_cmp_values] (lines 298-358) *)
Definition cond_cmp_values (request : request_t) (c : fr_cond_t) (map : map_t)
    (lhs rhs : option fr_value_box_t) : Z * request_t :=
  if bool_decide (map_op map = T_OP_REG_EQ) then
    cond_do_regex request map lhs rhs
  else if bool_decide (pass2_fixup c = PASS2_PAIRCOMPARE) then
    let vp := paircmp_check map rhs in
    let rcode := paircmp E request (request_pairs request) [vp] in
    let rcode := if rcode =? 0 then 1 else 0 in
    (rcode, request)
  else
    (fr_value_box_cmp_op E (map_op map) lhs rhs, request).

(** [cond_realize_tmpl] (lines 411-512): the return value, [*out], and the
    request.  [to_free] only drives the release of [*out]. *)
Definition cond_realize_cast_type (_in other : tmpl_t)
    : fr_type_t * option fr_dict_attr_t :=
  if negb (bool_decide (cast _in = FR_TYPE_INVALID)) then (cast _in, None)
  else if negb (bool_decide (cast other = FR_TYPE_INVALID)) then
    (cast other, None)
  else if tmpl_is_attr other then
    (da_type (tmpl_da other), Some (tmpl_da other))
  else if tmpl_is_data other then (tmpl_value_type other, None)
  else (FR_TYPE_STRING, None).

(** The expansion of lines 455-499; the [return ret] of line 464 hands the
    [ssize_t] back through [int]. *)
Definition cond_realize_expand (request : request_t) (_in other : tmpl_t)
    (escape : option xlat_escape_legacy_t)
    : Z * option fr_value_box_t * request_t :=
  let '(ret, box, request) := tmpl_aexpand_box E request _in escape in
  if ret <? 0 then (int_of_ssize_t ret, None, request)
  else
    let '(cast_type, da) := cond_realize_cast_type _in other in
    if negb (bool_decide (cast_type = vb_type box)) then
      match fr_value_box_cast_in_place E cast_type da box with
      | None => (-1, None, request)
      | Some box => (0, Some box, request)
      end
    else (0, Some box, request).

Definition cond_realize_tmpl (request : request_t) (_in other : tmpl_t)
    : Z * option fr_value_box_t * request_t :=
  match tmpl_type _in with
  | TMPL_TYPE_LIST | TMPL_TYPE_REGEX => (0, None, request)
  | TMPL_TYPE_ATTR => (0, None, request)
  | TMPL_TYPE_DATA => (0, Some (tmpl_value _in), request)
  | TMPL_TYPE_REGEX_XLAT =>
      cond_realize_expand request _in other (Some regex_escape)
  | TMPL_TYPE_EXEC | TMPL_TYPE_XLAT =>
      cond_realize_expand request _in other None
  | _ => (-1, None, request)
  end.

(** The comparison type chosen at the head of [cond_normalise_and_cmp]
    (lines 573-620), and the escape function set with it. *)
Definition cond_cast_type (c : fr_cond_t) (map : map_t) : fr_type_t :=
  if bool_decide (map_op map = T_OP_REG_EQ) then FR_TYPE_STRING
  else if bool_decide (pass2_fixup c = PASS2_PAIRCOMPARE) then
    da_type (tmpl_da (map_lhs map))
  else if negb (bool_decide (cast (map_lhs map) = FR_TYPE_INVALID)) then
    cast (map_lhs map)
  else if tmpl_is_attr (map_lhs map) then da_type (tmpl_da (map_lhs map))
  else if tmpl_is_attr (map_rhs map) then da_type (tmpl_da (map_rhs map))
  else if tmpl_is_data (map_lhs map) then tmpl_value_type (map_lhs map)
  else if tmpl_is_data (map_rhs map) then tmpl_value_type (map_rhs map)
  else FR_TYPE_INVALID.

Definition cond_escape (map : map_t) : option xlat_escape_legacy_t :=
  if bool_decide (map_op map = T_OP_REG_EQ) && tmpl_is_regex_xlat (map_rhs map)
  then Some regex_escape
  else None.

(** The macro [CHECK_INT_CAST] (lines 558-567): the new value of
    [cast_type]. *)
Definition CHECK_INT_CAST (cast_type : fr_type_t)
    (lhs rhs : option fr_value_box_t) : fr_type_t :=
  match lhs, rhs with
  | Some l, Some r =>
      if bool_decide (cast_type = FR_TYPE_INVALID)
         && bool_decide (vb_type l = FR_TYPE_STRING)
         && bool_decide (vb_type r = FR_TYPE_STRING)
         && all_digits (vb_strvalue l) && all_digits (vb_strvalue r)
      then FR_TYPE_UINT64
      else cast_type
  | _, _ => cast_type
  end.

(** The macro [CAST] (lines 543-556): either the jump to [finish] with
    [rcode = -1], or the operand as it is afterwards. *)
Inductive cast_result :=
  | CAST_FAILED
  | CAST_OK (_s : option fr_value_box_t).

Definition CAST (cast_type : fr_type_t) (_s : option fr_value_box_t)
    : cast_result :=
  match _s with
  | None => CAST_OK _s
  | Some b =>
      if negb (bool_decide (cast_type = FR_TYPE_INVALID))
         && negb (bool_decide (vb_type b = FR_TYPE_INVALID))
         && negb (bool_decide (cast_type = vb_type b))
      then
        match fr_value_box_cast E cast_type None b with
        | None => CAST_FAILED
        | Some b' => CAST_OK (Some b')
        end
      else CAST_OK _s
  end.

(** The sequence [CHECK_INT_CAST(lhs, rhs); CAST(lhs); CAST(rhs);
    rcode = cond_cmp_values(request, c, lhs, rhs);] of lines 634-638,
    650-654 and 678-682: [rcode], the request, and the locals [cast_type]
    and [lhs] as the sequence leaves them. *)
Definition cond_cast_and_cmp (request : request_t) (c : fr_cond_t)
    (map : map_t) (cast_type : fr_type_t) (lhs rhs : option fr_value_box_t)
    : Z * request_t * fr_type_t * option fr_value_box_t :=
  let cast_type := CHECK_INT_CAST cast_type lhs rhs in
  match CAST cast_type lhs with
  | CAST_FAILED => (-1, request, cast_type, lhs)
  | CAST_OK lhs =>
      match CAST cast_type rhs with
      | CAST_FAILED => (-1, request, cast_type, lhs)
      | CAST_OK rhs =>
          let '(rcode, request) := cond_cmp_values request c map lhs rhs in
          (rcode, request, cast_type, lhs)
      end
  end.

(** The loop over the instances of a right hand attribute (lines 629-642).
    Both the [goto finish] of a failed cast and the [break] lead to
    [return rcode]. *)
Fixpoint cond_normalise_attr_loop (request : request_t) (c : fr_cond_t)
    (map : map_t) (vps : list fr_pair_t) (cast_type : fr_type_t)
    (lhs : option fr_value_box_t) (rcode : Z) : Z * request_t :=
  match vps with
  | [] => (rcode, request)
  | vp :: vps =>
      let '(rcode, request, cast_type, lhs) :=
        cond_cast_and_cmp request c map cast_type lhs (Some (vp_data vp)) in
      if negb (rcode =? 0) then (rcode, request)
      else cond_normalise_attr_loop request c map vps cast_type lhs rcode
  end.

(** The instances [vps] are all passed over by the loop: each is cast and
    compared with result 0.  The value is the request and the locals
    [cast_type] and [lhs] as the last of them leaves them. *)
Fixpoint cond_attr_passed_over (request : request_t) (c : fr_cond_t)
    (map : map_t) (vps : list fr_pair_t) (cast_type : fr_type_t)
    (lhs : option fr_value_box_t)
    : option (request_t * fr_type_t * option fr_value_box_t) :=
  match vps with
  | [] => Some (request, cast_type, lhs)
  | vp :: vps =>
      let '(rcode, request, cast_type, lhs) :=
        cond_cast_and_cmp request c map cast_type lhs (Some (vp_data vp)) in
      if rcode =? 0
      then cond_attr_passed_over request c map vps cast_type lhs
      else None
  end.

(** [cond_normalise_and_cmp] (lines 525-718) *)
Definition cond_normalise_and_cmp (request : request_t) (c : fr_cond_t)
    (map : map_t) (lhs : option fr_value_box_t) : Z * request_t :=
  let cast_type := cond_cast_type c map in
  let escape := cond_escape map in
  match tmpl_type (map_rhs map) with
  | TMPL_TYPE_ATTR =>
      let '(rcode, vps) := tmpl_cursor_init E request (map_rhs map) in
      cond_normalise_attr_loop request c map vps cast_type lhs rcode
  | TMPL_TYPE_DATA =>
      let '(rcode, request, _, _) :=
        cond_cast_and_cmp request c map cast_type lhs
          (Some (tmpl_value (map_rhs map))) in
      (rcode, request)
  | TMPL_TYPE_EXEC | TMPL_TYPE_XLAT | TMPL_TYPE_REGEX_XLAT =>
      let '(ret, p, request) := tmpl_aexpand E request (map_rhs map) escape in
      if ret <? 0 then (-1, request)
      else
        let data := fr_value_box_bstrndup_shallow p ret in
        let '(rcode, request, _, _) :=
          cond_cast_and_cmp request c map cast_type lhs (Some data) in
        (rcode, request)
  | TMPL_TYPE_REGEX =>
      match CAST cast_type lhs with
      | CAST_FAILED => (-1, request)
      | CAST_OK lhs => cond_cmp_values request c map lhs None
      end
  | _ => (-1, request)
  end.

(** The loop over the instances of a left hand attribute or list
    (lines 826-836). *)
Fixpoint cond_eval_map_loop (request : request_t) (c : fr_cond_t)
    (map : map_t) (vps : list fr_pair_t) (rcode : Z) : Z * request_t :=
  match vps with
  | [] => (rcode, request)
  | vp :: vps =>
      let '(rcode, request) :=
        cond_normalise_and_cmp request c map (Some (vp_data vp)) in
      if negb (rcode =? 0) then (rcode, request)
      else cond_eval_map_loop request c map vps rcode
  end.

(** [cond_eval_map] (lines 731-887); [map] is [c->data.map].  The
    [return ret] of line 856 hands the [ssize_t] of the second expansion back
    through [int]. *)
Definition cond_eval_map (request : request_t) (c : fr_cond_t) (map : map_t)
    : Z * request_t :=
  let '(ret, lhs, request) :=
    cond_realize_tmpl request (map_lhs map) (map_rhs map) in
  if ret <? 0 then (-1, request)
  else
    let '(ret, rhs, request) :=
      cond_realize_tmpl request (map_rhs map) (map_lhs map) in
    if ret <? 0 then (-1, request)
    else
      match lhs, rhs with
      | Some _, Some _ =>
          if negb (bool_decide (map_op map = T_OP_REG_EQ)) then
            (fr_value_box_cmp_op E (map_op map) lhs rhs, request)
          else cond_do_regex request map lhs rhs
      | _, _ =>
          match tmpl_type (map_lhs map) with
          | TMPL_TYPE_LIST | TMPL_TYPE_ATTR =>
              if bool_decide (pass2_fixup c = PASS2_PAIRCOMPARE)
                 && negb (bool_decide (map_op map = T_OP_REG_EQ))
              then cond_normalise_and_cmp request c map None
              else
                let '(rcode, vps) :=
                  tmpl_cursor_init E request (map_lhs map) in
                cond_eval_map_loop request c map vps rcode
          | TMPL_TYPE_DATA =>
              cond_normalise_and_cmp request c map
                (Some (tmpl_value (map_lhs map)))
          | TMPL_TYPE_EXEC | TMPL_TYPE_XLAT =>
              let '(ret, p, request) :=
                tmpl_aexpand E request (map_lhs map) None in
              if ret <? 0 then (int_of_ssize_t ret, request)
              else
                let data := fr_value_box_bstrndup_shallow p ret in
                cond_normalise_and_cmp request c map (Some data)
          | _ => (-1, request)
          end
      end.

End cond_eval.

(** ** The tree walk [cond_eval] (lines 900-992) *)

Section cond_walk.

Variable E : externs.
Variable modreturn : rlm_rcode_t.

(** The nodes of the condition; [c->next], [c->parent] and [c->data.child]
    are indices into this list. *)
Variable h : list fr_cond_t.

(** Lines 957-985, from the test of [while (!c->next)] on: either the
    [return rcode] of line 960, or the node the loop body ends on together
    with [depth].  [return_to_parent] is the label of line 958.  The climb
    through [c->parent] has no bound in C; here it gives up with [None] when
    it has made as many moves as [fuel] allows. *)
Inductive cond_advance_t :=
  | ADVANCE_RETURN
  | ADVANCE_TO (c : option nat) (depth : Z).

Fixpoint cond_advance (fuel : nat) (c : nat) (rcode depth : Z)
    : option cond_advance_t :=
  match fuel with
  | O => None
  | S fuel =>
      match h !! c with
      | None => None
      | Some n =>
          let return_to_parent :=
            match parent n with
            | None => Some ADVANCE_RETURN
            | Some p => cond_advance fuel p rcode (depth - 1)
            end in
          match next n with
          | None => return_to_parent
          | Some c_next =>
              match h !! c_next with
              | None => None
              | Some n_next =>
                  match type n_next with
                  | COND_TYPE_AND =>
                      if rcode =? 0 then return_to_parent
                      else Some (ADVANCE_TO (next n_next) depth)
                  | COND_TYPE_OR =>
                      if negb (rcode =? 0) then return_to_parent
                      else Some (ADVANCE_TO (next n_next) depth)
                  | _ => Some (ADVANCE_TO (Some c_next) depth)
                  end
              end
          end
      end
  end.

(** One turn of [while (c)] (lines 913-985): either a [return], or the
    locals at the end of the body. *)
Inductive cond_iter_t :=
  | ITER_RETURN (rcode : Z) (request : request_t)
  | ITER_NEXT (c : option nat) (rcode depth : Z) (request : request_t).

(** Lines 943-985, entered with the result of the node.  The climb gets as
    many moves as [h] has nodes: a climb that needs more has met a node twice
    and does not end in C either. *)
Definition cond_eval_after (c : nat) (n : fr_cond_t) (depth : Z)
    (res : Z * request_t) : option cond_iter_t :=
  let '(rcode, request) := res in
  if rcode <? 0 then Some (ITER_RETURN rcode request)
  else
    let rcode := if negate n then (if rcode =? 0 then 1 else 0) else rcode in
    match cond_advance (length h) c rcode depth with
    | None => None
    | Some ADVANCE_RETURN => Some (ITER_RETURN rcode request)
    | Some (ADVANCE_TO c depth) => Some (ITER_NEXT c rcode depth request)
    end.

(** The [switch] of lines 913-941: the node has a value ([break]), is a
    subtree to enter ([continue]), or has no meaning ([default]). *)
Inductive cond_switch_t :=
  | SWITCH_VALUE (res : Z * request_t)
  | SWITCH_CHILD (child : option nat)
  | SWITCH_DEFAULT.

Definition cond_eval_switch (n : fr_cond_t) (request : request_t)
    : cond_switch_t :=
  match type n with
  | COND_TYPE_TMPL vpt => SWITCH_VALUE (cond_eval_tmpl E request vpt)
  | COND_TYPE_RCODE r =>
      SWITCH_VALUE (if bool_decide (r = modreturn) then 1 else 0, request)
  | COND_TYPE_MAP map => SWITCH_VALUE (cond_eval_map E request n map)
  | COND_TYPE_CHILD child => SWITCH_CHILD child
  | COND_TYPE_TRUE => SWITCH_VALUE (1, request)
  | COND_TYPE_FALSE => SWITCH_VALUE (0, request)
  | _ => SWITCH_DEFAULT
  end.

Definition cond_eval_iter (c : nat) (rcode depth : Z) (request : request_t)
    : option cond_iter_t :=
  match h !! c with
  | None => None
  | Some n =>
      match cond_eval_switch n request with
      | SWITCH_VALUE res => cond_eval_after c n depth res
      | SWITCH_CHILD child =>
          Some (ITER_NEXT child rcode (depth + 1) request)
      | SWITCH_DEFAULT => Some (ITER_RETURN (-1) request)
      end
  end.

(** [while (c) { ... } return rcode;].  [fuel] bounds the number of turns;
    [None] is a walk that did not finish within it, or that followed a
    pointer out of the list. *)
Fixpoint cond_eval_loop (fuel : nat) (c : option nat) (rcode depth : Z)
    (request : request_t) : option (Z * request_t) :=
  match c with
  | None => Some (rcode, request)
  | Some c =>
      match fuel with
      | O => None
      | S fuel =>
          match cond_eval_iter c rcode depth request with
          | None => None
          | Some (ITER_RETURN rcode request) => Some (rcode, request)
          | Some (ITER_NEXT c rcode depth request) =>
              cond_eval_loop fuel c rcode depth request
          end
      end
  end.

Definition cond_eval (fuel : nat) (request : request_t) (c : option nat)
    : option (Z * request_t) :=
  cond_eval_loop fuel c (-1) 0 request.

(** The nodes the loop body runs on, in order. *)
Fixpoint cond_eval_visits (fuel : nat) (c : option nat) (rcode depth : Z)
    (request : request_t) : list nat :=
  match c with
  | None => []
  | Some c =>
      match fuel with
      | O => []
      | S fuel =>
          c ::
          match cond_eval_iter c rcode depth request with
          | Some (ITER_NEXT c rcode depth request) =>
              cond_eval_visits fuel c rcode depth request
          | _ => []
          end
      end
  end.

End cond_walk.

(** ** Condition trees and their nodes in memory *)

(** The node types without a subtree. *)
Inductive cond_leaf_t :=
  | LEAF_INVALID
  | LEAF_TRUE
  | LEAF_FALSE
  | LEAF_TMPL (vpt : tmpl_t)
  | LEAF_RCODE (rcode : rlm_rcode_t)
  | LEAF_MAP (map : map_t)
  | LEAF_AND
  | LEAF_OR.

Definition leaf_type (l : cond_leaf_t) : fr_cond_type_t :=
  match l with
  | LEAF_INVALID => COND_TYPE_INVALID
  | LEAF_TRUE => COND_TYPE_TRUE
  | LEAF_FALSE => COND_TYPE_FALSE
  | LEAF_TMPL vpt => COND_TYPE_TMPL vpt
  | LEAF_RCODE r => COND_TYPE_RCODE r
  | LEAF_MAP m => COND_TYPE_MAP m
  | LEAF_AND => COND_TYPE_AND
  | LEAF_OR => COND_TYPE_OR
  end.

(** A finite condition tree: [NULL], a node without subtree followed by the
    rest of its chain, or a [COND_TYPE_CHILD] node with its subtree and the
    rest of its chain. *)
Inductive cond_tree :=
  | tree_null
  | tree_leaf (l : cond_leaf_t) (neg : bool) (fixup : pass2_fixup_t)
      (nxt : cond_tree)
  | tree_child (neg : bool) (fixup : pass2_fixup_t)
      (sub : cond_tree) (nxt : cond_tree).

Fixpoint tree_size (t : cond_tree) : nat :=
  match t with
  | tree_null => 0
  | tree_leaf _ _ _ nxt => S (tree_size nxt)
  | tree_child _ _ sub nxt => S (tree_size sub + tree_size nxt)
  end.

(** The pointer to a tree placed at address [a]. *)
Definition tree_ptr (t : cond_tree) (a : nat) : option nat :=
  match t with
  | tree_null => None
  | _ => Some a
  end.

(** The nodes of [t] in pre-order, the first at address [a]; every node of a
    chain has the [COND_TYPE_CHILD] node that holds the chain as its parent,
    [p], which is [NULL] for the top chain. *)
Fixpoint tree_nodes (t : cond_tree) (a : nat) (p : option nat)
    : list fr_cond_t :=
  match t with
  | tree_null => []
  | tree_leaf l neg fixup nxt =>
      {| type := leaf_type l; negate := neg; pass2_fixup := fixup;
         parent := p; next := tree_ptr nxt (S a) |}
      :: tree_nodes nxt (S a) p
  | tree_child neg fixup sub nxt =>
      {| type := COND_TYPE_CHILD (tree_ptr sub (S a)); negate := neg;
         pass2_fixup := fixup; parent := p;
         next := tree_ptr nxt (S a + tree_size sub)%nat |}
      :: tree_nodes sub (S a) (Some a)
      ++ tree_nodes nxt (S a + tree_size sub)%nat p
  end.

(** [cond_eval(request, modreturn, c)] on the tree [t], allowing as many
    turns of the loop as the tree has nodes. *)
Definition cond_eval_tree (E : externs) (request : request_t)
    (modreturn : rlm_rcode_t) (t : cond_tree) : option (Z * request_t) :=
  cond_eval E modreturn (tree_nodes t 0 None) (tree_size t) request
    (tree_ptr t 0).

(** ** Sample collaborators and inputs

    One implementation of [externs], small enough to evaluate, on which the
    examples below run the evaluator. *)

Module Sample.

Fixpoint digits_value (s : string) (acc : Z) : option Z :=
  match s with
  | EmptyString => Some acc
  | String ch s' =>
      if isdigit ch
      then digits_value s' (10 * acc + (Z.of_nat (nat_of_ascii ch) - 48))
      else None
  end.

Definition parse_uint (s : string) : option Z :=
  match s with
  | EmptyString => None
  | _ => digits_value s 0
  end.

Definition is_integer_type (t : fr_type_t) : bool :=
  match t with
  | FR_TYPE_UINT8 | FR_TYPE_UINT16 | FR_TYPE_UINT32 | FR_TYPE_UINT64
  | FR_TYPE_INT32 | FR_TYPE_DATE => true
  | _ => false
  end.

Definition box_string (s : string) : fr_value_box_t :=
  fr_value_box_bstrndup_shallow s (Z.of_nat (String.length s)).

Definition box_integer (t : fr_type_t) (n : Z) : fr_value_box_t :=
  {| vb_type := t; datum := datum_integer n; vb_length := 8 |}.

(** Casts between integer types and from decimal text to an integer type;
    every other cast fails. *)
Definition value_cast (t : fr_type_t) (_ : option fr_dict_attr_t)
    (b : fr_value_box_t) : option fr_value_box_t :=
  if bool_decide (t = vb_type b) then Some b
  else if negb (is_integer_type t) then None
  else
    match datum b with
    | datum_strvalue s => box_integer t <$> parse_uint s
    | datum_integer n => Some (box_integer t n)
    | datum_none => None
    end.

Definition op_holds (op : fr_token_t) (c : comparison) : option bool :=
  match op with
  | T_OP_CMP_EQ => Some (bool_decide (c = Eq))
  | T_OP_NE => Some (negb (bool_decide (c = Eq)))
  | T_OP_LT => Some (bool_decide (c = Lt))
  | T_OP_GT => Some (bool_decide (c = Gt))
  | T_OP_LE => Some (negb (bool_decide (c = Gt)))
  | T_OP_GE => Some (negb (bool_decide (c = Lt)))
  | T_OP_REG_EQ | T_OP_REG_NE => None
  end.

Definition of_option_bool (o : option bool) : Z :=
  match o with
  | Some true => 1
  | Some false => 0
  | None => -1
  end.

(** Text is compared as text, integers as integers; operands of different
    types, or without a value, are an error. *)
Definition cmp_op (op : fr_token_t) (a b : option fr_value_box_t) : Z :=
  match a, b with
  | Some a, Some b =>
      if negb (bool_decide (vb_type a = vb_type b)) then -1
      else
        match datum a, datum b with
        | datum_strvalue x, datum_strvalue y =>
            of_option_bool (op_holds op (String.compare x y))
        | datum_integer x, datum_integer y =>
            of_option_bool (op_holds op (Z.compare x y))
        | _, _ => -1
        end
  | _, _ => -1
  end.

Definition names_pair (vpt : tmpl_t) (vp : fr_pair_t) : bool :=
  String.eqb (da_name (vp_da vp)) (da_name (tmpl_da vpt)).

Definition find_vp (request : request_t) (vpt : tmpl_t) : Z :=
  match tmpl_type vpt with
  | TMPL_TYPE_LIST => if request_pairs request is [] then -1 else 0
  | _ => if existsb (names_pair vpt) (request_pairs request) then 0 else -1
  end.

(** The instances a template names; when there is none the stored value is
    -2, the "attribute not found" of the documentation of [cond_eval]
    (line 896). *)
Definition cursor_init (request : request_t) (vpt : tmpl_t)
    : Z * list fr_pair_t :=
  let vps :=
    match tmpl_type vpt with
    | TMPL_TYPE_LIST => request_pairs request
    | _ => List.filter (names_pair vpt) (request_pairs request)
    end in
  (if vps is [] then -2 else 0, vps).

(** An expansion yields the text of the template, fails on a template whose
    text starts with [%{fail], and notes every call on the request. *)
Definition note (request : request_t) (s : string) : request_t :=
  {| request_pairs := request_pairs request;
     request_regex := request_regex request;
     request_data := s :: request_data request |}.

Definition aexpand (request : request_t) (vpt : tmpl_t)
    (_ : option xlat_escape_legacy_t) : Z * string * request_t :=
  if String.prefix "%{fail" (tmpl_name vpt)
  then (-1, "", note request (tmpl_name vpt))
  else (Z.of_nat (String.length (tmpl_name vpt)), tmpl_name vpt,
        note request (tmpl_name vpt)).

Definition aexpand_box (request : request_t) (vpt : tmpl_t)
    (escape : option xlat_escape_legacy_t)
    : Z * fr_value_box_t * request_t :=
  let '(slen, p, request) := aexpand request vpt escape in
  (slen, fr_value_box_bstrndup_shallow p slen, request).

(** Patterns are literal text: a subject matches when the pattern occurs in
    it, the whole match being the only capture.  The empty pattern does not
    compile, and a subject with a byte above 127 is an execution error. *)
Definition compile (pattern : string) (len flags : Z) : Z * regex_t :=
  (len, {| re_pattern := pattern; re_flags := flags |}).

Fixpoint is_ascii_text (s : string) : bool :=
  match s with
  | EmptyString => true
  | String ch s' => (nat_of_ascii ch <? 128)%nat && is_ascii_text s'
  end.

Definition exec (preg : regex_t) (subject : string) (len nmatch : Z)
    : Z * fr_regmatch_t :=
  if negb (is_ascii_text subject) then (-1, [])
  else
    match index 0 (re_pattern preg) subject with
    | Some _ => (1, [re_pattern preg])
    | None => (0, [])
    end.

(** The pair comparison: -1 when the request has no pair of the checked
    attribute, otherwise 0 when the first such pair satisfies the check and
    1 when it does not. *)
Definition pair_cmp (request : request_t) (pairs check : list fr_pair_t) : Z :=
  match check with
  | [vp] =>
      match List.filter
              (fun rp => String.eqb (da_name (vp_da rp)) (da_name (vp_da vp)))
              pairs with
      | [] => -1
      | rp :: _ =>
          match cmp_op (vp_op vp) (Some (vp_data rp)) (Some (vp_data vp)) with
          | 1 => 0
          | 0 => 1
          | _ => -1
          end
      end
  | _ => -1
  end.

Definition E : externs :=
  {| REQUEST_MAX_REGEX := 32;
     tmpl_find_vp := find_vp;
     tmpl_aexpand := aexpand;
     tmpl_aexpand_box := aexpand_box;
     tmpl_cursor_init := cursor_init;
     fr_value_box_cast := value_cast;
     fr_value_box_cast_in_place := value_cast;
     fr_value_box_cmp_op := cmp_op;
     regex_compile := compile;
     regex_subcapture_count := fun _ => 0;
     regex_exec := exec;
     paircmp := pair_cmp |}.

(** Templates and pairs *)

Definition no_da : fr_dict_attr_t :=
  {| da_name := ""; da_type := FR_TYPE_INVALID |}.
Definition no_regex : regex_t := {| re_pattern := ""; re_flags := 0 |}.

Definition tmpl_of (ty : tmpl_type_t) (name : string) (cast_to : fr_type_t)
    (da : fr_dict_attr_t) (v : fr_value_box_t) (re : regex_t) : tmpl_t :=
  {| tmpl_type := ty; tmpl_name := name; cast := cast_to;
     tmpl_da := da; tmpl_value := v; tmpl_regex := re;
     tmpl_regex_flags := 0 |}.

(** a literal string *)
Definition literal (s : string) : tmpl_t :=
  tmpl_of TMPL_TYPE_DATA s FR_TYPE_INVALID no_da (box_string s) no_regex.

(** a reference to the attribute [name] of type [t] *)
Definition attribute (name : string) (t : fr_type_t) : tmpl_t :=
  tmpl_of TMPL_TYPE_ATTR name FR_TYPE_INVALID
    {| da_name := name; da_type := t |} (fr_value_box_init FR_TYPE_INVALID)
    no_regex.

(** an expansion, with an explicit cast or [FR_TYPE_INVALID] for none *)
Definition xlat (text : string) (cast_to : fr_type_t) : tmpl_t :=
  tmpl_of TMPL_TYPE_XLAT text cast_to no_da
    (fr_value_box_init FR_TYPE_INVALID) no_regex.

(** a compiled pattern *)
Definition regex (pattern : string) : tmpl_t :=
  tmpl_of TMPL_TYPE_REGEX pattern FR_TYPE_INVALID no_da
    (fr_value_box_init FR_TYPE_INVALID)
    {| re_pattern := pattern; re_flags := 0 |}.

Definition pair (name : string) (v : fr_value_box_t) : fr_pair_t :=
  {| vp_da := {| da_name := name; da_type := vb_type v |};
     vp_op := T_OP_CMP_EQ; vp_data := v |}.

Definition request_of (pairs : list fr_pair_t) : request_t :=
  {| request_pairs := pairs; request_regex := None; request_data := [] |}.

Definition map_of (l : tmpl_t) (op : fr_token_t) (r : tmpl_t) : map_t :=
  {| map_lhs := l; map_op := op; map_rhs := r |}.

(** a lone node, for the functions that take [c] *)
Definition node_of (ty : fr_cond_type_t) (fixup : pass2_fixup_t) : fr_cond_t :=
  {| type := ty; negate := false; pass2_fixup := fixup;
     parent := None; next := None |}.

End Sample.

(** ** The recursive reading of a condition tree

    The tree is logically a recursive structure of chains joined by [&&] and
    [||] with nested subtrees.  [cond_eval_rec] evaluates it by recursion on
    that structure; it does not come from the source, which walks the tree
    with a loop, and is there to be compared with the walk. *)

(** How the evaluation of a chain ends: [cond_eval] returns at once (an
    error, a node without meaning, or a [NULL] where a node is expected), or
    the chain is left, by its end or by a short circuit, with a value. *)
Inductive cond_outcome :=
  | RETURNED (rcode : Z) (request : request_t)
  | CHAIN_LEFT (rcode : Z) (request : request_t).

Definition outcome_value (o : cond_outcome) : Z * request_t :=
  match o with
  | RETURNED rcode request => (rcode, request)
  | CHAIN_LEFT rcode request => (rcode, request)
  end.

(** What follows a node whose value is [rcode], [nxt] being the rest of the
    chain and [rec] the evaluation of chains. *)
Definition cond_rec_after
    (rec : cond_tree -> Z -> request_t -> cond_outcome)
    (nxt : cond_tree) (rcode : Z) (request : request_t) : cond_outcome :=
  match nxt with
  | tree_null => CHAIN_LEFT rcode request
  | tree_leaf LEAF_AND _ _ nxt' =>
      if rcode =? 0 then CHAIN_LEFT rcode request else rec nxt' rcode request
  | tree_leaf LEAF_OR _ _ nxt' =>
      if negb (rcode =? 0) then CHAIN_LEFT rcode request
      else rec nxt' rcode request
  | _ => rec nxt rcode request
  end.

(** A node without subtree, outside of any tree. *)
Definition lone_node (l : cond_leaf_t) (neg : bool) (fixup : pass2_fixup_t)
    : fr_cond_t :=
  {| type := leaf_type l; negate := neg; pass2_fixup := fixup;
     parent := None; next := None |}.

Fixpoint cond_eval_rec (E : externs) (modreturn : rlm_rcode_t)
    (t : cond_tree) (rcode : Z) (request : request_t) : cond_outcome :=
  match t with
  | tree_null => RETURNED rcode request
  | tree_leaf l neg fixup nxt =>
      match cond_eval_switch E modreturn (lone_node l neg fixup) request with
      | SWITCH_VALUE (v, request) =>
          if v <? 0 then RETURNED v request
          else
            let v := if neg then (if v =? 0 then 1 else 0) else v in
            cond_rec_after (cond_eval_rec E modreturn) nxt v request
      | _ => RETURNED (-1) request
      end
  | tree_child neg fixup sub nxt =>
      match cond_eval_rec E modreturn sub rcode request with
      | RETURNED r request => RETURNED r request
      | CHAIN_LEFT r request =>
          cond_rec_after (cond_eval_rec E modreturn) nxt r request
      end
  end.

(** Leaving a chain whose nodes have the parent [p]: the jump to
    [return_to_parent] of line 958. *)
Definition cond_leave (h : list fr_cond_t) (p : option nat)
    (rcode depth : Z) : option cond_advance_t :=
  match p with
  | None => Some ADVANCE_RETURN
  | Some q => cond_advance h (length h) q rcode (depth - 1)
  end.

(** The walk from the end of a turn on. *)
Definition cond_resume (E : externs) (modreturn : rlm_rcode_t)
    (h : list fr_cond_t) (fuel : nat) (o : option cond_advance_t)
    (rcode : Z) (request : request_t) : option (Z * request_t) :=
  match o with
  | None => None
  | Some ADVANCE_RETURN => Some (rcode, request)
  | Some (ADVANCE_TO c depth) =>
      cond_eval_loop E modreturn h fuel c rcode depth request
  end.

(** One operand of a chain: a node without subtree, or a subtree in
    parentheses. *)
Inductive cond_item :=
  | item_leaf (l : cond_leaf_t) (neg : bool) (fixup : pass2_fixup_t)
  | item_child (neg : bool) (fixup : pass2_fixup_t) (sub : cond_tree).

(** The chain that starts with the operand [A] and goes on with [nxt]. *)
Definition item_then (A : cond_item) (nxt : cond_tree) : cond_tree :=
  match A with
  | item_leaf l neg fixup => tree_leaf l neg fixup nxt
  | item_child neg fixup sub => tree_child neg fixup sub nxt
  end.

(** [A && B] and [A || B] *)
Definition item_and (A : cond_item) (B : cond_tree) : cond_tree :=
  item_then A (tree_leaf LEAF_AND false PASS2_FIXUP_NONE B).
Definition item_or (A : cond_item) (B : cond_tree) : cond_tree :=
  item_then A (tree_leaf LEAF_OR false PASS2_FIXUP_NONE B).

(** ** Trees in memory *)

(** The nodes of [t], laid out from address [a] with parent [p], are in
    [h]. *)
Definition placed (h : list fr_cond_t) (t : cond_tree) (a : nat)
    (p : option nat) : Prop :=
  forall i n, tree_nodes t a p !! i = Some n -> h !! (a + i)%nat = Some n.

(** Leaving node [c] through lines 957-985 ends the walk, or leads to a node
    of [h] at address [b] or later. *)
Definition lands_after (h : list fr_cond_t) (c b : nat) : Prop :=
  forall fuel rcode depth,
    (c < fuel)%nat ->
    exists res,
      cond_advance h fuel c rcode depth = Some res /\
      match res with
      | ADVANCE_TO (Some x) _ => (b <= x < length h)%nat
      | _ => True
      end.

(** The parent pointer [p] of a node at [a]: [NULL], or an earlier node
    that is left towards [b] or later. *)
Definition parent_ok (h : list fr_cond_t) (p : option nat) (a b : nat)
    : Prop :=
  match p with
  | None => True
  | Some q => (q < a)%nat /\ lands_after h q b
  end.

(** The forward pointers of the node [n] at address [c]. *)
Definition forward_node (h : list fr_cond_t) (c : nat) (n : fr_cond_t)
    : Prop :=
  (forall x, next n = Some x -> (c < x < length h)%nat) /\
  (forall x, type n = COND_TYPE_CHILD (Some x) -> (c < x < length h)%nat).

(** One turn of the loop on node [c] moves on, if it does, to a later node
    of [h]. *)
Definition iter_forward (h : list fr_cond_t) (c : nat)
    (o : option cond_iter_t) : Prop :=
  match o with
  | None => False
  | Some (ITER_NEXT (Some x) _ _ _) => (c < x < length h)%nat
  | Some _ => True
  end.

(** [r] is a value that [tmpl_cursor_init] stores when it finds no
    instance. *)
Definition stored_by_cursor (E : externs) (r : Z) : Prop :=
  exists request vpt, tmpl_cursor_init E request vpt = (r, []).

Definition truth_or_error (r : Z) : Prop := r = 1 \/ r = 0 \/ r = -1.

Definition cond_result (E : externs) (r : Z) : Prop :=
  truth_or_error r \/ stored_by_cursor E r.

(** The walk of the chain [t] placed at [a], entered with [rcode] at
    [depth]: it takes no more turns than [t] has nodes and then either has
    returned, or goes on from the parent of the chain. *)
Definition walk_spec (E : externs) (modreturn : rlm_rcode_t)
    (h : list fr_cond_t) (t : cond_tree) (a : nat) (p : option nat) : Prop :=
  forall rcode depth request,
  exists k,
    (1 <= k <= tree_size t)%nat /\
    forall fuel,
      cond_eval_loop E modreturn h (k + fuel) (Some a) rcode depth request =
      match cond_eval_rec E modreturn t rcode request with
      | RETURNED r rq => Some (r, rq)
      | CHAIN_LEFT r rq =>
          cond_resume E modreturn h fuel (cond_leave h p r depth) r rq
      end.

(** The same for the rest [nxt] of a chain, entered from the node
    before it. *)
Definition after_spec (E : externs) (modreturn : rlm_rcode_t)
    (h : list fr_cond_t) (nxt : cond_tree) (b : nat) (p : option nat) : Prop :=
  forall rcode depth request,
  exists k,
    (k <= tree_size nxt)%nat /\
    forall fuel,
      cond_resume E modreturn h (k + fuel)
        match nxt with
        | tree_null => cond_leave h p rcode depth
        | tree_leaf LEAF_AND _ _ nxt' =>
            if rcode =? 0 then cond_leave h p rcode depth
            else Some (ADVANCE_TO (tree_ptr nxt' (S b)) depth)
        | tree_leaf LEAF_OR _ _ nxt' =>
            if negb (rcode =? 0) then cond_leave h p rcode depth
            else Some (ADVANCE_TO (tree_ptr nxt' (S b)) depth)
        | _ => Some (ADVANCE_TO (Some b) depth)
        end rcode request =
      match cond_rec_after (cond_eval_rec E modreturn) nxt rcode request with
      | RETURNED r rq => Some (r, rq)
      | CHAIN_LEFT r rq =>
          cond_resume E modreturn h fuel (cond_leave h p r depth) r rq
      end.

(** ** [regex_escape] (lines 361-394)

    The function itself; the constructor [regex_escape] above is only the
    name under which it is handed to the expansion. *)

Module Escape.

(** The characters of the [case] labels of lines 367-377. *)
Definition special (ch : ascii) : bool :=
  existsb (fun x => bool_decide (ch = x))
    ["\"; "."; "*"; "+"; "?"; "|"; "^"; "$"; "["; "{"; "("]%char.

(** The bytes stored through [p] before the closing NUL, for a buffer of
    [outlen] bytes.  Every turn of the loop consumes one byte of [in]. *)
Fixpoint regex_escape_out (outlen : nat) (_in : string) : string :=
  match _in with
  | EmptyString => ""
  | String ch in' =>
      if bool_decide (ch = "000"%char) then ""
      else if (outlen <? 2)%nat then ""
      else if special ch then
        if (outlen <? 3)%nat then ""
        else String "\" (String ch (regex_escape_out (outlen - 2) in'))
      else String ch (regex_escape_out (outlen - 1) in')
  end.

(** [regex_escape(request, out, outlen, in, arg)]: the value returned,
    [p - out] after the NUL is stored, and the text left in [out]. *)
Definition regex_escape (outlen : nat) (_in : string) : nat * string :=
  let out := regex_escape_out outlen _in in
  (S (String.length out), out).

(** The text of a C string: the bytes before the first NUL. *)
Fixpoint cstr (s : string) : string :=
  match s with
  | EmptyString => ""
  | String ch s' =>
      if bool_decide (ch = "000"%char) then "" else String ch (cstr s')
  end.

(** Escaping without a bound, and its inverse: these two do not come from
    the source, they say what the output of [regex_escape] is. *)
Fixpoint escape_all (s : string) : string :=
  match s with
  | EmptyString => ""
  | String ch s' =>
      if special ch then String "\" (String ch (escape_all s'))
      else String ch (escape_all s')
  end.

Fixpoint unescape (s : string) : string :=
  match s with
  | EmptyString => ""
  | String "\" (String ch s') => String ch (unescape s')
  | String ch s' => String ch (unescape s')
  end.

End Escape.

(** Every character of [s] is a decimal digit. *)
Fixpoint digits_only (s : string) : bool :=
  match s with
  | EmptyString => true
  | String ch s' => isdigit ch && digits_only s'
  end.

(** The tree [t] with the [negate] flag of every [COND_TYPE_CHILD] node
    set to [b]. *)
Fixpoint set_child_negate (b : bool) (t : cond_tree) : cond_tree :=
  match t with
  | tree_null => tree_null
  | tree_leaf l neg fixup nxt =>
      tree_leaf l neg fixup (set_child_negate b nxt)
  | tree_child _ fixup sub nxt =>
      tree_child b fixup (set_child_negate b sub) (set_child_negate b nxt)
  end.

(** The chain [t] with one more node [m] behind its last node. *)
Fixpoint chain_snoc (t : cond_tree) (m : cond_leaf_t) : cond_tree :=
  match t with
  | tree_null => tree_leaf m false PASS2_FIXUP_NONE tree_null
  | tree_leaf l neg fixup nxt => tree_leaf l neg fixup (chain_snoc nxt m)
  | tree_child neg fixup sub nxt => tree_child neg fixup sub (chain_snoc nxt m)
  end.

(** The last node of the chain [t] is an operand: a subtree, or a node that
    is neither [&&] nor [||]. *)
Fixpoint ends_on_operand (t : cond_tree) : bool :=
  match t with
  | tree_null => false
  | tree_leaf l _ _ nxt =>
      match nxt with
      | tree_null =>
          match l with
          | LEAF_AND | LEAF_OR => false
          | _ => true
          end
      | _ => ends_on_operand nxt
      end
  | tree_child _ _ _ nxt =>
      match nxt with
      | tree_null => true
      | _ => ends_on_operand nxt
      end
  end.

(** [cond_eval] entered with [rcode] in place of the initial -1: the walk as
    it goes on in the middle of a condition. *)
Definition cond_eval_tree_from (E : externs) (request : request_t)
    (modreturn : rlm_rcode_t) (rcode : Z) (t : cond_tree)
    : option (Z * request_t) :=
  cond_eval_loop E modreturn (tree_nodes t 0 None) (tree_size t)
    (tree_ptr t 0) rcode 0 request.

(** The results of the climb and of a turn of the loop without [depth]. *)
Definition advance_without_depth (a : cond_advance_t) : option (option nat) :=
  match a with
  | ADVANCE_RETURN => None
  | ADVANCE_TO c _ => Some c
  end.

Definition iter_without_depth (i : cond_iter_t)
    : Z * request_t + option nat * Z * request_t :=
  match i with
  | ITER_RETURN rcode request => inl (rcode, request)
  | ITER_NEXT c rcode _ request => inr (c, rcode, request)
  end.

(** ** Sample inputs *)

(** The map ["010" == "10"] of two literal strings without cast. *)
Definition map_010_eq_10 : map_t :=
  Sample.map_of (Sample.literal "010") T_OP_CMP_EQ (Sample.literal "10").

(** The map [Group == "staff"] on the virtual attribute [Group]. *)
Definition map_group_eq_staff : map_t :=
  Sample.map_of (Sample.attribute "Group" FR_TYPE_STRING) T_OP_CMP_EQ
    (Sample.literal "staff").

(** The map [NAS-Port == (uint64) "10"]: the left side refers to an
    attribute of type [uint32], the right side is an expansion with an
    explicit cast. *)
Definition map_port_eq_cast : map_t :=
  Sample.map_of (Sample.attribute "NAS-Port" FR_TYPE_UINT32) T_OP_CMP_EQ
    (Sample.xlat "10" FR_TYPE_UINT64).

(** The map [User-Name =~ /bob/] and a text that is not valid for the
    sample engine. *)
Definition map_name_matches_bob : map_t :=
  Sample.map_of (Sample.attribute "User-Name" FR_TYPE_STRING) T_OP_REG_EQ
    (Sample.regex "bob").

Definition text_with_high_byte : string := String "200"%char "bob".

(** A request that already carries captures. *)
Definition request_with_captures : request_t :=
  {| request_pairs := [];
     request_regex := Some (Sample.no_regex, ["old"]);
     request_data := [] |}.

(** The map ["2" == Port] with an attribute of type [uint32] on the right,
    and a request that holds three instances of it. *)
Definition map_2_eq_port : map_t :=
  Sample.map_of (Sample.literal "2") T_OP_CMP_EQ
    (Sample.attribute "Port" FR_TYPE_UINT32).

Definition port (n : Z) : fr_pair_t :=
  Sample.pair "Port" (Sample.box_integer FR_TYPE_UINT32 n).

Definition request_three_ports : request_t :=
  Sample.request_of [port 1; port 2; port 3].

(** A request whose second instance of [Port] holds text that is no
    number, ahead of an instance that is 2. *)
Definition port_text (s : string) : fr_pair_t :=
  Sample.pair "Port" (Sample.box_string s).

Definition request_port_text : request_t :=
  Sample.request_of [port 1; port_text "x"; port 2].

(** What the evaluator expects of the functions it calls: the comparison
    and the regular expression engine return 1, 0 or -1, and a failed
    expansion returns -1. *)
Definition cmp_op_contract (E : externs) : Prop :=
  forall op a b, truth_or_error (fr_value_box_cmp_op E op a b).

Definition regex_exec_contract (E : externs) : Prop :=
  forall preg subject len nmatch,
    truth_or_error (fst (regex_exec E preg subject len nmatch)).

Definition aexpand_contract (E : externs) : Prop :=
  forall request vpt escape,
    fst (fst (tmpl_aexpand E request vpt escape)) < 0 ->
    fst (fst (tmpl_aexpand E request vpt escape)) = -1.

(** The map [User-Name == "bob"]. *)
Definition map_name_eq_bob : map_t :=
  Sample.map_of (Sample.attribute "User-Name" FR_TYPE_STRING) T_OP_CMP_EQ
    (Sample.literal "bob").

(** The operand [(false)], and the expansion [%{count}], which the sample
    expansion notes on the request, as a bare template. *)
Definition item_false_in_parentheses : cond_item :=
  item_child false PASS2_FIXUP_NONE
    (tree_leaf LEAF_FALSE false PASS2_FIXUP_NONE tree_null).

Definition tree_count : cond_tree :=
  tree_leaf (LEAF_TMPL (Sample.xlat "%{count}" FR_TYPE_INVALID)) false
    PASS2_FIXUP_NONE tree_null.

(** The instances [vps] of the left side are all passed over by the loop of
    [cond_eval_map]: each one compares with result 0.  The value is the
    request as the last of them leaves it. *)
Fixpoint cond_lhs_passed_over (E : externs) (request : request_t)
    (c : fr_cond_t) (map : map_t) (vps : list fr_pair_t) : option request_t :=
  match vps with
  | [] => Some request
  | vp :: vps =>
      let '(rcode, request) :=
        cond_normalise_and_cmp E request c map (Some (vp_data vp)) in
      if rcode =? 0 then cond_lhs_passed_over E request c map vps else None
  end.

(** What [cond_realize_tmpl] expects of [fr_value_box_cast_in_place]: a cast
    that succeeds leaves a box of the type asked for. *)
Definition cast_in_place_contract (E : externs) : Prop :=
  forall t da b b',
    fr_value_box_cast_in_place E t da b = Some b' -> vb_type b' = t.

(** The map [%{2} == Port]: an expansion on the left, an attribute of type
    [uint32] on the right. *)
Definition map_xlat_eq_port : map_t :=
  Sample.map_of (Sample.xlat "2" FR_TYPE_INVALID) T_OP_CMP_EQ
    (Sample.attribute "Port" FR_TYPE_UINT32).

(** The map [%{fail} == %{count}], whose left side does not expand. *)
Definition map_fail_eq_count : map_t :=
  Sample.map_of (Sample.xlat "%{fail}" FR_TYPE_INVALID) T_OP_CMP_EQ
    (Sample.xlat "%{count}" FR_TYPE_INVALID).

(** The map [Port == "x"], whose literal is no number. *)
Definition map_port_eq_text : map_t :=
  Sample.map_of (Sample.attribute "Port" FR_TYPE_UINT32) T_OP_CMP_EQ
    (Sample.literal "x").

(** The map [Port == "2"]. *)
Definition map_port_eq_2 : map_t :=
  Sample.map_of (Sample.attribute "Port" FR_TYPE_UINT32) T_OP_CMP_EQ
    (Sample.literal "2").

(** * Properties *)

(** ** The comparison of two literals *)

Section literal_comparison.

Variable E : externs.

(** A literal is realized to its own value. *)
Lemma cond_realize_tmpl_data (request : request_t) (_in other : tmpl_t) :
  tmpl_type _in = TMPL_TYPE_DATA ->
  cond_realize_tmpl E request _in other = (0, Some (tmpl_value _in), request).
Proof. intros H. unfold cond_realize_tmpl. now rewrite H. Qed.

(** A literal on the left forces its own type on the normaliser whenever no
    earlier rule applies, so [CHECK_INT_CAST] leaves the type alone. *)
Lemma cond_cast_type_lhs_data (c : fr_cond_t) (map : map_t) :
  map_op map <> T_OP_REG_EQ ->
  pass2_fixup c <> PASS2_PAIRCOMPARE ->
  cast (map_lhs map) = FR_TYPE_INVALID ->
  tmpl_type (map_lhs map) = TMPL_TYPE_DATA ->
  tmpl_type (map_rhs map) = TMPL_TYPE_DATA ->
  cond_cast_type c map = tmpl_value_type (map_lhs map).
Proof.
  intros Hop Hfix Hcast Hl Hr.
  unfold cond_cast_type, tmpl_is_attr, tmpl_is_data.
  repeat (case_bool_decide; simpl; try congruence).
Qed.

Lemma CHECK_INT_CAST_forced (cast_type : fr_type_t)
    (l r : option fr_value_box_t) :
  cast_type <> FR_TYPE_INVALID -> CHECK_INT_CAST cast_type l r = cast_type.
Proof.
  intros H. unfold CHECK_INT_CAST. destruct l, r; try reflexivity.
  now rewrite (bool_decide_eq_false_2 _ H).
Qed.

(** C1, as the code has it: a map of two literals whose operator is not the
    regular expression match gives both literal values, unchanged, to the
    generic comparison and returns its result; the request is untouched.  No
    cast is applied and the numeric string heuristic is not consulted. *)
Theorem literal_map_is_plain_comparison (request : request_t) (c : fr_cond_t)
    (map : map_t) :
  tmpl_type (map_lhs map) = TMPL_TYPE_DATA ->
  tmpl_type (map_rhs map) = TMPL_TYPE_DATA ->
  map_op map <> T_OP_REG_EQ ->
  cond_eval_map E request c map =
    (fr_value_box_cmp_op E (map_op map)
       (Some (tmpl_value (map_lhs map))) (Some (tmpl_value (map_rhs map))),
     request).
Proof.
  intros Hl Hr Hop. unfold cond_eval_map.
  rewrite (cond_realize_tmpl_data _ _ _ Hl). simpl.
  rewrite (cond_realize_tmpl_data _ _ _ Hr). simpl.
  now rewrite (bool_decide_eq_false_2 _ Hop).
Qed.

End literal_comparison.

Lemma literal_map_is_plain_comparison_witness :
  tmpl_type (map_lhs map_010_eq_10) = TMPL_TYPE_DATA /\
  tmpl_type (map_rhs map_010_eq_10) = TMPL_TYPE_DATA /\
  map_op map_010_eq_10 <> T_OP_REG_EQ /\
  cond_eval_map Sample.E (Sample.request_of [])
    (Sample.node_of (COND_TYPE_MAP map_010_eq_10) PASS2_FIXUP_NONE)
    map_010_eq_10 =
  (fr_value_box_cmp_op Sample.E T_OP_CMP_EQ
     (Some (Sample.box_string "010")) (Some (Sample.box_string "10")),
   Sample.request_of []).
Proof.
  split; [reflexivity|]. split; [reflexivity|]. split; [discriminate|].
  apply (literal_map_is_plain_comparison Sample.E (Sample.request_of [])
           (Sample.node_of (COND_TYPE_MAP map_010_eq_10) PASS2_FIXUP_NONE)
           map_010_eq_10);
    [reflexivity | reflexivity | discriminate].
Defined.

(** C1 fails as stated: with text compared as text, the lone map
    ["010" == "10"] evaluates to false, not true, and so does the normaliser
    when it is given the left literal. *)
Lemma literal_010_eq_10_is_false :
  fst <$> cond_eval_tree Sample.E (Sample.request_of []) RLM_MODULE_OK
    (tree_leaf (LEAF_MAP map_010_eq_10) false PASS2_FIXUP_NONE tree_null)
  = Some 0
  /\ fst (cond_normalise_and_cmp Sample.E (Sample.request_of [])
            (Sample.node_of (COND_TYPE_MAP map_010_eq_10) PASS2_FIXUP_NONE)
            map_010_eq_10 (Some (Sample.box_string "010"))) = 0.
Proof. split; vm_compute; reflexivity. Qed.

(** ** A bare template node *)

Section bare_template.

Variable E : externs.
Variable modreturn : rlm_rcode_t.

(** The walk of a tree that is a single node without subtree. *)
Lemma cond_eval_tree_single (request : request_t) (l : cond_leaf_t)
    (neg : bool) (fixup : pass2_fixup_t) :
  cond_eval_tree E request modreturn (tree_leaf l neg fixup tree_null) =
  match
    cond_eval_iter E modreturn
      [ {| type := leaf_type l; negate := neg; pass2_fixup := fixup;
           parent := None; next := None |} ] 0%nat (-1) 0 request
  with
  | Some (ITER_RETURN rcode request) => Some (rcode, request)
  | Some (ITER_NEXT c rcode depth request) =>
      cond_eval_loop E modreturn
        [ {| type := leaf_type l; negate := neg; pass2_fixup := fixup;
             parent := None; next := None |} ] 0%nat c rcode depth request
  | None => None
  end.
Proof. reflexivity. Qed.

(** C2, as the code has it: for an [Exec] or [Xlat] template the test is
    true exactly when the expansion returned a positive length; a failed
    expansion (a negative length) makes the test false, it is not an error.
    The walk of the lone node returns that truth value, negated when the node
    says so, with the request as the expansion left it. *)
Theorem bare_expansion_is_truth_of_length (request : request_t)
    (vpt : tmpl_t) (neg : bool) (fixup : pass2_fixup_t) :
  tmpl_type vpt = TMPL_TYPE_EXEC \/ tmpl_type vpt = TMPL_TYPE_XLAT ->
  let '(slen, _, request') := tmpl_aexpand E request vpt None in
  cond_eval_tmpl E request vpt = (if 0 <? slen then 1 else 0, request') /\
  cond_eval_tree E request modreturn
    (tree_leaf (LEAF_TMPL vpt) neg fixup tree_null) =
  Some (if xorb (0 <? slen) neg then 1 else 0, request').
Proof.
  intros Hty.
  destruct (tmpl_aexpand E request vpt None) as [[slen p] request'] eqn:Hex.
  assert (Htmpl : cond_eval_tmpl E request vpt =
                  (if 0 <? slen then 1 else 0, request')).
  { unfold cond_eval_tmpl. destruct Hty as [-> | ->]; rewrite Hex;
      destruct (Z.ltb_spec slen 0), (Z.eqb_spec slen 0), (Z.ltb_spec 0 slen);
      try reflexivity; lia. }
  split; [exact Htmpl|].
  rewrite cond_eval_tree_single. unfold cond_eval_iter, cond_eval_switch.
  simpl. rewrite Htmpl. unfold cond_eval_after. simpl.
  destruct (0 <? slen), neg; reflexivity.
Qed.

End bare_template.

Lemma bare_expansion_is_truth_of_length_witness :
  (tmpl_type (Sample.xlat "%{fail}" FR_TYPE_INVALID) = TMPL_TYPE_EXEC \/
   tmpl_type (Sample.xlat "%{fail}" FR_TYPE_INVALID) = TMPL_TYPE_XLAT) /\
  cond_eval_tmpl Sample.E (Sample.request_of [])
    (Sample.xlat "%{fail}" FR_TYPE_INVALID) =
  (0, Sample.note (Sample.request_of []) "%{fail}").
Proof.
  split; [right; reflexivity|].
  exact (proj1 (bare_expansion_is_truth_of_length Sample.E RLM_MODULE_OK
                  (Sample.request_of [])
                  (Sample.xlat "%{fail}" FR_TYPE_INVALID) false
                  PASS2_FIXUP_NONE (or_intror eq_refl))).
Defined.

(** C2 fails as stated: the expansion of [%{fail}] reports a failure, and
    the walk of the bare template returns false, not the error -1. *)
Lemma bare_failed_expansion_is_false :
  fst (fst (tmpl_aexpand Sample.E (Sample.request_of [])
              (Sample.xlat "%{fail}" FR_TYPE_INVALID) None)) = -1
  /\ fst <$> cond_eval_tree Sample.E (Sample.request_of []) RLM_MODULE_OK
       (tree_leaf (LEAF_TMPL (Sample.xlat "%{fail}" FR_TYPE_INVALID)) false
          PASS2_FIXUP_NONE tree_null)
     = Some 0.
Proof. split; vm_compute; reflexivity. Qed.

(** ** The legacy pair comparison *)

Section pair_comparison.

Variable E : externs.

(** C3, as the code has it: for a map flagged for pair comparison whose
    operator is not the regular expression match, the result of [paircmp] is
    reduced to a truth value, 0 giving true and every other result, a failure
    included, giving false; the comparison never returns an error. *)
Theorem paircompare_result_is_boolean (request : request_t) (c : fr_cond_t)
    (map : map_t) (lhs rhs : option fr_value_box_t) :
  map_op map <> T_OP_REG_EQ ->
  pass2_fixup c = PASS2_PAIRCOMPARE ->
  cond_cmp_values E request c map lhs rhs =
    (if paircmp E request (request_pairs request) [paircmp_check map rhs] =? 0
     then 1 else 0,
     request).
Proof.
  intros Hop Hfix. unfold cond_cmp_values.
  rewrite (bool_decide_eq_false_2 _ Hop), (bool_decide_eq_true_2 _ Hfix).
  reflexivity.
Qed.

End pair_comparison.

Lemma paircompare_result_is_boolean_witness :
  map_op map_group_eq_staff <> T_OP_REG_EQ /\
  pass2_fixup
    (Sample.node_of (COND_TYPE_MAP map_group_eq_staff) PASS2_PAIRCOMPARE)
  = PASS2_PAIRCOMPARE /\
  cond_cmp_values Sample.E (Sample.request_of [])
    (Sample.node_of (COND_TYPE_MAP map_group_eq_staff) PASS2_PAIRCOMPARE)
    map_group_eq_staff None (Some (Sample.box_string "staff")) =
  (if paircmp Sample.E (Sample.request_of []) []
        [paircmp_check map_group_eq_staff (Some (Sample.box_string "staff"))]
      =? 0
   then 1 else 0,
   Sample.request_of []).
Proof.
  split; [discriminate|]. split; [reflexivity|].
  apply (paircompare_result_is_boolean Sample.E (Sample.request_of [])
           (Sample.node_of (COND_TYPE_MAP map_group_eq_staff)
              PASS2_PAIRCOMPARE)
           map_group_eq_staff None (Some (Sample.box_string "staff")));
    [discriminate | reflexivity].
Defined.

(** C3 fails as stated: on a request without [Group] the pair comparison
    reports the failure -1; the node is false and the walk goes on to the
    other side of [||], so [Group == "staff" || true] is true. *)
Lemma paircompare_failure_is_false :
  paircmp Sample.E (Sample.request_of []) []
    [paircmp_check map_group_eq_staff (Some (Sample.box_string "staff"))]
  = -1
  /\ fst <$> cond_eval_tree Sample.E (Sample.request_of []) RLM_MODULE_OK
       (tree_leaf (LEAF_MAP map_group_eq_staff) false PASS2_PAIRCOMPARE
          tree_null)
     = Some 0
  /\ fst <$> cond_eval_tree Sample.E (Sample.request_of []) RLM_MODULE_OK
       (tree_leaf (LEAF_MAP map_group_eq_staff) false PASS2_PAIRCOMPARE
          (tree_leaf LEAF_OR false PASS2_FIXUP_NONE
             (tree_leaf LEAF_TRUE false PASS2_FIXUP_NONE tree_null)))
     = Some 1.
Proof. repeat split; vm_compute; reflexivity. Qed.

(** ** The comparison type of the normaliser *)

(** C4, as the code has it: in a map that is neither a regular expression
    match nor a pair comparison, an explicit cast on the left operand is the
    comparison type whatever the right operand is; when the left operand has
    no cast and is an attribute reference, the comparison type is the declared
    type of that attribute, whatever cast the right operand carries. *)
Theorem cast_type_prefers_left (c : fr_cond_t) (map : map_t) :
  map_op map <> T_OP_REG_EQ ->
  pass2_fixup c <> PASS2_PAIRCOMPARE ->
  (cast (map_lhs map) <> FR_TYPE_INVALID ->
   cond_cast_type c map = cast (map_lhs map)) /\
  (cast (map_lhs map) = FR_TYPE_INVALID ->
   tmpl_type (map_lhs map) = TMPL_TYPE_ATTR ->
   cond_cast_type c map = da_type (tmpl_da (map_lhs map))).
Proof.
  intros Hop Hfix. unfold cond_cast_type, tmpl_is_attr.
  split; intros; repeat (case_bool_decide; simpl; try congruence).
Qed.

Lemma cast_type_prefers_left_witness :
  map_op map_port_eq_cast <> T_OP_REG_EQ /\
  pass2_fixup (Sample.node_of (COND_TYPE_MAP map_port_eq_cast) PASS2_FIXUP_NONE)
    <> PASS2_PAIRCOMPARE /\
  cast (map_lhs map_port_eq_cast) = FR_TYPE_INVALID /\
  tmpl_type (map_lhs map_port_eq_cast) = TMPL_TYPE_ATTR /\
  cond_cast_type
    (Sample.node_of (COND_TYPE_MAP map_port_eq_cast) PASS2_FIXUP_NONE)
    map_port_eq_cast = FR_TYPE_UINT32.
Proof.
  split; [discriminate|]. split; [discriminate|].
  split; [reflexivity|]. split; [reflexivity|].
  apply (proj2 (cast_type_prefers_left
                  (Sample.node_of (COND_TYPE_MAP map_port_eq_cast)
                     PASS2_FIXUP_NONE)
                  map_port_eq_cast ltac:(discriminate) ltac:(discriminate)));
    reflexivity.
Defined.

(** C4 fails as stated: in [NAS-Port == (uint64) "10"] only the right
    operand carries a cast and the left one is an attribute reference, yet the
    comparison type is the [uint32] of the attribute, not the [uint64] of the
    cast. *)
Lemma right_cast_does_not_win :
  cast (map_lhs map_port_eq_cast) = FR_TYPE_INVALID
  /\ cast (map_rhs map_port_eq_cast) = FR_TYPE_UINT64
  /\ tmpl_is_attr (map_lhs map_port_eq_cast) = true
  /\ cond_cast_type
       (Sample.node_of (COND_TYPE_MAP map_port_eq_cast) PASS2_FIXUP_NONE)
       map_port_eq_cast = FR_TYPE_UINT32
  /\ cond_cast_type
       (Sample.node_of (COND_TYPE_MAP map_port_eq_cast) PASS2_FIXUP_NONE)
       map_port_eq_cast <> cast (map_rhs map_port_eq_cast).
Proof. repeat split; vm_compute; congruence. Qed.

(** ** Regular expression captures *)

Section regex_captures.

Variable E : externs.

Lemma cond_do_regex_exec (request : request_t) (map : map_t)
    (l : fr_value_box_t) (rhs : option fr_value_box_t) (preg : regex_t) :
  vb_type l = FR_TYPE_STRING ->
  cond_do_regex_preg E map rhs = Some preg ->
  cond_do_regex E request map (Some l) rhs =
  let '(ret, regmatch) :=
    regex_exec E preg (vb_strvalue l) (vb_length l) (regex_slots E preg) in
  match ret with
  | 0 => (ret, regex_sub_to_request request None)
  | 1 => (ret, regex_sub_to_request request (Some (preg, regmatch)))
  | _ => (ret, request)
  end.
Proof.
  intros Hl Hp. unfold cond_do_regex.
  rewrite (bool_decide_eq_true_2 _ Hl), Hp. reflexivity.
Qed.

(** C8: once the pattern is at hand and the engine has run on the string
    [lhs], a match (1) returns true and leaves the pattern and its match data
    as the captures of the request, whatever was there before; no match (0)
    returns false and leaves no captures; the execution error (-1) is
    returned as the error -1. *)
Theorem regex_result_drives_captures (request : request_t) (map : map_t)
    (l : fr_value_box_t) (rhs : option fr_value_box_t) (preg : regex_t) :
  vb_type l = FR_TYPE_STRING ->
  cond_do_regex_preg E map rhs = Some preg ->
  let '(ret, regmatch) :=
    regex_exec E preg (vb_strvalue l) (vb_length l) (regex_slots E preg) in
  let '(rcode, request') := cond_do_regex E request map (Some l) rhs in
  (ret = 1 -> rcode = 1 /\ request_regex request' = Some (preg, regmatch)) /\
  (ret = 0 -> rcode = 0 /\ request_regex request' = None) /\
  (ret = -1 -> rcode = -1).
Proof.
  intros Hl Hp. rewrite (cond_do_regex_exec request map l rhs preg Hl Hp).
  destruct (regex_exec E preg (vb_strvalue l) (vb_length l)
              (regex_slots E preg))
    as [ret regmatch].
  destruct (Z.eq_dec ret 1) as [->|]; [simpl; repeat split; congruence|].
  destruct (Z.eq_dec ret 0) as [->|]; [simpl; repeat split; congruence|].
  destruct (Z.eq_dec ret (-1)) as [->|]; [simpl; repeat split; congruence|].
  destruct ret as [|[]|]; simpl; repeat split; congruence.
Qed.

(** C10: when the engine reports anything but match or no match, the error
    -1 in particular, the comparison returns that value and the request,
    captures included, is the one it was given. *)
Theorem regex_error_keeps_request (request : request_t) (map : map_t)
    (l : fr_value_box_t) (rhs : option fr_value_box_t) (preg : regex_t) :
  vb_type l = FR_TYPE_STRING ->
  cond_do_regex_preg E map rhs = Some preg ->
  fst (regex_exec E preg (vb_strvalue l) (vb_length l) (regex_slots E preg))
    <> 0 ->
  fst (regex_exec E preg (vb_strvalue l) (vb_length l) (regex_slots E preg))
    <> 1 ->
  cond_do_regex E request map (Some l) rhs =
  (fst (regex_exec E preg (vb_strvalue l) (vb_length l) (regex_slots E preg)),
   request).
Proof.
  intros Hl Hp. rewrite (cond_do_regex_exec request map l rhs preg Hl Hp).
  destruct (regex_exec E preg (vb_strvalue l) (vb_length l)
              (regex_slots E preg))
    as [ret regmatch].
  simpl. intros H0 H1. destruct ret as [|[]|]; congruence.
Qed.

End regex_captures.

Lemma regex_result_drives_captures_witness :
  vb_type (Sample.box_string "bobby") = FR_TYPE_STRING /\
  cond_do_regex_preg Sample.E map_name_matches_bob None
    = Some (tmpl_regex (map_rhs map_name_matches_bob)) /\
  fst (cond_do_regex Sample.E request_with_captures map_name_matches_bob
         (Some (Sample.box_string "bobby")) None) = 1 /\
  request_regex
    (snd (cond_do_regex Sample.E request_with_captures map_name_matches_bob
            (Some (Sample.box_string "bobby")) None))
  = Some (tmpl_regex (map_rhs map_name_matches_bob), ["bob"]).
Proof.
  split; [reflexivity|]. split; [reflexivity|].
  exact (proj1 (regex_result_drives_captures Sample.E request_with_captures
                  map_name_matches_bob (Sample.box_string "bobby") None
                  (tmpl_regex (map_rhs map_name_matches_bob))
                  eq_refl eq_refl) eq_refl).
Defined.

Lemma regex_error_keeps_request_witness :
  vb_type (Sample.box_string text_with_high_byte) = FR_TYPE_STRING /\
  cond_do_regex_preg Sample.E map_name_matches_bob None
    = Some (tmpl_regex (map_rhs map_name_matches_bob)) /\
  cond_do_regex Sample.E request_with_captures map_name_matches_bob
    (Some (Sample.box_string text_with_high_byte)) None
  = (-1, request_with_captures).
Proof.
  split; [reflexivity|]. split; [reflexivity|].
  apply (regex_error_keeps_request Sample.E request_with_captures
           map_name_matches_bob (Sample.box_string text_with_high_byte) None
           (tmpl_regex (map_rhs map_name_matches_bob)) eq_refl eq_refl);
    vm_compute; discriminate.
Defined.

(** ** The instances of a right hand attribute *)

Section rhs_attribute.

Variable E : externs.

(** The loop passes over a prefix of instances that all compare false. *)
Lemma cond_normalise_attr_loop_skip (c : fr_cond_t) (map : map_t)
    (pre : list fr_pair_t) (vp : fr_pair_t) (post : list fr_pair_t) :
  forall request cast_type lhs rcode request1 ct1 lhs1,
  cond_attr_passed_over E request c map pre cast_type lhs
    = Some (request1, ct1, lhs1) ->
  cond_normalise_attr_loop E request c map (pre ++ vp :: post)
    cast_type lhs rcode =
  cond_normalise_attr_loop E request1 c map (vp :: post) ct1 lhs1 rcode.
Proof.
  induction pre as [|v pre IH]; intros request cast_type lhs rcode
    request1 ct1 lhs1 Hpre.
  - simpl in Hpre. now inversion Hpre.
  - change ((v :: pre) ++ vp :: post) with (v :: (pre ++ vp :: post)).
    cbn [cond_normalise_attr_loop cond_attr_passed_over] in *.
    destruct (cond_cast_and_cmp E request c map cast_type lhs
                (Some (vp_data v))) as [[[r rq] ct] l].
    destruct (Z.eqb_spec r 0) as [->|]; [|discriminate]. simpl.
    rewrite (IH _ _ _ 0 _ _ _ Hpre). reflexivity.
Qed.

(** When every instance compares false, so does the loop. *)
Lemma cond_normalise_attr_loop_all_false (c : fr_cond_t) (map : map_t)
    (vp : fr_pair_t) (vps : list fr_pair_t) :
  forall request cast_type lhs rcode st,
  cond_attr_passed_over E request c map (vp :: vps) cast_type lhs = Some st ->
  cond_normalise_attr_loop E request c map (vp :: vps) cast_type lhs rcode
    = (0, fst (fst st)).
Proof.
  revert vp. induction vps as [|v vps IH];
    intros vp request cast_type lhs rcode st Hpass;
    cbn [cond_normalise_attr_loop cond_attr_passed_over] in *;
    destruct (cond_cast_and_cmp E request c map cast_type lhs
                (Some (vp_data vp))) as [[[r rq] ct] l];
    destruct (Z.eqb_spec r 0) as [->|]; try discriminate; simpl.
  - now inversion Hpass.
  - apply (IH v rq ct l 0 st Hpass).
Qed.

(** A map with a literal on the left and an attribute reference on the
    right goes to the normaliser with the literal. *)
Lemma cond_eval_map_literal_attribute (request : request_t) (c : fr_cond_t)
    (map : map_t) :
  tmpl_type (map_lhs map) = TMPL_TYPE_DATA ->
  tmpl_type (map_rhs map) = TMPL_TYPE_ATTR ->
  cond_eval_map E request c map =
  cond_normalise_and_cmp E request c map (Some (tmpl_value (map_lhs map))).
Proof.
  intros Hl Hr. unfold cond_eval_map.
  rewrite (cond_realize_tmpl_data E _ _ _ Hl).
  assert (Hrhs : cond_realize_tmpl E request (map_rhs map) (map_lhs map)
                 = (0, None, request)).
  { unfold cond_realize_tmpl. now rewrite Hr. }
  rewrite Hrhs. cbv beta iota. change (0 <? 0) with false. cbv beta iota.
  now rewrite Hl.
Qed.

(** The walk of a lone map node with a literal on the left and an attribute
    reference on the right, when the normaliser fails. *)
Lemma literal_attribute_map_walk (modreturn : rlm_rcode_t)
    (request : request_t) (map : map_t) (neg : bool)
    (fixup : pass2_fixup_t) (request' : request_t) :
  tmpl_type (map_lhs map) = TMPL_TYPE_DATA ->
  tmpl_type (map_rhs map) = TMPL_TYPE_ATTR ->
  cond_normalise_and_cmp E request (lone_node (LEAF_MAP map) neg fixup) map
    (Some (tmpl_value (map_lhs map))) = (-1, request') ->
  cond_eval_tree E request modreturn
    (tree_leaf (LEAF_MAP map) neg fixup tree_null) = Some (-1, request').
Proof.
  intros Hl Hr Hnorm. rewrite cond_eval_tree_single.
  fold (lone_node (LEAF_MAP map) neg fixup).
  unfold cond_eval_iter, cond_eval_switch.
  change ([lone_node (LEAF_MAP map) neg fixup] !! 0%nat)
    with (Some (lone_node (LEAF_MAP map) neg fixup)).
  cbv beta iota. change (type (lone_node (LEAF_MAP map) neg fixup))
    with (COND_TYPE_MAP map). cbv beta iota.
  rewrite (cond_eval_map_literal_attribute _ _ _ Hl Hr), Hnorm.
  reflexivity.
Qed.

(** The macro [CAST] calls [fr_value_box_cast] exactly when there is a
    comparison type, the operand has a type, and the two differ; the result
    of the call decides between the jump to [finish] and the new operand. *)
Lemma CAST_runs (cast_type : fr_type_t) (b : fr_value_box_t) :
  cast_type <> FR_TYPE_INVALID ->
  vb_type b <> FR_TYPE_INVALID ->
  cast_type <> vb_type b ->
  CAST E cast_type (Some b) =
  match fr_value_box_cast E cast_type None b with
  | None => CAST_FAILED
  | Some b' => CAST_OK (Some b')
  end.
Proof.
  intros Hc Hb Hne. unfold CAST.
  now rewrite (bool_decide_eq_false_2 _ Hc), (bool_decide_eq_false_2 _ Hb),
    (bool_decide_eq_false_2 _ Hne).
Qed.

Lemma CAST_skips (cast_type : fr_type_t) (b : fr_value_box_t) :
  ~ (cast_type <> FR_TYPE_INVALID /\ vb_type b <> FR_TYPE_INVALID /\
     cast_type <> vb_type b) ->
  CAST E cast_type (Some b) = CAST_OK (Some b).
Proof.
  intros Hno. unfold CAST.
  repeat case_bool_decide; try reflexivity. exfalso. apply Hno. auto.
Qed.

(** C7: let the right side of the map be an attribute reference whose
    instances are [pre], then [vp], then [post], and let the instances of
    [pre] all compare false.  An operand is cast when there is a comparison
    type, the operand has a type and the two differ; the cast is
    [fr_value_box_cast].  If at [vp] every cast that runs succeeds and the
    comparison of the resulting operands returns true, the normaliser
    returns true with the request as that comparison left it.  If
    [fr_value_box_cast] fails on the left or on the right operand at [vp],
    the normaliser returns the error -1, and so does the walk of the lone map
    node when the left side is a literal.  In neither case is an instance of
    [post] looked at.  If [vp] and the instances of [post] compare false as
    well, the normaliser returns false. *)
Theorem rhs_attribute_first_match_or_cast_failure (modreturn : rlm_rcode_t)
    (request : request_t) (c : fr_cond_t) (map : map_t)
    (lhs : option fr_value_box_t) (err : Z)
    (pre : list fr_pair_t) (vp : fr_pair_t) (post : list fr_pair_t)
    (request1 : request_t) (ct1 : fr_type_t)
    (lhs1 : option fr_value_box_t) :
  tmpl_type (map_rhs map) = TMPL_TYPE_ATTR ->
  tmpl_cursor_init E request (map_rhs map) = (err, pre ++ vp :: post) ->
  cond_attr_passed_over E request c map pre (cond_cast_type c map) lhs
    = Some (request1, ct1, lhs1) ->
  let cast_type := CHECK_INT_CAST ct1 lhs1 (Some (vp_data vp)) in
  let cast_runs (b : fr_value_box_t) :=
    cast_type <> FR_TYPE_INVALID /\ vb_type b <> FR_TYPE_INVALID /\
    cast_type <> vb_type b in
  let cast_gives (s s' : option fr_value_box_t) :=
    match s with
    | None => s' = None
    | Some b =>
        (cast_runs b /\
         exists b',
           fr_value_box_cast E cast_type None b = Some b' /\ s' = Some b') \/
        (~ cast_runs b /\ s' = s)
    end in
  let cast_fails (s : option fr_value_box_t) :=
    exists b,
      s = Some b /\ cast_runs b /\
      fr_value_box_cast E cast_type None b = None in
  (forall lhs2 rhs2 request2,
     cast_gives lhs1 lhs2 ->
     cast_gives (Some (vp_data vp)) rhs2 ->
     cond_cmp_values E request1 c map lhs2 rhs2 = (1, request2) ->
     cond_normalise_and_cmp E request c map lhs = (1, request2)) /\
  (cast_fails lhs1 \/ cast_fails (Some (vp_data vp)) ->
   cond_normalise_and_cmp E request c map lhs = (-1, request1)) /\
  (cast_fails lhs1 \/ cast_fails (Some (vp_data vp)) ->
   forall neg fixup,
     c = lone_node (LEAF_MAP map) neg fixup ->
     tmpl_type (map_lhs map) = TMPL_TYPE_DATA ->
     lhs = Some (tmpl_value (map_lhs map)) ->
     cond_eval_tree E request modreturn
       (tree_leaf (LEAF_MAP map) neg fixup tree_null) = Some (-1, request1)) /\
  (forall st,
     cond_attr_passed_over E request1 c map (vp :: post) ct1 lhs1 = Some st ->
     cond_normalise_and_cmp E request c map lhs = (0, fst (fst st))).
Proof.
  intros Hty Hcur Hpre cast_type cast_runs cast_gives cast_fails.
  assert (Hrun : cond_normalise_and_cmp E request c map lhs =
                 cond_normalise_attr_loop E request1 c map (vp :: post)
                   ct1 lhs1 err).
  { unfold cond_normalise_and_cmp. rewrite Hty, Hcur.
    apply cond_normalise_attr_loop_skip, Hpre. }
  assert (Hgives : forall s s', cast_gives s s' ->
                                CAST E cast_type s = CAST_OK s').
  { intros [b|] s' Hs; [|now rewrite Hs].
    destruct Hs as [[(Hc & Hb & Hne) (b' & Hcast & ->)] | [Hno ->]].
    - now rewrite (CAST_runs _ _ Hc Hb Hne), Hcast.
    - now apply CAST_skips. }
  assert (Hfails : forall s, cast_fails s -> CAST E cast_type s = CAST_FAILED).
  { intros s (b & -> & (Hc & Hb & Hne) & Hcast).
    now rewrite (CAST_runs _ _ Hc Hb Hne), Hcast. }
  assert (Hfail : cast_fails lhs1 \/ cast_fails (Some (vp_data vp)) ->
            cond_normalise_and_cmp E request c map lhs = (-1, request1)).
  { rewrite Hrun. cbn [cond_normalise_attr_loop]. unfold cond_cast_and_cmp.
    fold cast_type. intros [Hl | Hr].
    - now rewrite (Hfails _ Hl).
    - destruct (CAST E cast_type lhs1) as [|lhs2]; [reflexivity|].
      now rewrite (Hfails _ Hr). }
  split; [|split; [|split]].
  - rewrite Hrun. cbn [cond_normalise_attr_loop]. unfold cond_cast_and_cmp.
    fold cast_type.
    intros lhs2 rhs2 request2 Hl Hr Hcmp.
    now rewrite (Hgives _ _ Hl), (Hgives _ _ Hr), Hcmp.
  - exact Hfail.
  - intros Hf neg fixup -> Hdata ->.
    apply literal_attribute_map_walk; [exact Hdata | exact Hty|].
    exact (Hfail Hf).
  - intros st Hpass. rewrite Hrun.
    now apply cond_normalise_attr_loop_all_false.
Qed.

End rhs_attribute.

Lemma two_eq_port_first_passed_over (request : request_t) :
  cond_attr_passed_over Sample.E request
    (Sample.node_of (COND_TYPE_MAP map_2_eq_port) PASS2_FIXUP_NONE)
    map_2_eq_port [port 1] FR_TYPE_UINT32 (Some (Sample.box_string "2"))
  = Some (request, FR_TYPE_UINT32,
          Some (Sample.box_integer FR_TYPE_UINT32 2)).
Proof. reflexivity. Qed.

(** On the instances 1, 2, 3 the literal 2 matches at the second; on the
    instances 1, [x], 2 the cast of [x] fails at the second and the result is
    -1, although the third would match. *)
Lemma rhs_attribute_first_match_or_cast_failure_witness :
  tmpl_type (map_rhs map_2_eq_port) = TMPL_TYPE_ATTR /\
  (tmpl_cursor_init Sample.E request_three_ports (map_rhs map_2_eq_port)
     = (0, [port 1] ++ port 2 :: [port 3]) /\
   cond_attr_passed_over Sample.E request_three_ports
     (Sample.node_of (COND_TYPE_MAP map_2_eq_port) PASS2_FIXUP_NONE)
     map_2_eq_port [port 1] FR_TYPE_UINT32 (Some (Sample.box_string "2"))
     = Some (request_three_ports, FR_TYPE_UINT32,
             Some (Sample.box_integer FR_TYPE_UINT32 2)) /\
   cond_normalise_and_cmp Sample.E request_three_ports
     (Sample.node_of (COND_TYPE_MAP map_2_eq_port) PASS2_FIXUP_NONE)
     map_2_eq_port (Some (Sample.box_string "2"))
   = (1, request_three_ports)) /\
  (tmpl_cursor_init Sample.E request_port_text (map_rhs map_2_eq_port)
     = (0, [port 1] ++ port_text "x" :: [port 2]) /\
   cond_attr_passed_over Sample.E request_port_text
     (Sample.node_of (COND_TYPE_MAP map_2_eq_port) PASS2_FIXUP_NONE)
     map_2_eq_port [port 1] FR_TYPE_UINT32 (Some (Sample.box_string "2"))
     = Some (request_port_text, FR_TYPE_UINT32,
             Some (Sample.box_integer FR_TYPE_UINT32 2)) /\
   fr_value_box_cast Sample.E FR_TYPE_UINT32 None (vp_data (port_text "x"))
     = None /\
   cond_normalise_and_cmp Sample.E request_port_text
     (Sample.node_of (COND_TYPE_MAP map_2_eq_port) PASS2_FIXUP_NONE)
     map_2_eq_port (Some (Sample.box_string "2"))
   = (-1, request_port_text)).
Proof.
  split; [reflexivity|]. split.
  - split; [reflexivity|]. split; [reflexivity|].
    apply (proj1 (rhs_attribute_first_match_or_cast_failure Sample.E
                    RLM_MODULE_OK request_three_ports
                    (Sample.node_of (COND_TYPE_MAP map_2_eq_port)
                       PASS2_FIXUP_NONE)
                    map_2_eq_port (Some (Sample.box_string "2")) 0
                    [port 1] (port 2) [port 3]
                    request_three_ports FR_TYPE_UINT32
                    (Some (Sample.box_integer FR_TYPE_UINT32 2))
                    eq_refl eq_refl
                    (two_eq_port_first_passed_over request_three_ports))
             (Some (Sample.box_integer FR_TYPE_UINT32 2))
             (Some (Sample.box_integer FR_TYPE_UINT32 2))
             request_three_ports).
    + right. split; [|reflexivity]. intros (_ & _ & Hne). now apply Hne.
    + right. split; [|reflexivity]. intros (_ & _ & Hne). now apply Hne.
    + reflexivity.
  - split; [reflexivity|]. split; [reflexivity|]. split; [reflexivity|].
    apply (proj1 (proj2 (rhs_attribute_first_match_or_cast_failure Sample.E
                           RLM_MODULE_OK request_port_text
                           (Sample.node_of (COND_TYPE_MAP map_2_eq_port)
                              PASS2_FIXUP_NONE)
                           map_2_eq_port (Some (Sample.box_string "2")) 0
                           [port 1] (port_text "x") [port 2]
                           request_port_text FR_TYPE_UINT32
                           (Some (Sample.box_integer FR_TYPE_UINT32 2))
                           eq_refl eq_refl
                           (two_eq_port_first_passed_over
                              request_port_text)))).
    right. exists (vp_data (port_text "x")).
    split; [reflexivity|]. split; [|reflexivity].
    split; [discriminate|]. split; discriminate.
Defined.

(** ** The walk over a tree in memory *)

Section tree_in_memory.

Lemma tree_nodes_length (t : cond_tree) :
  forall a p, length (tree_nodes t a p) = tree_size t.
Proof.
  induction t as [|l neg fx nxt IH|neg fx sub IHs nxt IHn]; intros a p; simpl.
  - reflexivity.
  - now rewrite IH.
  - rewrite length_app, IHs, IHn. reflexivity.
Qed.

Lemma placed_self (t : cond_tree) : placed (tree_nodes t 0 None) t 0 None.
Proof. intros i n H. exact H. Qed.

Lemma placed_leaf h l neg fx nxt a p :
  placed h (tree_leaf l neg fx nxt) a p ->
  h !! a = Some {| type := leaf_type l; negate := neg; pass2_fixup := fx;
                   parent := p; next := tree_ptr nxt (S a) |}
  /\ placed h nxt (S a) p.
Proof.
  intros H. split.
  - pose proof (H 0%nat _ eq_refl) as H0. now rewrite Nat.add_0_r in H0.
  - intros i n Hi. replace (S a + i)%nat with (a + S i)%nat by lia.
    apply H. exact Hi.
Qed.

Lemma placed_child h neg fx sub nxt a p :
  placed h (tree_child neg fx sub nxt) a p ->
  h !! a = Some {| type := COND_TYPE_CHILD (tree_ptr sub (S a));
                   negate := neg; pass2_fixup := fx; parent := p;
                   next := tree_ptr nxt (S a + tree_size sub)%nat |}
  /\ placed h sub (S a) (Some a)
  /\ placed h nxt (S a + tree_size sub)%nat p.
Proof.
  intros H. split; [|split].
  - pose proof (H 0%nat _ eq_refl) as H0. now rewrite Nat.add_0_r in H0.
  - intros i n Hi. replace (S a + i)%nat with (a + S i)%nat by lia.
    apply H. simpl. now apply lookup_app_l_Some.
  - intros i n Hi.
    replace (S a + tree_size sub + i)%nat
      with (a + S (tree_size sub + i))%nat by lia.
    apply H. simpl. rewrite lookup_app_r; rewrite tree_nodes_length; [|lia].
    now replace (tree_size sub + i - tree_size sub)%nat with i by lia.
Qed.

Lemma placed_lt h t a p :
  placed h t a p -> t <> tree_null -> (a < length h)%nat.
Proof.
  intros H Ht. destruct t as [|l neg fx nxt|neg fx sub nxt]; [congruence| |].
  - apply placed_leaf in H as [H _]. now apply lookup_lt_Some in H.
  - apply placed_child in H as [H _]. now apply lookup_lt_Some in H.
Qed.

Lemma tree_ptr_placed h t a p x :
  placed h t a p -> tree_ptr t a = Some x -> x = a /\ (a < length h)%nat.
Proof.
  intros H Hx. destruct t; simpl in Hx; [discriminate| |];
    (split; [congruence | eapply placed_lt; [exact H | discriminate]]).
Qed.

(** Every node of a placed tree points forward, and inside [h]. *)
Lemma placed_forward h t :
  forall a p, placed h t a p ->
  forall c, (a <= c < a + tree_size t)%nat ->
  exists n, h !! c = Some n /\ forward_node h c n.
Proof.
  induction t as [|l neg fx nxt IH|neg fx sub IHs nxt IHn];
    intros a p H c Hc; simpl in Hc.
  - lia.
  - apply placed_leaf in H as [Ha Hn].
    destruct (decide (c = a)) as [->|Hne].
    + eexists; split; [exact Ha|]. split; simpl.
      * intros x Hx. destruct (tree_ptr_placed _ _ _ _ _ Hn Hx). lia.
      * destruct l; discriminate.
    + apply (IH _ _ Hn). lia.
  - apply placed_child in H as (Ha & Hs & Hn).
    destruct (decide (c = a)) as [->|Hne].
    + eexists; split; [exact Ha|]. split; simpl.
      * intros x Hx. destruct (tree_ptr_placed _ _ _ _ _ Hn Hx). lia.
      * intros x Hx. injection Hx as Hx.
        destruct (tree_ptr_placed _ _ _ _ _ Hs Hx). lia.
    + destruct (decide (c < S a + tree_size sub)%nat).
      * apply (IHs _ _ Hs). lia.
      * apply (IHn _ _ Hn). lia.
Qed.

Lemma lands_after_le h c b b' :
  (b' <= b)%nat -> lands_after h c b -> lands_after h c b'.
Proof.
  intros Hb H fuel rcode depth Hf.
  destruct (H fuel rcode depth Hf) as (res & Hres & Hx).
  exists res. split; [exact Hres|].
  destruct res as [|[x|] d]; try exact I. lia.
Qed.

(** Leaving a node whose parent is in order and whose next node, if any,
    points forward. *)
Lemma lands_after_node h c n b bp :
  h !! c = Some n ->
  parent_ok h (parent n) c bp ->
  (b <= bp)%nat ->
  (forall x, next n = Some x ->
     (b <= x)%nat /\ exists nn, h !! x = Some nn /\ forward_node h x nn) ->
  lands_after h c b.
Proof.
  intros Hc Hp Hb Hn fuel rcode depth Hf.
  destruct fuel as [|fuel]; [lia|]. cbn [cond_advance]. rewrite Hc.
  assert (Hup : exists res,
             match parent n with
             | Some p0 => cond_advance h fuel p0 rcode (depth - 1)
             | None => Some ADVANCE_RETURN
             end = Some res /\
             match res with
             | ADVANCE_TO (Some x) _ => (b <= x < length h)%nat
             | _ => True
             end).
  { destruct (parent n) as [q|].
    - destruct Hp as [Hq Hland].
      apply (lands_after_le _ _ _ _ Hb Hland). lia.
    - exists ADVANCE_RETURN. split; [reflexivity | exact I]. }
  destruct (next n) as [x|] eqn:Hx; [|exact Hup].
  destruct (Hn x eq_refl) as (Hbx & nn & Hnn & Hfw & _).
  rewrite Hnn.
  assert (Hx_lt : (x < length h)%nat) by now apply lookup_lt_Some in Hnn.
  assert (Hskip : forall d, exists res,
             Some (ADVANCE_TO (next nn) d) = Some res /\
             match res with
             | ADVANCE_TO (Some y) _ => (b <= y < length h)%nat
             | _ => True
             end).
  { intros d. eexists; split; [reflexivity|].
    destruct (next nn) as [y|] eqn:Hy; [|exact I].
    specialize (Hfw y eq_refl). lia. }
  assert (Hgo : forall d, exists res,
             Some (ADVANCE_TO (Some x) d) = Some res /\
             match res with
             | ADVANCE_TO (Some y) _ => (b <= y < length h)%nat
             | _ => True
             end).
  { intros d. eexists; split; [reflexivity|]. simpl. lia. }
  destruct (type nn); try apply Hgo.
  - destruct (rcode =? 0); [exact Hup | apply Hskip].
  - destruct (negb (rcode =? 0)); [exact Hup | apply Hskip].
Qed.

(** Leaving any node of a placed tree leads forward. *)
Lemma placed_lands_after h t :
  forall a p, placed h t a p ->
  parent_ok h p a (a + tree_size t)%nat ->
  forall c, (a <= c < a + tree_size t)%nat -> lands_after h c (S c).
Proof.
  induction t as [|l neg fx nxt IH|neg fx sub IHs nxt IHn];
    intros a p H Hp c Hc; simpl in Hc.
  - lia.
  - pose proof H as H'. apply placed_leaf in H' as [Ha Hn].
    destruct (decide (c = a)) as [->|Hne].
    + apply (lands_after_node h a _ (S a)
               (a + tree_size (tree_leaf l neg fx nxt)) Ha); simpl.
      * exact Hp.
      * lia.
      * intros x Hx. destruct (tree_ptr_placed _ _ _ _ _ Hn Hx) as [-> Hlt].
        split; [lia|]. apply (placed_forward h nxt _ _ Hn).
        destruct nxt; simpl in *; [discriminate|lia|lia].
    + apply (IH (S a) p Hn); [|lia].
      destruct p as [q|]; [|exact I]. simpl in Hp. destruct Hp as [Hq Hl].
      split; [lia|]. now replace (S a + tree_size nxt)%nat
                       with (a + S (tree_size nxt))%nat by lia.
  - pose proof H as H'. apply placed_child in H' as (Ha & Hs & Hn).
    assert (Hself : lands_after h a (S a + tree_size sub)).
    { apply (lands_after_node h a _ _
               (a + tree_size (tree_child neg fx sub nxt)) Ha); simpl.
      - exact Hp.
      - lia.
      - intros x Hx. destruct (tree_ptr_placed _ _ _ _ _ Hn Hx) as [-> Hlt].
        split; [lia|]. apply (placed_forward h nxt _ _ Hn).
        destruct nxt; simpl in *; [discriminate|lia|lia]. }
    destruct (decide (c = a)) as [->|Hne].
    + apply (lands_after_le h a (S a + tree_size sub) (S a));
        [lia | exact Hself].
    + destruct (decide (c < S a + tree_size sub)%nat).
      * apply (IHs (S a) (Some a) Hs); [|lia]. split; [lia | exact Hself].
      * apply (IHn _ p Hn); [|lia].
        destruct p as [q|]; [|exact I]. simpl in Hp. destruct Hp as [Hq Hl].
        split; [lia|].
        now replace (S a + tree_size sub + tree_size nxt)%nat
          with (a + S (tree_size sub + tree_size nxt))%nat by lia.
Qed.

Variable E : externs.
Variable modreturn : rlm_rcode_t.

Lemma cond_eval_after_forward h c n depth res :
  (c < length h)%nat -> lands_after h c (S c) ->
  iter_forward h c (cond_eval_after h c n depth res).
Proof.
  intros Hc Hland. unfold cond_eval_after. destruct res as [rcode request].
  destruct (rcode <? 0); [exact I|].
  destruct (Hland (length h)
              (if negate n then if rcode =? 0 then 1 else 0 else rcode)
              depth Hc) as (res & -> & Hres).
  destruct res as [|[x|] d]; simpl; try exact I. lia.
Qed.

(** One turn of the loop on a node of a tree in memory ends the walk or
    moves to a later node of the tree. *)
Lemma cond_eval_iter_forward t c rcode depth request :
  (c < tree_size t)%nat ->
  iter_forward (tree_nodes t 0 None) c
    (cond_eval_iter E modreturn (tree_nodes t 0 None) c rcode depth request).
Proof.
  intros Hc. set (h := tree_nodes t 0 None).
  assert (Hlen : length h = tree_size t) by apply tree_nodes_length.
  destruct (placed_forward h t 0 None (placed_self t) c ltac:(lia))
    as (n & Hn & Hnext & Hchild).
  assert (Hland : lands_after h c (S c)).
  { apply (placed_lands_after h t 0 None (placed_self t) I). lia. }
  unfold cond_eval_iter, cond_eval_switch. rewrite Hn.
  destruct (type n) as [| | | | | | | |[x|]] eqn:Hty;
    try (apply cond_eval_after_forward; [lia | exact Hland]);
    try exact I.
  simpl. apply Hchild. reflexivity.
Qed.

(** The walk over a tree in memory returns within as many turns as there
    are nodes from the current one on, and a property of [rcode] that every
    turn keeps holds for the value returned. *)
Lemma cond_eval_loop_total (P : Z -> Prop) t :
  (forall c rcode depth request,
     P rcode ->
     match cond_eval_iter E modreturn (tree_nodes t 0 None) c rcode depth
             request with
     | Some (ITER_RETURN r _) => P r
     | Some (ITER_NEXT _ r _ _) => P r
     | None => True
     end) ->
  forall fuel c rcode depth request,
    P rcode ->
    match c with
    | Some x => (x < tree_size t /\ tree_size t - x <= fuel)%nat
    | None => True
    end ->
    exists r request',
      cond_eval_loop E modreturn (tree_nodes t 0 None) fuel c rcode depth
        request = Some (r, request') /\ P r.
Proof.
  intros HP. induction fuel as [|fuel IH]; intros c rcode depth request Hr Hc.
  - destruct c as [x|]; [lia|]. simpl. eauto.
  - destruct c as [x|]; [|simpl; eauto]. destruct Hc as [Hx Hfuel].
    cbn [cond_eval_loop].
    pose proof (cond_eval_iter_forward t x rcode depth request Hx) as Hfw.
    pose proof (HP x rcode depth request Hr) as Hkeep.
    destruct (cond_eval_iter E modreturn (tree_nodes t 0 None) x rcode depth
                request) as [[r rq|c' r d rq]|]; simpl in Hfw;
      rewrite ?tree_nodes_length in Hfw.
    + eauto.
    + apply IH; [exact Hkeep|]. destruct c' as [y|]; [lia | exact I].
    + contradiction.
Qed.

(** The nodes visited by the walk over a tree in memory have increasing
    addresses. *)
Lemma cond_eval_visits_sorted t :
  forall fuel c rcode depth request,
    match c with Some x => (x < tree_size t)%nat | None => True end ->
    StronglySorted lt
      (cond_eval_visits E modreturn (tree_nodes t 0 None) fuel c rcode depth
         request)
    /\ Forall (fun y => match c with
                        | Some x => (x <= y < tree_size t)%nat
                        | None => False
                        end)
         (cond_eval_visits E modreturn (tree_nodes t 0 None) fuel c rcode
            depth request).
Proof.
  induction fuel as [|fuel IH]; intros c rcode depth request Hc.
  - destruct c; simpl; split; constructor.
  - destruct c as [x|]; [|simpl; split; constructor].
    cbn [cond_eval_visits].
    pose proof (cond_eval_iter_forward t x rcode depth request Hc) as Hfw.
    destruct (cond_eval_iter E modreturn (tree_nodes t 0 None) x rcode depth
                request) as [[r rq|c' r d rq]|]; simpl in Hfw;
      rewrite ?tree_nodes_length in Hfw;
      try (split; repeat constructor; lia).
    destruct c' as [y|].
    + assert (Hy : (y < tree_size t)%nat) by lia.
      destruct (IH (Some y) r d rq Hy) as [Hs Hall].
      split.
      * constructor; [exact Hs|]. eapply Forall_impl; [exact Hall|].
        simpl. intros z Hz. lia.
      * constructor; [lia|]. eapply Forall_impl; [exact Hall|].
        simpl. intros z Hz. lia.
    + destruct fuel; simpl; split; repeat constructor; lia.
Qed.

End tree_in_memory.

(** ** Termination of the walk *)

Lemma sorted_below_length (l : list nat) :
  forall a n,
    StronglySorted lt l -> Forall (fun y => (a <= y < n)%nat) l ->
    (length l <= n - a)%nat.
Proof.
  induction l as [|y l IH]; intros a n Hs Hall; simpl; [lia|].
  inversion Hs as [|? ? Hs' Hlt]; subst.
  inversion Hall as [|? ? Hy Hall']; subst.
  assert (Htail : Forall (fun z => (S y <= z < n)%nat) l).
  { rewrite Forall_forall in *. intros z Hz.
    specialize (Hlt z Hz). specialize (Hall' z Hz). lia. }
  specialize (IH (S y) n Hs' Htail). lia.
Qed.

Lemma sorted_NoDup (l : list nat) : StronglySorted lt l -> NoDup l.
Proof.
  induction 1 as [|y l Hs IH Hlt]; constructor; [|exact IH].
  intros Hin. rewrite Forall_forall in Hlt. specialize (Hlt y Hin). lia.
Qed.

(** C9: the walk over a finite condition tree, nested subtrees included,
    returns within as many turns of its loop as the tree has nodes; a turn on
    any node of the tree either returns or moves to a node with a larger
    address in the pre-order layout of the tree; and the nodes the loop runs
    on have strictly increasing addresses, so that none is visited twice and
    there are at most as many of them as the tree has nodes. *)
Theorem tree_walk_terminates (E : externs) (modreturn : rlm_rcode_t)
    (t : cond_tree) (request : request_t) :
  (exists r, cond_eval_tree E request modreturn t = Some r) /\
  (forall c rcode depth request',
     (c < tree_size t)%nat ->
     iter_forward (tree_nodes t 0 None) c
       (cond_eval_iter E modreturn (tree_nodes t 0 None) c rcode depth
          request')) /\
  (forall fuel,
     let visits :=
       cond_eval_visits E modreturn (tree_nodes t 0 None) fuel (tree_ptr t 0)
         (-1) 0 request in
     StronglySorted lt visits /\ NoDup visits /\
     (length visits <= tree_size t)%nat).
Proof.
  assert (Hstart : match tree_ptr t 0 with
                   | Some x => (x < tree_size t)%nat
                   | None => True
                   end).
  { destruct t; simpl; [exact I | lia | lia]. }
  split; [|split].
  - destruct (cond_eval_loop_total E modreturn (fun _ => True) t
                ltac:(intros; repeat case_match; exact I)
                (tree_size t) (tree_ptr t 0) (-1) 0 request I)
      as (r & request' & Hrun & _).
    + destruct t; simpl; [exact I | lia | lia].
    + exists (r, request'). exact Hrun.
  - intros c rcode depth request' Hc. now apply cond_eval_iter_forward.
  - intros fuel visits.
    destruct (cond_eval_visits_sorted E modreturn t fuel (tree_ptr t 0) (-1) 0
                request Hstart) as [Hs Hall].
    fold visits in Hs, Hall.
    split; [exact Hs|]. split; [now apply sorted_NoDup|].
    destruct (tree_ptr t 0) as [x|] eqn:Hx.
    + pose proof (sorted_below_length visits x (tree_size t) Hs Hall). lia.
    + destruct visits; [simpl; lia|]. now inversion Hall.
Qed.

(** ** The values returned by the walk *)

Section result_range.

Variable E : externs.
Hypothesis Hcmp : cmp_op_contract E.
Hypothesis Hexec : regex_exec_contract E.
Hypothesis Hexpand : aexpand_contract E.

Lemma cond_do_regex_range request map lhs rhs :
  truth_or_error (fst (cond_do_regex E request map lhs rhs)).
Proof.
  unfold cond_do_regex, truth_or_error.
  destruct lhs as [l|]; [|auto].
  destruct (negb _); [auto|].
  destruct (cond_do_regex_preg E map rhs) as [preg|]; [|auto].
  pose proof (Hexec preg (vb_strvalue l) (vb_length l) (regex_slots E preg))
    as Hret.
  destruct (regex_exec E preg (vb_strvalue l) (vb_length l)
              (regex_slots E preg)) as [ret regmatch].
  simpl in Hret. destruct Hret as [->|[->| ->]]; simpl; auto.
Qed.

Lemma cond_cmp_values_range request c map lhs rhs :
  truth_or_error (fst (cond_cmp_values E request c map lhs rhs)).
Proof.
  unfold cond_cmp_values.
  destruct (bool_decide (map_op map = T_OP_REG_EQ));
    [apply cond_do_regex_range|].
  destruct (bool_decide (pass2_fixup c = PASS2_PAIRCOMPARE)); simpl.
  - unfold truth_or_error. destruct (_ =? 0); auto.
  - apply Hcmp.
Qed.

Lemma cond_cast_and_cmp_range request c map cast_type lhs rhs :
  truth_or_error
    (fst (fst (fst (cond_cast_and_cmp E request c map cast_type lhs rhs)))).
Proof.
  unfold cond_cast_and_cmp.
  destruct (CAST E _ lhs) as [|lhs']; [right; right; reflexivity|].
  destruct (CAST E _ rhs) as [|rhs']; [right; right; reflexivity|].
  pose proof (cond_cmp_values_range request c map lhs' rhs') as H.
  destruct (cond_cmp_values E request c map lhs' rhs'). exact H.
Qed.

(** The loop over the instances of the right side returns the value it
    was entered with when there is no instance, and a truth value or -1
    otherwise. *)
Lemma cond_normalise_attr_loop_range c map vps :
  forall request cast_type lhs rcode,
    (vps = [] /\
     fst (cond_normalise_attr_loop E request c map vps cast_type lhs rcode)
       = rcode) \/
    truth_or_error
      (fst (cond_normalise_attr_loop E request c map vps cast_type lhs rcode)).
Proof.
  induction vps as [|vp vps IH]; intros request cast_type lhs rcode.
  - left. split; reflexivity.
  - right. cbn [cond_normalise_attr_loop].
    pose proof (cond_cast_and_cmp_range request c map cast_type lhs
                  (Some (vp_data vp))) as Hr.
    destruct (cond_cast_and_cmp E request c map cast_type lhs
                (Some (vp_data vp))) as [[[r rq] ct] l]. simpl in Hr.
    destruct (Z.eqb_spec r 0) as [->|Hne]; simpl; [|exact Hr].
    destruct (IH rq ct l 0) as [[_ ->]|H]; [|exact H].
    right; left; reflexivity.
Qed.

Lemma cond_normalise_and_cmp_range request c map lhs :
  cond_result E (fst (cond_normalise_and_cmp E request c map lhs)).
Proof.
  unfold cond_normalise_and_cmp.
  assert (Hone : forall rq rhs,
             cond_result E
               (fst (let '(rcode, request, _, _) :=
                       cond_cast_and_cmp E rq c map (cond_cast_type c map)
                         lhs rhs in
                     (rcode, request)))).
  { intros rq rhs.
    pose proof (cond_cast_and_cmp_range rq c map (cond_cast_type c map) lhs
                  rhs) as H.
    destruct (cond_cast_and_cmp E rq c map (cond_cast_type c map) lhs rhs)
      as [[[r rq'] ct] l]. left. exact H. }
  assert (Hexp : cond_result E
            (fst (let '(ret, p, request) :=
                    tmpl_aexpand E request (map_rhs map) (cond_escape map) in
                  if ret <? 0 then (-1, request)
                  else
                    let '(rcode, request, _, _) :=
                      cond_cast_and_cmp E request c map (cond_cast_type c map)
                        lhs (Some (fr_value_box_bstrndup_shallow p ret)) in
                    (rcode, request)))).
  { destruct (tmpl_aexpand E request (map_rhs map) (cond_escape map))
      as [[ret p] rq].
    destruct (ret <? 0); [left; right; right; reflexivity | apply Hone]. }
  destruct (tmpl_type (map_rhs map)); try (left; right; right; reflexivity);
    try exact Hexp; try apply Hone.
  - destruct (tmpl_cursor_init E request (map_rhs map)) as [rcode vps] eqn:Hc.
    destruct (cond_normalise_attr_loop_range c map vps request
                (cond_cast_type c map) lhs rcode) as [[-> ->]|H].
    + right. exists request, (map_rhs map). exact Hc.
    + left. exact H.
  - destruct (CAST E (cond_cast_type c map) lhs) as [|lhs'];
      [left; right; right; reflexivity|].
    left. apply cond_cmp_values_range.
Qed.

Lemma cond_eval_map_loop_range c map vps :
  forall request rcode,
    (vps = [] /\
     fst (cond_eval_map_loop E request c map vps rcode) = rcode) \/
    cond_result E (fst (cond_eval_map_loop E request c map vps rcode)).
Proof.
  induction vps as [|vp vps IH]; intros request rcode.
  - left. split; reflexivity.
  - right. cbn [cond_eval_map_loop].
    pose proof (cond_normalise_and_cmp_range request c map
                  (Some (vp_data vp))) as Hr.
    destruct (cond_normalise_and_cmp E request c map (Some (vp_data vp)))
      as [r rq]. simpl in Hr.
    destruct (Z.eqb_spec r 0) as [->|Hne]; simpl; [|exact Hr].
    destruct (IH rq 0) as [[_ ->]|H]; [|exact H].
    left; right; left; reflexivity.
Qed.

Lemma cond_eval_map_range request c map :
  cond_result E (fst (cond_eval_map E request c map)).
Proof.
  unfold cond_eval_map.
  destruct (cond_realize_tmpl E request (map_lhs map) (map_rhs map))
    as [[ret1 lhs] rq1].
  destruct (ret1 <? 0); [left; right; right; reflexivity|].
  destruct (cond_realize_tmpl E rq1 (map_rhs map) (map_lhs map))
    as [[ret2 rhs] rq2].
  destruct (ret2 <? 0); [left; right; right; reflexivity|].
  assert (Hslow :
    cond_result E
      (fst match tmpl_type (map_lhs map) with
           | TMPL_TYPE_LIST | TMPL_TYPE_ATTR =>
               if bool_decide (pass2_fixup c = PASS2_PAIRCOMPARE)
                  && negb (bool_decide (map_op map = T_OP_REG_EQ))
               then cond_normalise_and_cmp E rq2 c map None
               else
                 let '(rcode, vps) :=
                   tmpl_cursor_init E rq2 (map_lhs map) in
                 cond_eval_map_loop E rq2 c map vps rcode
           | TMPL_TYPE_DATA =>
               cond_normalise_and_cmp E rq2 c map
                 (Some (tmpl_value (map_lhs map)))
           | TMPL_TYPE_EXEC | TMPL_TYPE_XLAT =>
               let '(ret, p, request) :=
                 tmpl_aexpand E rq2 (map_lhs map) None in
               if ret <? 0 then (int_of_ssize_t ret, request)
               else
                 cond_normalise_and_cmp E request c map
                   (Some (fr_value_box_bstrndup_shallow p ret))
           | _ => (-1, rq2)
           end)).
  { assert (Hattr :
      cond_result E
        (fst (if bool_decide (pass2_fixup c = PASS2_PAIRCOMPARE)
                 && negb (bool_decide (map_op map = T_OP_REG_EQ))
              then cond_normalise_and_cmp E rq2 c map None
              else
                let '(rcode, vps) := tmpl_cursor_init E rq2 (map_lhs map) in
                cond_eval_map_loop E rq2 c map vps rcode))).
    { destruct (_ && _); [apply cond_normalise_and_cmp_range|].
      destruct (tmpl_cursor_init E rq2 (map_lhs map)) as [rcode vps] eqn:Hc.
      destruct (cond_eval_map_loop_range c map vps rq2 rcode)
        as [[-> ->]|H]; [|exact H].
      right. exists rq2, (map_lhs map). exact Hc. }
    assert (Hxlat :
      cond_result E
        (fst (let '(ret, p, request) :=
                tmpl_aexpand E rq2 (map_lhs map) None in
              if ret <? 0 then (int_of_ssize_t ret, request)
              else
                cond_normalise_and_cmp E request c map
                  (Some (fr_value_box_bstrndup_shallow p ret))))).
    { pose proof (Hexpand rq2 (map_lhs map) None) as Hneg.
      destruct (tmpl_aexpand E rq2 (map_lhs map) None) as [[ret p] rq].
      simpl in Hneg. destruct (Z.ltb_spec ret 0).
      - left; right; right. simpl. now rewrite Hneg.
      - apply cond_normalise_and_cmp_range. }
    destruct (tmpl_type (map_lhs map));
      try (left; right; right; reflexivity);
      try exact Hattr; try exact Hxlat.
    apply cond_normalise_and_cmp_range. }
  destruct lhs as [l|], rhs as [r|]; try exact Hslow.
  clear Hslow. destruct (negb _).
  - left. apply Hcmp.
  - left. apply cond_do_regex_range.
Qed.

Lemma cond_eval_tmpl_range request vpt :
  truth_or_error (fst (cond_eval_tmpl E request vpt)).
Proof.
  unfold cond_eval_tmpl, truth_or_error.
  destruct (tmpl_type vpt); simpl; auto;
    try (destruct (_ =? 0); simpl; auto);
    destruct (tmpl_aexpand E request vpt None) as [[slen p] rq];
    destruct (slen <? 0); simpl; auto; destruct (slen =? 0); simpl; auto.
Qed.

Lemma cond_eval_after_range h c n depth res :
  cond_result E (fst res) ->
  match cond_eval_after h c n depth res with
  | Some (ITER_RETURN r _) => cond_result E r
  | Some (ITER_NEXT _ r _ _) => cond_result E r
  | None => True
  end.
Proof.
  intros Hres. unfold cond_eval_after. destruct res as [rcode request].
  simpl in Hres. destruct (rcode <? 0); [exact Hres|].
  assert (Hneg : cond_result E
            (if negate n then if rcode =? 0 then 1 else 0 else rcode)).
  { destruct (negate n); [|exact Hres].
    left. unfold truth_or_error. destruct (rcode =? 0); auto. }
  destruct (cond_advance h (length h) c _ depth) as [[|c' d]|];
    [exact Hneg | exact Hneg | exact I].
Qed.

Lemma cond_eval_iter_range modreturn h c rcode depth request :
  cond_result E rcode ->
  match cond_eval_iter E modreturn h c rcode depth request with
  | Some (ITER_RETURN r _) => cond_result E r
  | Some (ITER_NEXT _ r _ _) => cond_result E r
  | None => True
  end.
Proof.
  intros Hr. unfold cond_eval_iter, cond_eval_switch.
  destruct (h !! c) as [n|]; [|exact I].
  destruct (type n); try apply cond_eval_after_range; simpl;
    try (left; unfold truth_or_error; auto; fail).
  - left. apply cond_eval_tmpl_range.
  - left. unfold truth_or_error. destruct (bool_decide _); auto.
  - apply cond_eval_map_range.
  - exact Hr.
Qed.

(** C6, as the code has it: when the comparison and the regular expression
    engine return 1, 0 or -1 and a failed expansion returns -1, the walk over
    any tree, for any request and previous module result, returns true (1),
    false (0), the error -1, or a value that [tmpl_cursor_init] stored in
    [rcode] when it found no instance of an attribute reference. *)
Theorem cond_eval_returns_truth_error_or_cursor_code (request : request_t)
    (modreturn : rlm_rcode_t) (t : cond_tree) :
  exists r request',
    cond_eval_tree E request modreturn t = Some (r, request') /\
    (r = 1 \/ r = 0 \/ r = -1 \/ stored_by_cursor E r).
Proof.
  destruct (cond_eval_loop_total E modreturn (cond_result E) t
              (fun c rcode depth rq Hr =>
                 cond_eval_iter_range modreturn _ c rcode depth rq Hr)
              (tree_size t) (tree_ptr t 0) (-1) 0 request)
    as (r & request' & Hrun & Hres).
  - left; right; right; reflexivity.
  - destruct t; simpl; [exact I | lia | lia].
  - exists r, request'. split; [exact Hrun|].
    destruct Hres as [[H|[H|H]]|H]; auto.
Qed.

End result_range.

(** ** The sample collaborators keep the contracts *)

Lemma sample_cmp_op_contract : cmp_op_contract Sample.E.
Proof.
  intros op a b. unfold truth_or_error. simpl. unfold Sample.cmp_op.
  destruct a as [a|], b as [b|]; auto.
  destruct (negb _); auto.
  destruct (datum a), (datum b); auto;
    match goal with
    | |- context [Sample.op_holds ?o ?c] =>
        destruct (Sample.op_holds o c) as [[|]|]; simpl; auto
    end.
Qed.

Lemma sample_regex_exec_contract : regex_exec_contract Sample.E.
Proof.
  intros preg subject len nmatch. unfold truth_or_error. simpl.
  unfold Sample.exec. destruct (negb _); simpl; auto.
  destruct (index 0 (re_pattern preg) subject); simpl; auto.
Qed.

Lemma sample_aexpand_contract : aexpand_contract Sample.E.
Proof.
  intros request vpt escape. simpl. unfold Sample.aexpand.
  destruct (String.prefix _ _); simpl; [reflexivity | lia].
Qed.

Lemma cond_eval_returns_truth_error_or_cursor_code_witness :
  cmp_op_contract Sample.E /\
  regex_exec_contract Sample.E /\
  aexpand_contract Sample.E /\
  exists r request',
    cond_eval_tree Sample.E (Sample.request_of []) RLM_MODULE_OK
      (tree_leaf (LEAF_MAP map_name_eq_bob) false PASS2_FIXUP_NONE tree_null)
    = Some (r, request') /\
    (r = 1 \/ r = 0 \/ r = -1 \/ stored_by_cursor Sample.E r).
Proof.
  split; [exact sample_cmp_op_contract|].
  split; [exact sample_regex_exec_contract|].
  split; [exact sample_aexpand_contract|].
  exact (cond_eval_returns_truth_error_or_cursor_code Sample.E
           sample_cmp_op_contract sample_regex_exec_contract
           sample_aexpand_contract (Sample.request_of []) RLM_MODULE_OK
           (tree_leaf (LEAF_MAP map_name_eq_bob) false PASS2_FIXUP_NONE
              tree_null)).
Defined.

(** C6 fails as stated: on a request without [User-Name] the cursor of the
    left side of [User-Name == "bob"] finds no instance and stores -2, the
    "attribute not found" of the documentation of [cond_eval]; the loop over
    the instances does not run, and the walk returns that -2. *)
Lemma missing_attribute_returns_minus_2 :
  tmpl_cursor_init Sample.E (Sample.request_of []) (map_lhs map_name_eq_bob)
    = (-2, [])
  /\ cond_eval_tree Sample.E (Sample.request_of []) RLM_MODULE_OK
       (tree_leaf (LEAF_MAP map_name_eq_bob) false PASS2_FIXUP_NONE tree_null)
     = Some (-2, Sample.request_of []).
Proof. split; vm_compute; reflexivity. Qed.

(** ** The node argument of the evaluation functions *)

Section node_argument.

Variable E : externs.
Variable modreturn : rlm_rcode_t.

(** The functions that take the node [c] read only its fixup. *)
Lemma cond_cast_type_fixup c c' map :
  pass2_fixup c = pass2_fixup c' ->
  cond_cast_type c map = cond_cast_type c' map.
Proof. intros H. unfold cond_cast_type. now rewrite H. Qed.

Lemma cond_cmp_values_fixup request c c' map lhs rhs :
  pass2_fixup c = pass2_fixup c' ->
  cond_cmp_values E request c map lhs rhs =
  cond_cmp_values E request c' map lhs rhs.
Proof. intros H. unfold cond_cmp_values. now rewrite H. Qed.

Lemma cond_cast_and_cmp_fixup request c c' map cast_type lhs rhs :
  pass2_fixup c = pass2_fixup c' ->
  cond_cast_and_cmp E request c map cast_type lhs rhs =
  cond_cast_and_cmp E request c' map cast_type lhs rhs.
Proof.
  intros H. unfold cond_cast_and_cmp.
  destruct (CAST E _ lhs); [reflexivity|].
  destruct (CAST E _ rhs); [reflexivity|].
  now rewrite (cond_cmp_values_fixup _ c c' _ _ _ H).
Qed.

Lemma cond_normalise_attr_loop_fixup c c' map vps :
  pass2_fixup c = pass2_fixup c' ->
  forall request cast_type lhs rcode,
    cond_normalise_attr_loop E request c map vps cast_type lhs rcode =
    cond_normalise_attr_loop E request c' map vps cast_type lhs rcode.
Proof.
  intros H. induction vps as [|vp vps IH]; intros; simpl; [reflexivity|].
  rewrite (cond_cast_and_cmp_fixup _ c c' _ _ _ _ H).
  destruct (cond_cast_and_cmp E request c' map cast_type lhs
              (Some (vp_data vp))) as [[[r rq] ct] l].
  destruct (negb (r =? 0)); [reflexivity | apply IH].
Qed.

Lemma cond_normalise_and_cmp_fixup request c c' map lhs :
  pass2_fixup c = pass2_fixup c' ->
  cond_normalise_and_cmp E request c map lhs =
  cond_normalise_and_cmp E request c' map lhs.
Proof.
  intros H. unfold cond_normalise_and_cmp.
  rewrite (cond_cast_type_fixup c c' map H).
  destruct (tmpl_type (map_rhs map)); try reflexivity.
  - now rewrite (cond_cast_and_cmp_fixup _ c c' _ _ _ _ H).
  - destruct (tmpl_cursor_init E request (map_rhs map)) as [rcode vps].
    now apply cond_normalise_attr_loop_fixup.
  - destruct (tmpl_aexpand E request (map_rhs map) (cond_escape map))
      as [[ret p] rq].
    now rewrite (cond_cast_and_cmp_fixup _ c c' _ _ _ _ H).
  - destruct (tmpl_aexpand E request (map_rhs map) (cond_escape map))
      as [[ret p] rq].
    now rewrite (cond_cast_and_cmp_fixup _ c c' _ _ _ _ H).
  - destruct (CAST E _ lhs); [reflexivity|].
    now apply cond_cmp_values_fixup.
  - destruct (tmpl_aexpand E request (map_rhs map) (cond_escape map))
      as [[ret p] rq].
    now rewrite (cond_cast_and_cmp_fixup _ c c' _ _ _ _ H).
Qed.

Lemma cond_eval_map_loop_fixup c c' map vps :
  pass2_fixup c = pass2_fixup c' ->
  forall request rcode,
    cond_eval_map_loop E request c map vps rcode =
    cond_eval_map_loop E request c' map vps rcode.
Proof.
  intros H. induction vps as [|vp vps IH]; intros; simpl; [reflexivity|].
  rewrite (cond_normalise_and_cmp_fixup _ c c' _ _ H).
  destruct (cond_normalise_and_cmp E request c' map (Some (vp_data vp)))
    as [r rq].
  destruct (negb (r =? 0)); [reflexivity | apply IH].
Qed.

Lemma cond_eval_map_fixup request c c' map :
  pass2_fixup c = pass2_fixup c' ->
  cond_eval_map E request c map = cond_eval_map E request c' map.
Proof.
  intros H. unfold cond_eval_map.
  destruct (cond_realize_tmpl E request (map_lhs map) (map_rhs map))
    as [[ret1 lhs] rq1].
  destruct (ret1 <? 0); [reflexivity|].
  destruct (cond_realize_tmpl E rq1 (map_rhs map) (map_lhs map))
    as [[ret2 rhs] rq2].
  destruct (ret2 <? 0); [reflexivity|].
  rewrite H.
  rewrite !(cond_normalise_and_cmp_fixup _ c c' _ _ H).
  destruct (tmpl_cursor_init E rq2 (map_lhs map)) as [rcode vps].
  rewrite (cond_eval_map_loop_fixup c c' map vps H).
  destruct (tmpl_aexpand E rq2 (map_lhs map) None) as [[ret p] rq].
  rewrite (cond_normalise_and_cmp_fixup rq c c' _ _ H).
  reflexivity.
Qed.

(** The switch reads the type and the fixup of the node only. *)
Lemma cond_eval_switch_pointers n n' request :
  type n = type n' -> pass2_fixup n = pass2_fixup n' ->
  cond_eval_switch E modreturn n request =
  cond_eval_switch E modreturn n' request.
Proof.
  intros Hty Hfix. unfold cond_eval_switch. rewrite Hty.
  destruct (type n'); try reflexivity.
  f_equal. now apply cond_eval_map_fixup.
Qed.

End node_argument.

(** ** The walk and the recursive reading agree *)

Lemma cond_advance_S h fuel c rcode depth :
  cond_advance h (S fuel) c rcode depth =
  match h !! c with
  | None => None
  | Some n =>
      let return_to_parent :=
        match parent n with
        | None => Some ADVANCE_RETURN
        | Some p => cond_advance h fuel p rcode (depth - 1)
        end in
      match next n with
      | None => return_to_parent
      | Some c_next =>
          match h !! c_next with
          | None => None
          | Some n_next =>
              match type n_next with
              | COND_TYPE_AND =>
                  if rcode =? 0 then return_to_parent
                  else Some (ADVANCE_TO (next n_next) depth)
              | COND_TYPE_OR =>
                  if negb (rcode =? 0) then return_to_parent
                  else Some (ADVANCE_TO (next n_next) depth)
              | _ => Some (ADVANCE_TO (Some c_next) depth)
              end
          end
      end
  end.
Proof. reflexivity. Qed.

Lemma cond_advance_more_fuel h :
  forall fuel c rcode depth res,
    cond_advance h fuel c rcode depth = Some res ->
    cond_advance h (S fuel) c rcode depth = Some res.
Proof.
  induction fuel as [|fuel IH]; intros c rcode depth res H; [discriminate|].
  rewrite cond_advance_S in H. rewrite cond_advance_S. cbv zeta in *.
  destruct (h !! c) as [n|]; [|discriminate].
  assert (Hup : forall res,
             match parent n with
             | Some p => cond_advance h fuel p rcode (depth - 1)
             | None => Some ADVANCE_RETURN
             end = Some res ->
             match parent n with
             | Some p => cond_advance h (S fuel) p rcode (depth - 1)
             | None => Some ADVANCE_RETURN
             end = Some res).
  { intros res'. destruct (parent n) as [p|]; [apply IH | trivial]. }
  destruct (next n) as [x|]; [|now apply Hup].
  destruct (h !! x) as [nn|]; [|discriminate].
  destruct (type nn); try exact H.
  - destruct (rcode =? 0); [now apply Hup | exact H].
  - destruct (negb (rcode =? 0)); [now apply Hup | exact H].
Qed.

Lemma cond_advance_fuel_le h c rcode depth res :
  forall fuel fuel',
    (fuel <= fuel')%nat ->
    cond_advance h fuel c rcode depth = Some res ->
    cond_advance h fuel' c rcode depth = Some res.
Proof.
  intros fuel fuel' Hle H. induction Hle as [|m Hle IH]; [exact H|].
  now apply cond_advance_more_fuel.
Qed.

(** Once the fuel is enough, its amount does not matter. *)
Lemma cond_advance_any_fuel h c b rcode depth fuel fuel' :
  lands_after h c b -> (c < fuel)%nat -> (c < fuel')%nat ->
  cond_advance h fuel c rcode depth = cond_advance h fuel' c rcode depth.
Proof.
  intros Hland Hf Hf'.
  destruct (Hland (S c) rcode depth ltac:(lia)) as (res & Hres & _).
  rewrite (cond_advance_fuel_le h c rcode depth res (S c) fuel)
    by (lia || exact Hres).
  now rewrite (cond_advance_fuel_le h c rcode depth res (S c) fuel')
    by (lia || exact Hres).
Qed.

Section walk_is_recursion.

Variable E : externs.
Variable modreturn : rlm_rcode_t.
Variable T : cond_tree.

Let h := tree_nodes T 0 None.

Lemma tree_lands c : (c < length h)%nat -> lands_after h c (S c).
Proof.
  intros Hc. unfold h in *. rewrite tree_nodes_length in Hc.
  apply (placed_lands_after _ T 0 None (placed_self T) I). lia.
Qed.

(** Leaving the node at [a], whose chain goes on with [nxt] at [b]. *)
Lemma cond_advance_at a n nxt b p rcode depth :
  h !! a = Some n -> parent n = p -> next n = tree_ptr nxt b ->
  placed h nxt b p ->
  (forall q, p = Some q -> (q < a)%nat) ->
  cond_advance h (length h) a rcode depth =
  match nxt with
  | tree_null => cond_leave h p rcode depth
  | tree_leaf LEAF_AND _ _ nxt' =>
      if rcode =? 0 then cond_leave h p rcode depth
      else Some (ADVANCE_TO (tree_ptr nxt' (S b)) depth)
  | tree_leaf LEAF_OR _ _ nxt' =>
      if negb (rcode =? 0) then cond_leave h p rcode depth
      else Some (ADVANCE_TO (tree_ptr nxt' (S b)) depth)
  | _ => Some (ADVANCE_TO (Some b) depth)
  end.
Proof.
  intros Ha Hp Hn Hnxt Hq.
  assert (Hlt : (a < length h)%nat) by now apply lookup_lt_Some in Ha.
  destruct (length h) as [|f] eqn:Hlen; [lia|].
  rewrite cond_advance_S. cbv zeta. rewrite Ha, Hp, Hn.
  assert (Hup : match p with
                | Some q => cond_advance h f q rcode (depth - 1)
                | None => Some ADVANCE_RETURN
                end = cond_leave h p rcode depth).
  { unfold cond_leave. destruct p as [q|]; [|reflexivity].
    specialize (Hq q eq_refl). rewrite Hlen.
    apply (cond_advance_any_fuel h q (S q)); [|lia|lia].
    apply tree_lands. lia. }
  destruct nxt as [|l' neg' fx' nxt'|neg' fx' sub' nxt']; cbn [tree_ptr].
  - exact Hup.
  - apply placed_leaf in Hnxt as [Hb _]. rewrite Hb. cbn [type next].
    destruct l'; cbn [leaf_type]; rewrite ?Hup; reflexivity.
  - apply placed_child in Hnxt as [Hb _]. rewrite Hb. reflexivity.
Qed.

Lemma after_spec_of_walk_spec (n : nat) :
  (forall t, (tree_size t <= n)%nat -> t <> tree_null ->
     forall a p, placed h t a p ->
     (forall q, p = Some q -> (q < a)%nat) -> walk_spec E modreturn h t a p) ->
  forall nxt, (tree_size nxt <= n)%nat ->
  forall b p, placed h nxt b p ->
  (forall q, p = Some q -> (q < b)%nat) -> after_spec E modreturn h nxt b p.
Proof.
  intros IH nxt Hsize b p Hnxt Hq rcode depth request.
  assert (Hwhole : nxt <> tree_null ->
            exists k, (k <= tree_size nxt)%nat /\
              forall fuel,
                cond_resume E modreturn h (k + fuel)
                  (Some (ADVANCE_TO (Some b) depth)) rcode request =
                match cond_eval_rec E modreturn nxt rcode request with
                | RETURNED r rq => Some (r, rq)
                | CHAIN_LEFT r rq =>
                    cond_resume E modreturn h fuel (cond_leave h p r depth)
                      r rq
                end).
  { intros Hne.
    destruct (IH nxt Hsize Hne b p Hnxt Hq rcode depth request)
      as (k & Hk & Hrun).
    exists k. split; [lia | exact Hrun]. }
  assert (Hleft : exists k, (k <= tree_size nxt)%nat /\
            forall fuel,
              cond_resume E modreturn h (k + fuel)
                (cond_leave h p rcode depth) rcode request =
              cond_resume E modreturn h fuel (cond_leave h p rcode depth)
                rcode request).
  { exists 0%nat. split; [lia | reflexivity]. }
  assert (Hskip : forall l' neg' fx' nxt',
            nxt = tree_leaf l' neg' fx' nxt' ->
            exists k, (k <= tree_size nxt)%nat /\
              forall fuel,
                cond_resume E modreturn h (k + fuel)
                  (Some (ADVANCE_TO (tree_ptr nxt' (S b)) depth)) rcode
                  request =
                match cond_eval_rec E modreturn nxt' rcode request with
                | RETURNED r rq => Some (r, rq)
                | CHAIN_LEFT r rq =>
                    cond_resume E modreturn h fuel (cond_leave h p r depth)
                      r rq
                end).
  { intros l' neg' fx' nxt' ->. simpl in Hsize.
    apply placed_leaf in Hnxt as [_ Hnxt'].
    assert (Hsize' : (tree_size nxt' <= n)%nat) by lia.
    assert (Hq' : forall q, p = Some q -> (q < S b)%nat).
    { intros q Hp. specialize (Hq q Hp). lia. }
    assert (Hne : nxt' <> tree_null ->
              exists k, (k <= S (tree_size nxt'))%nat /\
                forall fuel,
                  cond_eval_loop E modreturn h (k + fuel) (Some (S b)) rcode
                    depth request =
                  match cond_eval_rec E modreturn nxt' rcode request with
                  | RETURNED r rq => Some (r, rq)
                  | CHAIN_LEFT r rq =>
                      cond_resume E modreturn h fuel (cond_leave h p r depth)
                        r rq
                  end).
    { intros Hne.
      destruct (IH nxt' Hsize' Hne (S b) p Hnxt' Hq' rcode depth request)
        as (k & Hk & Hrun).
      exists k. split; [lia | exact Hrun]. }
    destruct nxt' as [|l2 neg2 fx2 nxt2|neg2 fx2 sub2 nxt2].
    - exists 0%nat. split; [lia|]. intros fuel. simpl. now destruct fuel.
    - apply Hne. discriminate.
    - apply Hne. discriminate. }
  destruct nxt as [|l' neg' fx' nxt'|neg' fx' sub' nxt'].
  - exact Hleft.
  - destruct l'; cbn [cond_rec_after];
      try (apply Hwhole; discriminate).
    + destruct (rcode =? 0); [exact Hleft | eapply Hskip; reflexivity].
    + destruct (negb (rcode =? 0)); [exact Hleft | eapply Hskip; reflexivity].
  - apply Hwhole. discriminate.
Qed.

Lemma cond_eval_loop_S fuel c rcode depth request :
  cond_eval_loop E modreturn h (S fuel) (Some c) rcode depth request =
  match cond_eval_iter E modreturn h c rcode depth request with
  | None => None
  | Some (ITER_RETURN rcode request) => Some (rcode, request)
  | Some (ITER_NEXT c rcode depth request) =>
      cond_eval_loop E modreturn h fuel c rcode depth request
  end.
Proof. reflexivity. Qed.

Lemma cond_eval_loop_None fuel rcode depth request :
  cond_eval_loop E modreturn h fuel None rcode depth request
  = Some (rcode, request).
Proof. now destruct fuel. Qed.

(** A turn on a node that has a value which is not an error. *)
Lemma cond_eval_loop_value fuel a n rcode depth request v rq :
  h !! a = Some n ->
  cond_eval_switch E modreturn n request = SWITCH_VALUE (v, rq) ->
  (v <? 0) = false ->
  cond_eval_loop E modreturn h (S fuel) (Some a) rcode depth request =
  cond_resume E modreturn h fuel
    (cond_advance h (length h) a
       (if negate n then if v =? 0 then 1 else 0 else v) depth)
    (if negate n then if v =? 0 then 1 else 0 else v) rq.
Proof.
  intros Ha Hsw Hv. rewrite cond_eval_loop_S. unfold cond_eval_iter.
  rewrite Ha, Hsw. unfold cond_eval_after. rewrite Hv.
  now destruct (cond_advance h (length h) a _ depth) as [[|c' d]|].
Qed.

Lemma walk_chain :
  forall n t, (tree_size t <= n)%nat -> t <> tree_null ->
  forall a p, placed h t a p ->
  (forall q, p = Some q -> (q < a)%nat) -> walk_spec E modreturn h t a p.
Proof.
  induction n as [|n IH]; intros t Hsize Hne a p Ht Hq.
  - destruct t; simpl in Hsize; [congruence | lia | lia].
  - pose proof (after_spec_of_walk_spec n IH) as Hafter.
    destruct t as [|l neg fx nxt|neg fx sub nxt]; [congruence| |];
      simpl in Hsize.
    + pose proof Ht as Ht'. apply placed_leaf in Ht' as [Ha Hnxt].
      intros rcode depth request. cbn [cond_eval_rec].
      remember {| type := leaf_type l; negate := neg; pass2_fixup := fx;
                  parent := p; next := tree_ptr nxt (S a) |} as na eqn:Hna.
      assert (Hsw : cond_eval_switch E modreturn na request =
                    cond_eval_switch E modreturn (lone_node l neg fx) request).
      { apply cond_eval_switch_pointers; subst na; reflexivity. }
      assert (Hq' : forall q, p = Some q -> (q < S a)%nat).
      { intros q Hp. specialize (Hq q Hp). lia. }
      destruct (cond_eval_switch E modreturn (lone_node l neg fx) request)
        as [[v rq]|child|] eqn:Hlone.
      * destruct (v <? 0) eqn:Hv.
        -- exists 1%nat. split; [simpl; lia|]. intros fuel.
           change (1 + fuel)%nat with (S fuel).
           rewrite cond_eval_loop_S. unfold cond_eval_iter.
           rewrite Ha, Hsw. unfold cond_eval_after. now rewrite Hv.
        -- destruct (Hafter nxt ltac:(lia) (S a) p Hnxt Hq'
                       (if neg then if v =? 0 then 1 else 0 else v)
                       depth rq) as (k & Hk & Hrun).
           exists (S k). split; [simpl; lia|]. intros fuel.
           change (S k + fuel)%nat with (S (k + fuel)).
           rewrite (cond_eval_loop_value _ a na rcode depth request v rq
                      Ha Hsw Hv).
           replace (negate na) with neg by (subst na; reflexivity).
           rewrite (cond_advance_at a na nxt (S a) p _ depth Ha
                      ltac:(subst na; reflexivity)
                      ltac:(subst na; reflexivity) Hnxt Hq).
           apply Hrun.
      * exfalso. unfold cond_eval_switch in Hlone. simpl in Hlone.
        destruct l; discriminate.
      * exists 1%nat. split; [simpl; lia|]. intros fuel.
        change (1 + fuel)%nat with (S fuel).
        rewrite cond_eval_loop_S. unfold cond_eval_iter.
        now rewrite Ha, Hsw.
    + pose proof Ht as Ht'. apply placed_child in Ht' as (Ha & Hsub & Hnxt).
      intros rcode depth request. cbn [cond_eval_rec].
      assert (Hturn : forall fuel,
                cond_eval_loop E modreturn h (S fuel) (Some a) rcode depth
                  request =
                cond_eval_loop E modreturn h fuel (tree_ptr sub (S a)) rcode
                  (depth + 1) request).
      { intros fuel. rewrite cond_eval_loop_S. unfold cond_eval_iter.
        now rewrite Ha. }
      assert (Hq' : forall q, p = Some q ->
                (q < S a + tree_size sub)%nat).
      { intros q Hp. specialize (Hq q Hp). lia. }
      assert (Hsub_walk :
                sub <> tree_null ->
                walk_spec E modreturn h sub (S a) (Some a)).
      { intros Hs. apply (IH sub ltac:(lia) Hs (S a) (Some a) Hsub).
        intros q Hp. injection Hp as <-. lia. }
      destruct sub as [|l1 neg1 fx1 nxt1|neg1 fx1 sub1 nxt1] eqn:Hsubeq.
      1: { exists 1%nat. split; [simpl; lia|]. intros fuel.
           change (1 + fuel)%nat with (S fuel). rewrite Hturn.
           apply cond_eval_loop_None. }
      all: rewrite <- Hsubeq in *.
      all: destruct (Hsub_walk ltac:(subst sub; discriminate) rcode
                       (depth + 1) request) as (k1 & Hk1 & Hrun1).
      all: destruct (cond_eval_rec E modreturn sub rcode request)
             as [r rq|r rq] eqn:Hres.
      1,3: (exists (S k1); split; [simpl; lia|]; intros fuel;
            change (S k1 + fuel)%nat with (S (k1 + fuel));
            rewrite Hturn;
            replace (tree_ptr sub (S a)) with (Some (S a))
              by (subst sub; reflexivity);
            apply Hrun1).
      all: destruct (Hafter nxt ltac:(lia) (S a + tree_size sub)%nat p Hnxt
                       Hq' r depth rq) as (k2 & Hk2 & Hrun2).
      all: exists (S (k1 + k2)); split; [simpl; lia|]; intros fuel.
      all: change (S (k1 + k2) + fuel)%nat with (S (k1 + k2 + fuel)).
      all: rewrite Hturn.
      all: replace (tree_ptr sub (S a)) with (Some (S a))
             by (subst sub; reflexivity).
      all: replace (k1 + k2 + fuel)%nat with (k1 + (k2 + fuel))%nat by lia.
      all: rewrite Hrun1; unfold cond_leave at 1.
      all: replace (depth + 1 - 1) with depth by lia.
      all: rewrite (cond_advance_at a _ nxt (S a + tree_size sub) p r depth
                      Ha eq_refl eq_refl Hnxt Hq).
      all: apply Hrun2.
Qed.

End walk_is_recursion.

(** The walk of a tree returns what the recursive reading of the tree
    gives. *)
Lemma cond_eval_tree_rec (E : externs) (request : request_t)
    (modreturn : rlm_rcode_t) (t : cond_tree) :
  cond_eval_tree E request modreturn t =
  Some (outcome_value (cond_eval_rec E modreturn t (-1) request)).
Proof.
  unfold cond_eval_tree, cond_eval.
  destruct t as [|l neg fx nxt|neg fx sub nxt] eqn:Ht; [reflexivity| |];
    rewrite <- Ht;
    (destruct (walk_chain E modreturn t (tree_size t) t (le_n _)
                 ltac:(subst t; discriminate) 0%nat None (placed_self t)
                 ltac:(discriminate) (-1) 0 request) as (k & Hk & Hrun);
     replace (tree_ptr t 0) with (Some 0%nat) by (subst t; reflexivity);
     replace (tree_size t) with (k + (tree_size t - k))%nat by lia;
     rewrite Hrun;
     now destruct (cond_eval_rec E modreturn t (-1) request)).
Qed.

(** ** Short circuit *)

Section short_circuit.

Variable E : externs.
Variable modreturn : rlm_rcode_t.

(** Wherever a chain stands in a tree: when its first operand [A] alone
    ends with false, the chain [A && B] ends the same way; when [A] alone
    ends with another value, the chain [A || B] ends the same way. *)
Lemma cond_eval_rec_short_circuit (A : cond_item) (B : cond_tree)
    (rcode : Z) (request : request_t) :
  (fst (outcome_value
          (cond_eval_rec E modreturn (item_then A tree_null) rcode request))
     = 0 ->
   cond_eval_rec E modreturn (item_and A B) rcode request =
   cond_eval_rec E modreturn (item_then A tree_null) rcode request) /\
  (fst (outcome_value
          (cond_eval_rec E modreturn (item_then A tree_null) rcode request))
     <> 0 ->
   cond_eval_rec E modreturn (item_or A B) rcode request =
   cond_eval_rec E modreturn (item_then A tree_null) rcode request).
Proof.
  unfold item_and, item_or.
  destruct A as [l neg fx|neg fx sub]; cbn [item_then cond_eval_rec].
  - destruct (cond_eval_switch E modreturn (lone_node l neg fx) request)
      as [[v rq]|child|]; [|split; reflexivity|split; reflexivity].
    destruct (v <? 0); [split; reflexivity|].
    cbn [cond_rec_after outcome_value fst].
    split; intros Hv.
    + now rewrite Hv.
    + now destruct (Z.eqb_spec (if neg then if v =? 0 then 1 else 0 else v) 0).
  - destruct (cond_eval_rec E modreturn sub rcode request) as [r rq|r rq];
      [split; reflexivity|].
    cbn [cond_rec_after outcome_value fst].
    split; intros Hv.
    + now rewrite Hv.
    + now destruct (Z.eqb_spec r 0).
Qed.

(** C5: let the operand [A] be a node or a parenthesised subtree, and [B]
    any tree.  At the top of a condition, if the walk of [A] alone returns
    false then the walk of [A && B] returns false with the request as [A] left
    it: no function was called for [B]; and if the walk of [A] alone returns
    a value other than false, the walk of [A || B] returns that value with the
    request as [A] left it.  The same holds for a chain at any depth, read
    recursively: entered with any [rcode] and request, [A && B] ends as [A]
    alone when that is with false, and [A || B] ends as [A] alone when that
    is with another value. *)
Theorem short_circuit_skips_rest (A : cond_item) (B : cond_tree) :
  (forall request r request',
     cond_eval_tree E request modreturn (item_then A tree_null)
       = Some (r, request') ->
     (r = 0 ->
      cond_eval_tree E request modreturn (item_and A B) = Some (0, request'))
     /\
     (r <> 0 ->
      cond_eval_tree E request modreturn (item_or A B) = Some (r, request')))
  /\
  (forall rcode request,
     (fst (outcome_value
             (cond_eval_rec E modreturn (item_then A tree_null) rcode request))
        = 0 ->
      cond_eval_rec E modreturn (item_and A B) rcode request =
      cond_eval_rec E modreturn (item_then A tree_null) rcode request) /\
     (fst (outcome_value
             (cond_eval_rec E modreturn (item_then A tree_null) rcode request))
        <> 0 ->
      cond_eval_rec E modreturn (item_or A B) rcode request =
      cond_eval_rec E modreturn (item_then A tree_null) rcode request)).
Proof.
  split; [|intros rcode request; apply cond_eval_rec_short_circuit].
  intros request r request'. rewrite !cond_eval_tree_rec.
  intros Halone. injection Halone as Halone.
  destruct (cond_eval_rec_short_circuit A B (-1) request) as [Hand Hor].
  rewrite Halone in Hand, Hor. simpl in Hand, Hor.
  split; intros Hr.
  - rewrite (Hand Hr), Halone, Hr. reflexivity.
  - rewrite (Hor Hr), Halone. reflexivity.
Qed.

End short_circuit.

Lemma short_circuit_skips_rest_witness :
  cond_eval_tree Sample.E (Sample.request_of []) RLM_MODULE_OK
    (item_then item_false_in_parentheses tree_null)
  = Some (0, Sample.request_of []) /\
  cond_eval_tree Sample.E (Sample.request_of []) RLM_MODULE_OK
    (item_and item_false_in_parentheses tree_count)
  = Some (0, Sample.request_of []).
Proof.
  split; [reflexivity|].
  exact (proj1 (proj1 (short_circuit_skips_rest Sample.E RLM_MODULE_OK
                         item_false_in_parentheses tree_count)
                  (Sample.request_of []) 0 (Sample.request_of []) eq_refl)
           eq_refl).
Defined.

(** * Further properties of the code *)

(** ** [all_digits] *)

Lemma skip_digits_cstr (p : string) :
  at_nul (skip_digits p) = digits_only (Escape.cstr p).
Proof.
  induction p as [|ch p IH]; [reflexivity|]. cbn [skip_digits Escape.cstr].
  destruct (isdigit ch) eqn:Hd.
  - rewrite bool_decide_eq_false_2 by (intros ->; discriminate Hd).
    cbn [digits_only]. now rewrite Hd.
  - cbn [at_nul]. case_bool_decide; [reflexivity|].
    cbn [digits_only]. now rewrite Hd.
Qed.

Lemma all_digits_minus (ch : ascii) (s' : string) :
  match String ch s' with
  | String "-"%char p' => p'
  | _ => String ch s'
  end = if bool_decide (ch = "-"%char) then s' else String ch s'.
Proof.
  destruct ch as [[] [] [] [] [] [] [] []]; reflexivity.
Qed.

(** X1: [all_digits] accepts exactly the C strings that are not empty and
    consist of decimal digits, or of a minus sign followed by decimal digits
    - or by nothing: the lone ["-"] is accepted.  Bytes after the first NUL
    are not looked at. *)
Theorem all_digits_spec (s : string) :
  all_digits s = true <->
  Escape.cstr s <> "" /\
  (digits_only (Escape.cstr s) = true \/
   exists body,
     Escape.cstr s = String "-" body /\ digits_only body = true).
Proof.
  unfold all_digits. destruct s as [|ch s']; [cbn; split; [discriminate|tauto]|].
  cbn [at_nul Escape.cstr]. case_bool_decide as Hnul.
  - split; [discriminate | intros [H _]; congruence].
  - rewrite all_digits_minus. case_bool_decide as Hminus.
    + subst ch. rewrite skip_digits_cstr. split.
      * intros H. split; [discriminate|]. right. eauto.
      * intros [_ [H | (body & Hb & H)]]; [discriminate H|].
        now injection Hb as ->.
    + rewrite skip_digits_cstr. cbn [Escape.cstr].
      rewrite (bool_decide_eq_false_2 _ Hnul). split.
      * intros H. split; [discriminate | now left].
      * intros [_ [H | (body & Hb & H)]]; [exact H | congruence].
Qed.

(** ** [regex_escape] *)

Lemma regex_escape_out_fits (_in : string) :
  forall outlen,
    (1 <= outlen)%nat ->
    (S (String.length (Escape.regex_escape_out outlen _in)) <= outlen)%nat.
Proof.
  induction _in as [|ch in' IH]; intros outlen Hlen; cbn [Escape.regex_escape_out].
  - simpl. lia.
  - case_bool_decide; [simpl; lia|].
    destruct (Nat.ltb_spec outlen 2); [simpl; lia|].
    destruct (Escape.special ch).
    + destruct (Nat.ltb_spec outlen 3); [simpl; lia|].
      cbn [String.length]. specialize (IH (outlen - 2)%nat). lia.
    + cbn [String.length]. specialize (IH (outlen - 1)%nat). lia.
Qed.

(** X2: with a buffer of at least one byte, [regex_escape] stays inside the
    buffer: the number of bytes it reports, closing NUL included, is at most
    [outlen].  With [outlen = 0] it stores the closing NUL all the same and
    reports 1. *)
Theorem regex_escape_stays_in_buffer (outlen : nat) (_in : string) :
  ((1 <= outlen)%nat -> (fst (Escape.regex_escape outlen _in) <= outlen)%nat)
  /\ (outlen = 0%nat -> Escape.regex_escape outlen _in = (1%nat, "")).
Proof.
  split.
  - intros H. now apply regex_escape_out_fits.
  - intros ->. unfold Escape.regex_escape.
    destruct _in as [|ch in']; [reflexivity|]. cbn [Escape.regex_escape_out].
    now case_bool_decide.
Qed.

Lemma regex_escape_stays_in_buffer_witness :
  (1 <= 4)%nat /\ (fst (Escape.regex_escape 4 "a.b.c") <= 4)%nat.
Proof.
  split; [lia|].
  apply (proj1 (regex_escape_stays_in_buffer 4 "a.b.c")). lia.
Defined.

Lemma unescape_escape_all (s : string) :
  Escape.unescape (Escape.escape_all s) = s.
Proof.
  induction s as [|ch s IH]; [reflexivity|]. cbn [Escape.escape_all].
  destruct (Escape.special ch) eqn:Hsp.
  - cbn [Escape.unescape]. now rewrite IH.
  - assert (Hne : ch <> "\"%char) by (intros ->; discriminate Hsp).
    transitivity (String ch (Escape.unescape (Escape.escape_all s)));
      [|now rewrite IH].
    destruct ch as [[] [] [] [] [] [] [] []]; try reflexivity.
    congruence.
Qed.

(** The output is the escaped form of a prefix of the input. *)
Lemma regex_escape_out_prefix (_in : string) :
  forall outlen,
  exists kept,
    Escape.regex_escape_out outlen _in = Escape.escape_all kept /\
    String.prefix kept (Escape.cstr _in) = true /\
    ((2 * String.length (Escape.cstr _in) + 1 <= outlen)%nat ->
     kept = Escape.cstr _in).
Proof.
  induction _in as [|ch in' IH]; intros outlen;
    cbn [Escape.regex_escape_out Escape.cstr].
  - exists "". repeat split.
  - case_bool_decide as Hnul; [exists ""; repeat split|].
    destruct (Nat.ltb_spec outlen 2) as [Hlt|Hge].
    { exists "". split; [reflexivity|]. split; [reflexivity|].
      cbn [String.length]. lia. }
    destruct (Escape.special ch) eqn:Hsp.
    + destruct (Nat.ltb_spec outlen 3) as [Hlt3|Hge3].
      { exists "". split; [reflexivity|]. split; [reflexivity|].
        cbn [String.length]. lia. }
      destruct (IH (outlen - 2)%nat) as (kept & Hout & Hpre & Hall).
      exists (String ch kept). split; [|split].
      * cbn [Escape.escape_all]. now rewrite Hsp, Hout.
      * cbn [String.prefix]. destruct (ascii_dec ch ch); [exact Hpre|congruence].
      * cbn [String.length]. intros Hroom. f_equal. apply Hall. lia.
    + destruct (IH (outlen - 1)%nat) as (kept & Hout & Hpre & Hall).
      exists (String ch kept). split; [|split].
      * cbn [Escape.escape_all]. now rewrite Hsp, Hout.
      * cbn [String.prefix]. destruct (ascii_dec ch ch); [exact Hpre|congruence].
      * cbn [String.length]. intros Hroom. f_equal. apply Hall. lia.
Qed.

(** X3: what [regex_escape] leaves in the buffer is the escaped form of a
    prefix of the input: taking the backslashes off again gives a prefix of
    the input text, every special character of it preceded by its backslash
    (a full buffer never ends on a lone backslash); and when the buffer has
    two bytes for every input byte and one for the NUL, it gives the input
    text back. *)
Theorem regex_escape_round_trip (outlen : nat) (_in : string) :
  let out := snd (Escape.regex_escape outlen _in) in
  String.prefix (Escape.unescape out) (Escape.cstr _in) = true /\
  out = Escape.escape_all (Escape.unescape out) /\
  ((2 * String.length (Escape.cstr _in) + 1 <= outlen)%nat ->
   Escape.unescape out = Escape.cstr _in).
Proof.
  cbn [Escape.regex_escape snd].
  destruct (regex_escape_out_prefix _in outlen) as (kept & -> & Hpre & Hall).
  rewrite unescape_escape_all. auto.
Qed.

Lemma regex_escape_round_trip_witness :
  (2 * String.length (Escape.cstr "a.b(c") + 1 <= 11)%nat /\
  Escape.unescape (snd (Escape.regex_escape 11 "a.b(c")) = "a.b(c".
Proof.
  split; [vm_compute; lia|].
  apply (proj2 (proj2 (regex_escape_round_trip 11 "a.b(c"))).
  vm_compute. lia.
Defined.

(** ** The walk as a recursive evaluation *)

Section walk_properties.

Variable E : externs.
Variable modreturn : rlm_rcode_t.

Lemma cond_eval_tree_from_rec (request : request_t) (rcode : Z)
    (t : cond_tree) :
  cond_eval_tree_from E request modreturn rcode t =
  Some (outcome_value (cond_eval_rec E modreturn t rcode request)).
Proof.
  unfold cond_eval_tree_from.
  destruct t as [|l neg fx nxt|neg fx sub nxt] eqn:Ht; [reflexivity| |];
    rewrite <- Ht;
    (destruct (walk_chain E modreturn t (tree_size t) t (le_n _)
                 ltac:(subst t; discriminate) 0%nat None (placed_self t)
                 ltac:(discriminate) rcode 0 request) as (k & Hk & Hrun);
     replace (tree_ptr t 0) with (Some 0%nat) by (subst t; reflexivity);
     replace (tree_size t) with (k + (tree_size t - k))%nat by lia;
     rewrite Hrun;
     now destruct (cond_eval_rec E modreturn t rcode request)).
Qed.

(** X4: the loop of [cond_eval], which follows [next], [parent] and [child]
    pointers, returns for every tree, and whatever value [rcode] holds when
    the loop is entered, what the evaluation by recursion on the tree returns:
    operands from left to right, [&&] and [||] leaving the chain on false and
    on true, a parenthesised subtree evaluated as a chain of its own, and an
    error ending everything.  [cond_eval] is that loop entered with -1. *)
Theorem walk_computes_recursive_evaluation (request : request_t) (rcode : Z)
    (t : cond_tree) :
  cond_eval_tree_from E request modreturn rcode t =
  Some (outcome_value (cond_eval_rec E modreturn t rcode request)) /\
  cond_eval_tree E request modreturn t =
  cond_eval_tree_from E request modreturn (-1) t.
Proof. split; [apply cond_eval_tree_from_rec | reflexivity]. Qed.

(** Induction on the number of nodes. *)
Lemma cond_tree_size_ind (P : cond_tree -> Prop) :
  (forall t, (forall t', (tree_size t' < tree_size t)%nat -> P t') -> P t) ->
  forall t, P t.
Proof.
  intros Hstep t.
  assert (H : forall n t, (tree_size t < n)%nat -> P t).
  { induction n as [|n IH]; intros t' Hlt; [lia|].
    apply Hstep. intros t'' Hlt'. apply IH. lia. }
  apply (H (S (tree_size t))). lia.
Qed.

(** A chain is never left with a negative value. *)
Lemma cond_rec_after_left (rec : cond_tree -> Z -> request_t -> cond_outcome)
    (nxt : cond_tree) (rcode : Z) (request : request_t) :
  0 <= rcode ->
  (forall t r rq r' rq',
     (tree_size t <= tree_size nxt)%nat ->
     rec t r rq = CHAIN_LEFT r' rq' -> 0 <= r') ->
  forall r' rq',
    cond_rec_after rec nxt rcode request = CHAIN_LEFT r' rq' -> 0 <= r'.
Proof.
  intros Hr Hrec r' rq'. unfold cond_rec_after.
  destruct nxt as [|l neg fx nxt'|neg fx sub nxt'].
  - intros H. injection H as <- _. exact Hr.
  - destruct l; try (apply Hrec; simpl; lia).
    + destruct (rcode =? 0).
      * intros H. injection H as <- _. exact Hr.
      * apply Hrec. simpl. lia.
    + destruct (negb (rcode =? 0)).
      * intros H. injection H as <- _. exact Hr.
      * apply Hrec. simpl. lia.
  - apply Hrec. simpl. lia.
Qed.

Lemma cond_eval_rec_left (t : cond_tree) :
  forall rcode request r rq,
    cond_eval_rec E modreturn t rcode request = CHAIN_LEFT r rq -> 0 <= r.
Proof.
  induction t as [t IH] using cond_tree_size_ind.
  intros rcode request r rq.
  destruct t as [|l neg fx nxt|neg fx sub nxt]; cbn [cond_eval_rec].
  - discriminate.
  - destruct (cond_eval_switch E modreturn (lone_node l neg fx) request)
      as [[v rq0]| |]; try discriminate.
    destruct (Z.ltb_spec v 0); [discriminate|].
    apply cond_rec_after_left.
    + destruct neg; [destruct (v =? 0)|]; lia.
    + intros t r0 rq1 r' rq' Hsize. apply IH. simpl. lia.
  - destruct (cond_eval_rec E modreturn sub rcode request) as [r0 rq0|r0 rq0]
      eqn:Hsub; [discriminate|].
    apply cond_rec_after_left.
    + apply (IH sub ltac:(simpl; lia) _ _ _ _ Hsub).
    + intros t r1 rq1 r' rq' Hsize. apply IH. simpl. lia.
Qed.

(** The recursive reading of an operand alone. *)
Lemma cond_eval_rec_item_error (A : cond_item) (nxt : cond_tree)
    (rcode : Z) (request : request_t) :
  fst (outcome_value
         (cond_eval_rec E modreturn (item_then A tree_null) rcode request))
    < 0 ->
  outcome_value (cond_eval_rec E modreturn (item_then A nxt) rcode request) =
  outcome_value
    (cond_eval_rec E modreturn (item_then A tree_null) rcode request).
Proof.
  destruct A as [l neg fx|neg fx sub]; cbn [item_then cond_eval_rec].
  - destruct (cond_eval_switch E modreturn (lone_node l neg fx) request)
      as [[v rq]| |]; try reflexivity.
    destruct (Z.ltb_spec v 0); [reflexivity|].
    cbn [cond_rec_after outcome_value fst].
    destruct neg; [destruct (v =? 0)|]; lia.
  - destruct (cond_eval_rec E modreturn sub rcode request) as [r rq|r rq]
      eqn:Hsub; [reflexivity|].
    cbn [cond_rec_after outcome_value fst].
    pose proof (cond_eval_rec_left sub _ _ _ _ Hsub). lia.
Qed.

(** X5: an error ends the walk.  When the walk of an operand alone - a node
    or a parenthesised subtree - returns a negative value, the walk of any
    chain that starts with that operand returns the same value with the same
    request: what follows is not evaluated.  For a node, the [negate] flag
    makes no difference to it. *)
Theorem error_ends_walk (A : cond_item) (nxt : cond_tree)
    (request : request_t) (v : Z) (request' : request_t) :
  cond_eval_tree E request modreturn (item_then A tree_null)
    = Some (v, request') ->
  v < 0 ->
  cond_eval_tree E request modreturn (item_then A nxt) = Some (v, request')
  /\
  (forall l neg fixup neg',
     A = item_leaf l neg fixup ->
     cond_eval_tree E request modreturn (tree_leaf l neg' fixup nxt)
       = Some (v, request')).
Proof.
  rewrite !cond_eval_tree_rec. intros Halone Hv.
  injection Halone as Halone.
  assert (Hthen : outcome_value
            (cond_eval_rec E modreturn (item_then A nxt) (-1) request)
            = (v, request')).
  { rewrite cond_eval_rec_item_error; [exact Halone|]. now rewrite Halone. }
  split; [now rewrite Hthen|].
  intros l neg fixup neg' ->. rewrite cond_eval_tree_rec.
  f_equal. rewrite <- Hthen. cbn [item_then cond_eval_rec].
  rewrite (cond_eval_switch_pointers E modreturn (lone_node l neg' fixup)
             (lone_node l neg fixup) request eq_refl eq_refl).
  cbn [item_then cond_eval_rec] in Halone.
  destruct (cond_eval_switch E modreturn (lone_node l neg fixup) request)
    as [[v0 rq0]| |]; try reflexivity.
  destruct (Z.ltb_spec v0 0); [reflexivity|].
  cbn [cond_rec_after outcome_value] in Halone. injection Halone as Hv0 _.
  destruct neg; [destruct (v0 =? 0)|]; lia.
Qed.

(** X6: negation.  When the walk of a node alone, not negated, returns a
    value that is not an error, the walk of the same node negated returns 1
    if that value is 0 and 0 otherwise, with the same request. *)
Theorem negate_flips_value (l : cond_leaf_t) (fixup : pass2_fixup_t)
    (request : request_t) (r : Z) (request' : request_t) :
  cond_eval_tree E request modreturn (tree_leaf l false fixup tree_null)
    = Some (r, request') ->
  0 <= r ->
  cond_eval_tree E request modreturn (tree_leaf l true fixup tree_null)
    = Some (if r =? 0 then 1 else 0, request').
Proof.
  rewrite !cond_eval_tree_rec. cbn [cond_eval_rec].
  rewrite (cond_eval_switch_pointers E modreturn (lone_node l true fixup)
             (lone_node l false fixup) request eq_refl eq_refl).
  destruct (cond_eval_switch E modreturn (lone_node l false fixup) request)
    as [[v rq]| |].
  - destruct (Z.ltb_spec v 0) as [Hlt|Hge].
    + intros Hv Hr. injection Hv as <- _. lia.
    + cbn [cond_rec_after outcome_value]. intros Hv _.
      now injection Hv as <- <-.
  - intros Hv Hr. injection Hv as <- _. lia.
  - intros Hv Hr. injection Hv as <- _. lia.
Qed.

Lemma set_child_negate_size (b : bool) (t : cond_tree) :
  tree_size (set_child_negate b t) = tree_size t.
Proof.
  induction t as [|l neg fx nxt IH|neg fx sub IHs nxt IHn]; simpl; lia.
Qed.

Lemma cond_eval_rec_child_negate (b : bool) (t : cond_tree) :
  forall rcode request,
    cond_eval_rec E modreturn (set_child_negate b t) rcode request =
    cond_eval_rec E modreturn t rcode request.
Proof.
  induction t as [t IH] using cond_tree_size_ind.
  assert (Hafter : forall nxt,
            (tree_size nxt < tree_size t)%nat ->
            forall r rq,
              cond_rec_after (cond_eval_rec E modreturn)
                (set_child_negate b nxt) r rq =
              cond_rec_after (cond_eval_rec E modreturn) nxt r rq).
  { intros nxt Hlt r rq.
    destruct nxt as [|l neg fx nxt'|neg fx sub nxt']; [reflexivity| |].
    - pose proof (IH (tree_leaf l neg fx nxt') Hlt r rq) as Hwhole.
      pose proof (IH nxt' ltac:(simpl in Hlt; lia) r rq) as Hrest.
      cbn [set_child_negate] in *.
      destruct l; cbn [cond_rec_after]; try exact Hwhole; now rewrite Hrest.
    - exact (IH (tree_child neg fx sub nxt') Hlt r rq). }
  intros rcode request.
  destruct t as [|l neg fx nxt|neg fx sub nxt];
    cbn [set_child_negate cond_eval_rec]; [reflexivity| |].
  - destruct (cond_eval_switch E modreturn (lone_node l neg fx) request)
      as [[v rq]| |]; try reflexivity.
    destruct (v <? 0); [reflexivity|]. apply Hafter. simpl. lia.
  - rewrite (IH sub ltac:(simpl; lia)).
    destruct (cond_eval_rec E modreturn sub rcode request) as [r rq|r rq];
      [reflexivity|].
    apply Hafter. simpl. lia.
Qed.

(** X7: the [negate] flag of a [COND_TYPE_CHILD] node is never read: setting
    it, or clearing it, on every such node of a tree changes nothing in what
    the walk returns.  A negated parenthesised subtree evaluates like the
    subtree. *)
Theorem child_negate_is_ignored (b : bool) (request : request_t)
    (t : cond_tree) :
  cond_eval_tree E request modreturn (set_child_negate b t) =
  cond_eval_tree E request modreturn t.
Proof.
  rewrite !cond_eval_tree_rec.
  now rewrite cond_eval_rec_child_negate.
Qed.

(** X8: a condition that starts with nothing to evaluate is an error: the
    [NULL] condition, a chain whose first node is [&&], [||] or of an invalid
    type, and a chain whose first node is an empty pair of parentheses all
    return -1 with the request untouched, whatever follows. *)
Theorem empty_start_is_error (request : request_t) :
  cond_eval_tree E request modreturn tree_null = Some (-1, request) /\
  (forall l neg fixup nxt,
     l = LEAF_INVALID \/ l = LEAF_AND \/ l = LEAF_OR ->
     cond_eval_tree E request modreturn (tree_leaf l neg fixup nxt)
       = Some (-1, request)) /\
  (forall neg fixup nxt,
     cond_eval_tree E request modreturn (tree_child neg fixup tree_null nxt)
       = Some (-1, request)).
Proof.
  split; [reflexivity|]. split.
  - intros l neg fixup nxt Hl. rewrite cond_eval_tree_rec.
    destruct Hl as [-> | [-> | ->]]; reflexivity.
  - intros neg fixup nxt. now rewrite cond_eval_tree_rec.
Qed.

Lemma cond_eval_rec_snoc (m : cond_leaf_t) (t : cond_tree) :
  m = LEAF_AND \/ m = LEAF_OR ->
  ends_on_operand t = true ->
  forall rcode request,
    outcome_value (cond_eval_rec E modreturn (chain_snoc t m) rcode request) =
    outcome_value (cond_eval_rec E modreturn t rcode request).
Proof.
  intros Hm. induction t as [t IH] using cond_tree_size_ind.
  assert (Hafter : forall nxt,
            (tree_size nxt < tree_size t)%nat ->
            nxt = tree_null \/ ends_on_operand nxt = true ->
            forall v rq,
              outcome_value
                (cond_rec_after (cond_eval_rec E modreturn)
                   (chain_snoc nxt m) v rq) =
              outcome_value
                (cond_rec_after (cond_eval_rec E modreturn) nxt v rq)).
  { intros nxt Hlt Hends v rq.
    destruct nxt as [|l neg fx nxt'|neg fx sub nxt'].
    - cbn [chain_snoc cond_rec_after].
      destruct Hm as [-> | ->]; [destruct (v =? 0) | destruct (negb _)];
        reflexivity.
    - destruct Hends as [Hends|Hends]; [discriminate|].
      assert (Hrest : l = LEAF_AND \/ l = LEAF_OR ->
                      ends_on_operand nxt' = true).
      { intros Hl. cbn [ends_on_operand] in Hends.
        destruct nxt'; [destruct Hl as [-> | ->]; discriminate| |];
          exact Hends. }
      pose proof (IH (tree_leaf l neg fx nxt') Hlt Hends v rq) as Hwhole.
      cbn [chain_snoc] in *.
      destruct l; cbn [cond_rec_after]; try exact Hwhole.
      + destruct (v =? 0); [reflexivity|].
        apply IH; [simpl in Hlt; lia | apply Hrest; now left].
      + destruct (negb (v =? 0)); [reflexivity|].
        apply IH; [simpl in Hlt; lia | apply Hrest; now right].
    - destruct Hends as [Hends|Hends]; [discriminate|].
      exact (IH (tree_child neg fx sub nxt') Hlt Hends v rq). }
  intros Hends rcode request.
  assert (Hnxt : forall nxt,
            match t with
            | tree_leaf _ _ _ n | tree_child _ _ _ n => n = nxt
            | tree_null => False
            end ->
            nxt = tree_null \/ ends_on_operand nxt = true).
  { intros nxt Hn.
    destruct t as [|l neg fx n|neg fx sub n]; [contradiction| |];
      subst n; cbn [ends_on_operand] in Hends;
      (destruct nxt; [now left | right; exact Hends | right; exact Hends]). }
  destruct t as [|l neg fx nxt|neg fx sub nxt];
    cbn [chain_snoc cond_eval_rec]; [discriminate| |].
  - destruct (cond_eval_switch E modreturn (lone_node l neg fx) request)
      as [[v rq]| |]; try reflexivity.
    destruct (v <? 0); [reflexivity|].
    apply Hafter; [simpl; lia | now apply Hnxt].
  - destruct (cond_eval_rec E modreturn sub rcode request) as [r rq|r rq];
      [reflexivity|].
    apply Hafter; [simpl; lia | now apply Hnxt].
Qed.

(** An operand followed by a marker that is passed and by nothing else. *)
Lemma cond_eval_rec_marker_passed (A : cond_item) (rcode : Z)
    (request : request_t) :
  let alone :=
    outcome_value
      (cond_eval_rec E modreturn (item_then A tree_null) rcode request) in
  (fst alone <> 0 ->
   cond_eval_rec E modreturn (item_and A tree_null) rcode request =
   RETURNED (fst alone) (snd alone)) /\
  (fst alone = 0 ->
   cond_eval_rec E modreturn (item_or A tree_null) rcode request =
   RETURNED (fst alone) (snd alone)).
Proof.
  unfold item_and, item_or.
  destruct A as [l neg fx|neg fx sub]; cbn [item_then cond_eval_rec].
  - destruct (cond_eval_switch E modreturn (lone_node l neg fx) request)
      as [[v rq]| |]; try (split; [reflexivity | discriminate]).
    destruct (Z.ltb_spec v 0) as [Hv|Hv]; cbn [outcome_value fst snd].
    + split; [reflexivity | lia].
    + cbn [cond_rec_after cond_eval_rec outcome_value fst snd].
      set (w := if neg then if v =? 0 then 1 else 0 else v).
      split; intros Hr.
      * now destruct (Z.eqb_spec w 0).
      * now rewrite Hr.
  - destruct (cond_eval_rec E modreturn sub rcode request) as [r rq|r rq];
      cbn [outcome_value fst snd cond_rec_after cond_eval_rec].
    + split; reflexivity.
    + split; intros Hr.
      * now destruct (Z.eqb_spec r 0).
      * now rewrite Hr.
Qed.

(** X9: a marker [&&] or [||] with nothing behind it.  When the loop passes
    such a marker - [&&] after a value that is not 0, [||] after 0 - there is
    no node left and [cond_eval] returns the value at once.  At the top level
    this makes no difference: a chain whose last node is an operand returns
    the same with such a marker put behind it.  Inside parentheses it does:
    the value is returned without going back to the chain around the
    parentheses, so that whatever follows them is not evaluated. *)
Theorem trailing_marker_returns_at_once :
  (forall m t request,
     m = LEAF_AND \/ m = LEAF_OR ->
     ends_on_operand t = true ->
     cond_eval_tree E request modreturn (chain_snoc t m) =
     cond_eval_tree E request modreturn t) /\
  (forall A request r request' neg fixup nxt,
     cond_eval_tree E request modreturn (item_then A tree_null)
       = Some (r, request') ->
     (r <> 0 ->
      cond_eval_tree E request modreturn
        (tree_child neg fixup (item_and A tree_null) nxt)
        = Some (r, request')) /\
     (r = 0 ->
      cond_eval_tree E request modreturn
        (tree_child neg fixup (item_or A tree_null) nxt)
        = Some (r, request'))).
Proof.
  split.
  - intros m t request Hm Hends. rewrite !cond_eval_tree_rec.
    now rewrite (cond_eval_rec_snoc m t Hm Hends).
  - intros A request r request' neg fixup nxt. rewrite !cond_eval_tree_rec.
    intros Halone. injection Halone as Halone.
    destruct (cond_eval_rec_marker_passed A (-1) request) as [Hand Hor].
    cbv zeta in Hand, Hor. rewrite Halone in Hand, Hor.
    cbn [fst snd] in Hand, Hor. cbn [cond_eval_rec].
    split; intros Hr.
    + now rewrite (Hand Hr).
    + now rewrite (Hor Hr).
Qed.

(** X10: the other half of the short circuit.  Let the walk of a node [A]
    alone return [r] with request [request'].  If [r] is true (positive), the
    walk of [A && B] is the walk of [B] entered with [r] and [request']; if
    [r] is false, so is the walk of [A || B].  When [B] starts with a node,
    that is the walk of [B] on [request']. *)
Theorem connective_continues_with_rest (l : cond_leaf_t) (neg : bool)
    (fixup : pass2_fixup_t) (B : cond_tree) (request : request_t) (r : Z)
    (request' : request_t) :
  cond_eval_tree E request modreturn (tree_leaf l neg fixup tree_null)
    = Some (r, request') ->
  (0 < r ->
   cond_eval_tree E request modreturn (item_and (item_leaf l neg fixup) B) =
   cond_eval_tree_from E request' modreturn r B) /\
  (r = 0 ->
   cond_eval_tree E request modreturn (item_or (item_leaf l neg fixup) B) =
   cond_eval_tree_from E request' modreturn r B) /\
  (forall l' neg' fixup' nxt',
     B = tree_leaf l' neg' fixup' nxt' ->
     cond_eval_tree_from E request' modreturn r B =
     cond_eval_tree E request' modreturn B).
Proof.
  rewrite !cond_eval_tree_rec, !cond_eval_tree_from_rec.
  unfold item_and, item_or. cbn [item_then cond_eval_rec].
  intros Halone. split; [|split].
  - intros Hr. f_equal.
    destruct (cond_eval_switch E modreturn (lone_node l neg fixup) request)
      as [[v rq]| |]; try (injection Halone as <- _; lia).
    destruct (Z.ltb_spec v 0); [injection Halone as <- _; lia|].
    cbn [cond_rec_after outcome_value] in *. injection Halone as Hv <-.
    rewrite Hv. destruct (Z.eqb_spec r 0); [lia | reflexivity].
  - intros Hr. f_equal.
    destruct (cond_eval_switch E modreturn (lone_node l neg fixup) request)
      as [[v rq]| |]; try (injection Halone as <- _; lia).
    destruct (Z.ltb_spec v 0); [injection Halone as <- _; lia|].
    cbn [cond_rec_after outcome_value] in *. injection Halone as Hv <-.
    rewrite Hv. destruct (Z.eqb_spec r 0); [reflexivity | lia].
  - now intros l' neg' fixup' nxt' ->.
Qed.

End walk_properties.

(** ** Operands made into values: [cond_realize_tmpl] *)

Section realize.

Variable E : externs.

Lemma int_of_ssize_t_fits (n : Z) :
  - 2 ^ 31 <= n < 2 ^ 31 -> int_of_ssize_t n = n.
Proof.
  intros Hn. unfold int_of_ssize_t.
  change (2 ^ 31) with 2147483648 in *. change (2 ^ 32) with 4294967296.
  rewrite Z.mod_small; lia.
Qed.

Lemma cond_realize_expand_cases (request : request_t) (_in other : tmpl_t)
    (escape : option xlat_escape_legacy_t) (len : Z) (box : fr_value_box_t)
    (request1 : request_t) :
  tmpl_aexpand_box E request _in escape = (len, box, request1) ->
  (len < 0 /\
   cond_realize_expand E request _in other escape
     = (int_of_ssize_t len, None, request1)) \/
  (0 <= len /\
   (cond_realize_expand E request _in other escape = (-1, None, request1) \/
    exists b,
      cond_realize_expand E request _in other escape
        = (0, Some b, request1))).
Proof.
  intros Hexp. unfold cond_realize_expand. rewrite Hexp.
  destruct (Z.ltb_spec len 0); [left; now split|]. right. split; [lia|].
  destruct (cond_realize_cast_type _in other) as [ct da].
  destruct (negb (bool_decide (ct = vb_type box)));
    [destruct (fr_value_box_cast_in_place E ct da box) as [b|]|]; eauto.
Qed.

(** X11: what [cond_realize_tmpl] hands back.  A value comes only with the
    return 0, and a negative return comes without value.  For a template
    that is no expansion the return is 0 or -1, the request is left alone,
    and on return 0 there is no value exactly for an attribute reference, a
    list and a compiled pattern, which are left to the caller.  For an
    expansion the request is the one the expansion leaves; a negative length
    is returned through [int], without value; a length that is not negative
    gives 0 with a value or, when the cast fails, -1 without.  The return of
    an expansion is therefore at most 0, and 0 only with a value, when a
    negative length fits into an [int]; a length below that range can come
    back as 0 or as a positive number, with no value. *)
Theorem realize_gives_value_or_defers (request : request_t)
    (_in other : tmpl_t) (ret : Z) (out : option fr_value_box_t)
    (request' : request_t) :
  cond_realize_tmpl E request _in other = (ret, out, request') ->
  (out <> None -> ret = 0) /\
  (ret < 0 -> out = None) /\
  (tmpl_type _in <> TMPL_TYPE_XLAT -> tmpl_type _in <> TMPL_TYPE_EXEC ->
   tmpl_type _in <> TMPL_TYPE_REGEX_XLAT ->
   (ret = 0 \/ ret = -1) /\ request' = request /\
   (ret = 0 ->
    (out = None <->
     tmpl_type _in = TMPL_TYPE_ATTR \/ tmpl_type _in = TMPL_TYPE_LIST \/
     tmpl_type _in = TMPL_TYPE_REGEX))) /\
  (tmpl_type _in = TMPL_TYPE_XLAT \/ tmpl_type _in = TMPL_TYPE_EXEC \/
   tmpl_type _in = TMPL_TYPE_REGEX_XLAT ->
   forall len box request1,
     tmpl_aexpand_box E request _in
       (if tmpl_is_regex_xlat _in then Some regex_escape else None)
     = (len, box, request1) ->
     request' = request1 /\
     (len < 0 -> ret = int_of_ssize_t len /\ out = None) /\
     (0 <= len -> (ret = 0 /\ out <> None) \/ (ret = -1 /\ out = None)) /\
     (- 2 ^ 31 <= len -> ret <= 0 /\ (ret = 0 -> out <> None))).
Proof.
  intros Hreal.
  assert (Hexp : forall escape len box request1,
             cond_realize_expand E request _in other escape
               = (ret, out, request') ->
             tmpl_aexpand_box E request _in escape = (len, box, request1) ->
             (out <> None -> ret = 0) /\
             (ret < 0 -> out = None) /\
             request' = request1 /\
             (len < 0 -> ret = int_of_ssize_t len /\ out = None) /\
             (0 <= len ->
              (ret = 0 /\ out <> None) \/ (ret = -1 /\ out = None)) /\
             (- 2 ^ 31 <= len -> ret <= 0 /\ (ret = 0 -> out <> None))).
  { intros escape len box request1 Hr Hbox.
    destruct (cond_realize_expand_cases request _in other escape len box
                request1 Hbox) as [[Hlen Hc] | [Hlen [Hc | [b Hc]]]];
      rewrite Hc in Hr; injection Hr as <- <- <-.
    - repeat split; try congruence; try lia.
      + rewrite int_of_ssize_t_fits; lia.
      + rewrite int_of_ssize_t_fits; lia.
    - repeat split; try congruence; try lia. right. now split.
    - repeat split; try congruence; try lia. left. now split. }
  unfold cond_realize_tmpl, tmpl_is_regex_xlat in *.
  destruct (tmpl_type _in) eqn:Hty;
    try (injection Hreal as <- <- <-;
         repeat split; try congruence; try lia; try tauto;
         try (intros [|[|]]; discriminate);
         intuition (discriminate || congruence)).
  all: destruct (tmpl_aexpand_box E request _in _) as [[len box] request1]
         eqn:Hbox;
    destruct (Hexp _ len box request1 Hreal Hbox)
      as (H1 & H2 & H3 & H4 & H5 & H6);
    (split; [exact H1|]); (split; [exact H2|]);
    (split; [congruence|]);
    intros _ len' box' request1' Heq;
    injection Heq as <- <- <-; auto.
Qed.

(** X12: an expansion is realised to the type of the comparison.  When
    [cond_realize_tmpl] makes a value out of an expansion, and the cast in
    place keeps its contract, the value has the type picked in this order:
    the cast of the operand itself, the cast of the other operand, the
    declared type of the attribute the other operand refers to, the type of
    the literal the other operand is, and [string]. *)
Theorem realized_expansion_has_cast_type (request : request_t)
    (_in other : tmpl_t) (ret : Z) (b : fr_value_box_t)
    (request' : request_t) :
  cast_in_place_contract E ->
  tmpl_type _in = TMPL_TYPE_XLAT \/ tmpl_type _in = TMPL_TYPE_EXEC \/
  tmpl_type _in = TMPL_TYPE_REGEX_XLAT ->
  cond_realize_tmpl E request _in other = (ret, Some b, request') ->
  (cast _in <> FR_TYPE_INVALID -> vb_type b = cast _in) /\
  (cast _in = FR_TYPE_INVALID ->
   (cast other <> FR_TYPE_INVALID -> vb_type b = cast other) /\
   (cast other = FR_TYPE_INVALID ->
    (tmpl_type other = TMPL_TYPE_ATTR ->
     vb_type b = da_type (tmpl_da other)) /\
    (tmpl_type other = TMPL_TYPE_DATA ->
     vb_type b = vb_type (tmpl_value other)) /\
    (tmpl_type other <> TMPL_TYPE_ATTR ->
     tmpl_type other <> TMPL_TYPE_DATA -> vb_type b = FR_TYPE_STRING))).
Proof.
  intros Hcast Hty Hreal.
  assert (Hb : vb_type b = fst (cond_realize_cast_type _in other)).
  { unfold cond_realize_tmpl, cond_realize_expand in Hreal.
    assert (Hexp : forall escape,
              (let '(ret, box, request) :=
                 tmpl_aexpand_box E request _in escape in
               if ret <? 0 then (int_of_ssize_t ret, None, request)
               else
                 let '(cast_type, da) := cond_realize_cast_type _in other in
                 if negb (bool_decide (cast_type = vb_type box)) then
                   match fr_value_box_cast_in_place E cast_type da box with
                   | None => (-1, None, request)
                   | Some box => (0, Some box, request)
                   end
                 else (0, Some box, request)) = (ret, Some b, request') ->
              vb_type b = fst (cond_realize_cast_type _in other)).
    { intros escape.
      destruct (tmpl_aexpand_box E request _in escape) as [[r box] rq].
      destruct (r <? 0); [discriminate|].
      destruct (cond_realize_cast_type _in other) as [ct da].
      case_bool_decide as Hct; simpl.
      - intros Heq. injection Heq as _ <- _. now rewrite Hct.
      - destruct (fr_value_box_cast_in_place E ct da box) as [box'|] eqn:Hc;
          [|discriminate].
        intros Heq. injection Heq as _ <- _. apply (Hcast _ _ _ _ Hc). }
    destruct Hty as [Hty|[Hty|Hty]]; rewrite Hty in Hreal;
      apply (Hexp _ Hreal). }
  rewrite Hb. unfold cond_realize_cast_type, tmpl_is_attr, tmpl_is_data,
    tmpl_value_type.
  repeat split; intros;
    repeat (case_bool_decide; simpl; try congruence).
Qed.

(** X13: a left side that does not expand, or whose expansion cannot be cast,
    makes [cond_eval_map] return -1 with the request as that expansion left
    it: the right side is not looked at.  For a failed expansion this is so
    when its negative length is still negative as an [int], as every length
    that fits into an [int] is. *)
Theorem failed_lhs_expansion_is_error (request : request_t) (c : fr_cond_t)
    (map : map_t) (ret : Z) (box : fr_value_box_t) (request1 : request_t) :
  tmpl_type (map_lhs map) = TMPL_TYPE_XLAT \/
  tmpl_type (map_lhs map) = TMPL_TYPE_EXEC ->
  tmpl_aexpand_box E request (map_lhs map) None = (ret, box, request1) ->
  (ret < 0 -> int_of_ssize_t ret < 0 ->
   cond_eval_map E request c map = (-1, request1)) /\
  (- 2 ^ 31 <= ret < 0 -> cond_eval_map E request c map = (-1, request1)) /\
  (0 <= ret ->
   fst (cond_realize_cast_type (map_lhs map) (map_rhs map)) <> vb_type box ->
   fr_value_box_cast_in_place E
     (fst (cond_realize_cast_type (map_lhs map) (map_rhs map)))
     (snd (cond_realize_cast_type (map_lhs map) (map_rhs map))) box = None ->
   cond_eval_map E request c map = (-1, request1)).
Proof.
  intros Hty Hexp.
  assert (Hreal : cond_realize_tmpl E request (map_lhs map) (map_rhs map) =
                  cond_realize_expand E request (map_lhs map) (map_rhs map)
                    None).
  { unfold cond_realize_tmpl. now destruct Hty as [-> | ->]. }
  assert (Hneg : ret < 0 -> int_of_ssize_t ret < 0 ->
                 cond_eval_map E request c map = (-1, request1)).
  { intros Hret Hint. unfold cond_eval_map. rewrite Hreal.
    unfold cond_realize_expand. rewrite Hexp.
    apply Z.ltb_lt in Hret, Hint. rewrite Hret. cbv beta iota.
    now rewrite Hint. }
  split; [exact Hneg|]. split.
  - intros Hret. apply Hneg; [lia|].
    rewrite int_of_ssize_t_fits; [lia|].
    change (2 ^ 31) with 2147483648 in *. lia.
  - intros Hret Hct Hcast. unfold cond_eval_map. rewrite Hreal.
    unfold cond_realize_expand. rewrite Hexp.
    apply Z.ltb_ge in Hret. rewrite Hret.
    destruct (cond_realize_cast_type (map_lhs map) (map_rhs map)) as [ct da].
    simpl in Hct, Hcast. rewrite (bool_decide_eq_false_2 _ Hct). simpl.
    now rewrite Hcast.
Qed.

(** X14: a left side that is an expansion is expanded twice when the right
    side gives no value of its own (an attribute reference, a list or a
    compiled pattern).  The value of the first expansion is dropped; the
    second runs on the request the first one left.  When the second fails,
    [cond_eval_map] returns its negative length through [int], not -1: the
    length itself when it fits into an [int].  Otherwise the text of the
    second expansion goes to the normaliser. *)
Theorem lhs_expansion_runs_twice (request : request_t) (c : fr_cond_t)
    (map : map_t) (ret : Z) (out : option fr_value_box_t)
    (request1 : request_t) (ret2 : Z) (p : string) (request2 : request_t) :
  tmpl_type (map_lhs map) = TMPL_TYPE_XLAT \/
  tmpl_type (map_lhs map) = TMPL_TYPE_EXEC ->
  tmpl_type (map_rhs map) = TMPL_TYPE_ATTR \/
  tmpl_type (map_rhs map) = TMPL_TYPE_LIST \/
  tmpl_type (map_rhs map) = TMPL_TYPE_REGEX ->
  cond_realize_tmpl E request (map_lhs map) (map_rhs map)
    = (ret, out, request1) ->
  0 <= ret ->
  tmpl_aexpand E request1 (map_lhs map) None = (ret2, p, request2) ->
  request1 = snd (tmpl_aexpand_box E request (map_lhs map) None) /\
  (ret2 < 0 ->
   cond_eval_map E request c map = (int_of_ssize_t ret2, request2)) /\
  (- 2 ^ 31 <= ret2 < 0 ->
   cond_eval_map E request c map = (ret2, request2)) /\
  (0 <= ret2 ->
   cond_eval_map E request c map =
   cond_normalise_and_cmp E request2 c map
     (Some (fr_value_box_bstrndup_shallow p ret2))).
Proof.
  intros Hl Hr Hreal Hret Hexp. split.
  - assert (Hfirst : cond_realize_expand E request (map_lhs map)
                       (map_rhs map) None = (ret, out, request1)).
    { unfold cond_realize_tmpl in Hreal.
      now destruct Hl as [Hl|Hl]; rewrite Hl in Hreal. }
    destruct (tmpl_aexpand_box E request (map_lhs map) None)
      as [[r box] rq] eqn:Hbox.
    destruct (cond_realize_expand_cases request (map_lhs map) (map_rhs map)
                None r box rq Hbox) as [[_ Hc] | [_ [Hc | [b Hc]]]];
      rewrite Hc in Hfirst; now injection Hfirst as _ _ <-.
  - assert (Hrhs : cond_realize_tmpl E request1 (map_rhs map) (map_lhs map)
                   = (0, None, request1)).
    { unfold cond_realize_tmpl.
      now destruct Hr as [-> | [-> | ->]]. }
    assert (Hmap : cond_eval_map E request c map =
                   if ret2 <? 0 then (int_of_ssize_t ret2, request2)
                   else cond_normalise_and_cmp E request2 c map
                          (Some (fr_value_box_bstrndup_shallow p ret2))).
    { unfold cond_eval_map. rewrite Hreal.
      destruct (Z.ltb_spec ret 0); [lia|]. rewrite Hrhs. simpl.
      destruct out; destruct Hl as [Hl|Hl]; rewrite Hl, Hexp; reflexivity. }
    rewrite Hmap. split; [|split].
    + intros Hret2. now destruct (Z.ltb_spec ret2 0); [|lia].
    + intros Hret2. destruct (Z.ltb_spec ret2 0); [|lia].
      rewrite int_of_ssize_t_fits; [reflexivity|].
      change (2 ^ 31) with 2147483648 in *. lia.
    + intros Hret2. now destruct (Z.ltb_spec ret2 0); [lia|].
Qed.

End realize.

(** ** The normaliser and the loops of [cond_eval_map] *)

Section normalise.

Variable E : externs.

Lemma CHECK_INT_CAST_strings (l r : fr_value_box_t) :
  vb_type l = FR_TYPE_STRING ->
  vb_type r = FR_TYPE_STRING ->
  CHECK_INT_CAST FR_TYPE_INVALID (Some l) (Some r) =
  if all_digits (vb_strvalue l) && all_digits (vb_strvalue r)
  then FR_TYPE_UINT64 else FR_TYPE_INVALID.
Proof.
  intros Hl Hr. unfold CHECK_INT_CAST.
  rewrite (bool_decide_eq_true_2 _ Hl), (bool_decide_eq_true_2 _ Hr).
  now destruct (all_digits (vb_strvalue l)).
Qed.

(** X15: the numeric string heuristic.  It applies when the comparison has no
    type, as for a list on the left and an expansion on the right without
    casts.  Two strings that both pass [all_digits] are then both cast to
    [uint64] and the results compared, a failing cast giving -1; two strings
    of which one does not pass are compared as they are.  The request is not
    changed. *)
Theorem numeric_strings_compare_as_uint64 (request : request_t)
    (c : fr_cond_t) (map : map_t) (l r : fr_value_box_t) :
  map_op map <> T_OP_REG_EQ ->
  pass2_fixup c <> PASS2_PAIRCOMPARE ->
  vb_type l = FR_TYPE_STRING ->
  vb_type r = FR_TYPE_STRING ->
  (tmpl_type (map_lhs map) = TMPL_TYPE_LIST ->
   cast (map_lhs map) = FR_TYPE_INVALID ->
   tmpl_type (map_rhs map) = TMPL_TYPE_XLAT \/
   tmpl_type (map_rhs map) = TMPL_TYPE_EXEC ->
   cond_cast_type c map = FR_TYPE_INVALID) /\
  (all_digits (vb_strvalue l) && all_digits (vb_strvalue r) = true ->
   cond_cast_and_cmp E request c map FR_TYPE_INVALID (Some l) (Some r) =
   match fr_value_box_cast E FR_TYPE_UINT64 None l with
   | None => (-1, request, FR_TYPE_UINT64, Some l)
   | Some l' =>
       match fr_value_box_cast E FR_TYPE_UINT64 None r with
       | None => (-1, request, FR_TYPE_UINT64, Some l')
       | Some r' =>
           (fr_value_box_cmp_op E (map_op map) (Some l') (Some r'), request,
            FR_TYPE_UINT64, Some l')
       end
   end) /\
  (all_digits (vb_strvalue l) && all_digits (vb_strvalue r) = false ->
   cond_cast_and_cmp E request c map FR_TYPE_INVALID (Some l) (Some r) =
   (fr_value_box_cmp_op E (map_op map) (Some l) (Some r), request,
    FR_TYPE_INVALID, Some l)).
Proof.
  intros Hop Hfix Hl Hr. split; [|split].
  - intros Hlist Hcast Hrhs. unfold cond_cast_type, tmpl_is_attr, tmpl_is_data.
    rewrite Hlist, Hcast.
    destruct Hrhs as [-> | ->];
      repeat (case_bool_decide; simpl; try congruence).
  - intros Hdigits. unfold cond_cast_and_cmp.
    rewrite (CHECK_INT_CAST_strings l r Hl Hr), Hdigits.
    unfold CAST. rewrite Hl, Hr. cbv beta iota.
    replace (negb (bool_decide (FR_TYPE_UINT64 = FR_TYPE_INVALID))
             && negb (bool_decide (FR_TYPE_STRING = FR_TYPE_INVALID))
             && negb (bool_decide (FR_TYPE_UINT64 = FR_TYPE_STRING)))
      with true by reflexivity.
    destruct (fr_value_box_cast E FR_TYPE_UINT64 None l) as [l'|];
      [|reflexivity].
    destruct (fr_value_box_cast E FR_TYPE_UINT64 None r) as [r'|];
      [|reflexivity].
    unfold cond_cmp_values.
    now rewrite (bool_decide_eq_false_2 _ Hop),
      (bool_decide_eq_false_2 _ Hfix).
  - intros Hdigits. unfold cond_cast_and_cmp.
    rewrite (CHECK_INT_CAST_strings l r Hl Hr), Hdigits.
    unfold CAST.
    replace (negb (bool_decide (FR_TYPE_INVALID = FR_TYPE_INVALID)))
      with false by reflexivity.
    cbv beta iota. unfold cond_cmp_values.
    now rewrite (bool_decide_eq_false_2 _ Hop),
      (bool_decide_eq_false_2 _ Hfix).
Qed.

Lemma cond_eval_map_loop_skip (c : fr_cond_t) (map : map_t)
    (pre : list fr_pair_t) :
  forall request rcode request1 rest,
    cond_lhs_passed_over E request c map pre = Some request1 ->
    cond_eval_map_loop E request c map (pre ++ rest) rcode =
    cond_eval_map_loop E request1 c map rest
      (if pre is [] then rcode else 0).
Proof.
  induction pre as [|vp pre IH]; intros request rcode request1 rest Hpre.
  - injection Hpre as <-. reflexivity.
  - cbn [cond_lhs_passed_over] in Hpre.
    cbn [app cond_eval_map_loop].
    destruct (cond_normalise_and_cmp E request c map (Some (vp_data vp)))
      as [r rq].
    destruct (Z.eqb_spec r 0) as [->|]; [|discriminate].
    cbn [negb]. rewrite (IH _ _ _ _ Hpre).
    now destruct pre.
Qed.

(** X16: the instances of a left side that is an attribute reference or a
    list are tried in cursor order until one gives a result other than 0.
    With no instance the value stored by [tmpl_cursor_init] is returned; the
    first instance whose comparison is not 0, an error included, ends the
    loop with that result, and the instances behind it are not compared; when
    all compare 0 the result is 0. *)
Theorem lhs_instances_first_match (request : request_t) (c : fr_cond_t)
    (map : map_t) (ret : Z) (out : option fr_value_box_t)
    (request0 : request_t) (code : Z) (vps : list fr_pair_t) :
  tmpl_type (map_lhs map) = TMPL_TYPE_ATTR \/
  tmpl_type (map_lhs map) = TMPL_TYPE_LIST ->
  pass2_fixup c <> PASS2_PAIRCOMPARE \/ map_op map = T_OP_REG_EQ ->
  cond_realize_tmpl E request (map_rhs map) (map_lhs map)
    = (ret, out, request0) ->
  0 <= ret ->
  tmpl_cursor_init E request0 (map_lhs map) = (code, vps) ->
  (vps = [] -> cond_eval_map E request c map = (code, request0)) /\
  (forall pre vp post request1 r request2,
     vps = pre ++ vp :: post ->
     cond_lhs_passed_over E request0 c map pre = Some request1 ->
     cond_normalise_and_cmp E request1 c map (Some (vp_data vp))
       = (r, request2) ->
     r <> 0 ->
     cond_eval_map E request c map = (r, request2)) /\
  (forall request1,
     vps <> [] ->
     cond_lhs_passed_over E request0 c map vps = Some request1 ->
     cond_eval_map E request c map = (0, request1)).
Proof.
  intros Hl Hfix Hreal Hret Hcur.
  assert (Hmap : cond_eval_map E request c map =
                 cond_eval_map_loop E request0 c map vps code).
  { unfold cond_eval_map.
    assert (Hlhs : cond_realize_tmpl E request (map_lhs map) (map_rhs map)
                   = (0, None, request)).
    { unfold cond_realize_tmpl. now destruct Hl as [-> | ->]. }
    rewrite Hlhs. cbn [Z.ltb Z.compare]. cbv beta iota. rewrite Hreal.
    apply Z.ltb_ge in Hret. rewrite Hret.
    assert (Hsel : bool_decide (pass2_fixup c = PASS2_PAIRCOMPARE)
                   && negb (bool_decide (map_op map = T_OP_REG_EQ)) = false).
    { destruct Hfix as [Hfix|Hfix].
      - now rewrite (bool_decide_eq_false_2 _ Hfix).
      - rewrite (bool_decide_eq_true_2 _ Hfix). apply andb_false_r. }
    destruct Hl as [Hl|Hl]; rewrite Hl, Hsel, Hcur; reflexivity. }
  rewrite Hmap. split; [|split].
  - now intros ->.
  - intros pre vp post request1 r request2 -> Hpre Hcmp Hr.
    rewrite (cond_eval_map_loop_skip _ _ _ _ _ _ _ Hpre).
    cbn [cond_eval_map_loop]. rewrite Hcmp.
    now destruct (Z.eqb_spec r 0).
  - intros request1 Hne Hall.
    pose proof (cond_eval_map_loop_skip c map vps request0 code request1 []
                  Hall) as Hskip.
    rewrite app_nil_r in Hskip. rewrite Hskip.
    now destruct vps.
Qed.

(** X17: the value of a pair comparison map with a literal on the right,
    end to end.  The instances of the left attribute are never fetched.  The
    comparison type is the declared type of that attribute; when there is
    such a type, the literal has a type and the two differ, the literal is
    cast with [fr_value_box_cast]: if that fails the value is -1, and
    otherwise [paircmp] decides on the cast literal, 0 meaning true and
    anything else false.  When no cast is due, [paircmp] decides on the
    literal as it is. *)
Theorem paircompare_map_casts_and_compares (request : request_t)
    (c : fr_cond_t) (map : map_t) :
  tmpl_type (map_lhs map) = TMPL_TYPE_ATTR ->
  tmpl_type (map_rhs map) = TMPL_TYPE_DATA ->
  pass2_fixup c = PASS2_PAIRCOMPARE ->
  map_op map <> T_OP_REG_EQ ->
  let cast_type := da_type (tmpl_da (map_lhs map)) in
  let literal := tmpl_value (map_rhs map) in
  let decided (rhs : fr_value_box_t) :=
    if paircmp E request (request_pairs request)
         [paircmp_check map (Some rhs)] =? 0
    then 1 else 0 in
  (cast_type <> FR_TYPE_INVALID -> vb_type literal <> FR_TYPE_INVALID ->
   cast_type <> vb_type literal ->
   fst (cond_eval_map E request c map) =
   match fr_value_box_cast E cast_type None literal with
   | None => -1
   | Some rhs => decided rhs
   end) /\
  (cast_type = FR_TYPE_INVALID \/ vb_type literal = FR_TYPE_INVALID \/
   cast_type = vb_type literal ->
   fst (cond_eval_map E request c map) = decided literal).
Proof.
  intros Hl Hr Hfix Hop cast_type literal decided.
  assert (Hmap : cond_eval_map E request c map =
                 match CAST E cast_type (Some literal) with
                 | CAST_FAILED => (-1, request)
                 | CAST_OK rhs =>
                     (if paircmp E request (request_pairs request)
                           [paircmp_check map rhs] =? 0
                      then 1 else 0, request)
                 end).
  { unfold cond_eval_map.
    assert (Hlhs : cond_realize_tmpl E request (map_lhs map) (map_rhs map)
                   = (0, None, request)).
    { unfold cond_realize_tmpl. now rewrite Hl. }
    rewrite Hlhs. cbn [Z.ltb Z.compare]. cbv beta iota.
    rewrite (cond_realize_tmpl_data E _ _ _ Hr).
    cbn [Z.ltb Z.compare]. cbv beta iota.
    rewrite Hl, (bool_decide_eq_true_2 _ Hfix),
      (bool_decide_eq_false_2 _ Hop).
    cbn [negb andb]. unfold cond_normalise_and_cmp. rewrite Hr.
    assert (Hct : cond_cast_type c map = cast_type).
    { unfold cond_cast_type.
      now rewrite (bool_decide_eq_false_2 _ Hop),
        (bool_decide_eq_true_2 _ Hfix). }
    rewrite Hct. unfold cond_cast_and_cmp. cbn [CHECK_INT_CAST].
    change (CAST E cast_type None) with (CAST_OK (@None fr_value_box_t)).
    cbv beta iota. fold literal.
    destruct (CAST E cast_type (Some literal)) as [|rhs]; [reflexivity|].
    unfold cond_cmp_values.
    now rewrite (bool_decide_eq_false_2 _ Hop),
      (bool_decide_eq_true_2 _ Hfix). }
  rewrite Hmap. split.
  - intros Hc Hb Hne. rewrite (CAST_runs E _ _ Hc Hb Hne).
    now destruct (fr_value_box_cast E cast_type None literal).
  - intros Hno. rewrite (CAST_skips E cast_type literal); [reflexivity|].
    intros (Hc & Hb & Hne). destruct Hno as [H | [H | H]]; congruence.
Qed.

(** X18: [cond_do_regex] wants a string on the left and a pattern on the
    right.  Without a left value, or with one that is not a string, it
    returns -1; so it does, when the right side is not a compiled pattern,
    without a right value, with one that is not a string, and with one that
    does not compile.  In all these cases the request, captures included, is
    left as it was. *)
Theorem regex_needs_string_and_pattern (request : request_t) (map : map_t)
    (lhs rhs : option fr_value_box_t) :
  (lhs = None \/ (exists l, lhs = Some l /\ vb_type l <> FR_TYPE_STRING) ->
   cond_do_regex E request map lhs rhs = (-1, request)) /\
  (tmpl_type (map_rhs map) <> TMPL_TYPE_REGEX ->
   rhs = None \/
   (exists r,
      rhs = Some r /\
      (vb_type r <> FR_TYPE_STRING \/
       fst (regex_compile E (vb_strvalue r) (vb_length r)
              (tmpl_regex_flags (map_rhs map))) <= 0)) ->
   cond_do_regex E request map lhs rhs = (-1, request)).
Proof.
  split.
  - intros [-> | (l & -> & Hl)]; [reflexivity|].
    unfold cond_do_regex. now rewrite (bool_decide_eq_false_2 _ Hl).
  - intros Hty Hrhs.
    assert (Hpreg : cond_do_regex_preg E map rhs = None).
    { unfold cond_do_regex_preg.
      destruct (tmpl_type (map_rhs map)); try congruence;
        (destruct Hrhs as [-> | (r & -> & [Hr | Hr])]; [reflexivity| |];
         [now rewrite (bool_decide_eq_false_2 _ Hr)|];
         case_bool_decide; [|reflexivity]; cbn [negb];
         destruct (vb_strvalue_set r); [|reflexivity]; cbn [negb];
         destruct (regex_compile E (vb_strvalue r) (vb_length r)
                     (tmpl_regex_flags (map_rhs map))) as [slen rreg];
         simpl in Hr; now destruct (Z.leb_spec slen 0); [|lia]). }
    unfold cond_do_regex. rewrite Hpreg.
    destruct lhs as [l|]; [|reflexivity].
    now destruct (negb (bool_decide (vb_type l = FR_TYPE_STRING))).
Qed.

(** X24: a pattern that is compiled at run time needs text.  When the right
    side is not a compiled pattern and the right value holds no text - its
    [vb_strvalue] is [NULL] - [cond_do_regex] returns -1, whatever the type
    of the value and whatever the left value is, and leaves the request,
    captures included, as it was: nothing is compiled. *)
Theorem regex_pattern_needs_text (request : request_t) (map : map_t)
    (lhs : option fr_value_box_t) (r : fr_value_box_t) :
  tmpl_type (map_rhs map) <> TMPL_TYPE_REGEX ->
  vb_strvalue_set r = false ->
  cond_do_regex E request map lhs (Some r) = (-1, request).
Proof.
  intros Hty Hr.
  assert (Hpreg : cond_do_regex_preg E map (Some r) = None).
  { unfold cond_do_regex_preg. rewrite Hr.
    destruct (tmpl_type (map_rhs map)); try congruence;
      now destruct (negb (bool_decide (vb_type r = FR_TYPE_STRING))). }
  unfold cond_do_regex. rewrite Hpreg.
  destruct lhs as [l|]; [|reflexivity].
  now destruct (negb (bool_decide (vb_type l = FR_TYPE_STRING))).
Qed.

End normalise.

(** ** Nodes that need no operand *)

(** X19: the nodes that test a constant, the module return code or the
    presence of an attribute never give an error and never change the
    request.  Alone, [true] is 1 and [false] is 0; a return code node is 1
    exactly when its code is [modreturn]; a bare attribute reference or list
    is 1 exactly when [tmpl_find_vp] returns 0; a bare template of any type
    that is neither of these nor an expansion is 0.  The [negate] flag turns
    each of these values into the other. *)
Theorem plain_nodes_never_fail (E : externs) (modreturn : rlm_rcode_t)
    (request : request_t) (neg : bool) (fixup : pass2_fixup_t) :
  let walk l :=
    cond_eval_tree E request modreturn (tree_leaf l neg fixup tree_null) in
  let value (b : bool) := Some (if xorb neg b then 1 else 0, request) in
  walk LEAF_TRUE = value true /\
  walk LEAF_FALSE = value false /\
  (forall r, walk (LEAF_RCODE r) = value (bool_decide (r = modreturn))) /\
  (forall vpt,
     tmpl_type vpt = TMPL_TYPE_ATTR \/ tmpl_type vpt = TMPL_TYPE_LIST ->
     walk (LEAF_TMPL vpt) = value (tmpl_find_vp E request vpt =? 0)) /\
  (forall vpt,
     tmpl_type vpt <> TMPL_TYPE_ATTR -> tmpl_type vpt <> TMPL_TYPE_LIST ->
     tmpl_type vpt <> TMPL_TYPE_XLAT -> tmpl_type vpt <> TMPL_TYPE_EXEC ->
     walk (LEAF_TMPL vpt) = value false).
Proof.
  cbv beta zeta. rewrite !cond_eval_tree_rec.
  split; [now destruct neg|]. split; [now destruct neg|]. split; [|split].
  - intros r. rewrite cond_eval_tree_rec.
    cbn [cond_eval_rec]. unfold cond_eval_switch. cbn [type lone_node leaf_type].
    now destruct (bool_decide (r = modreturn)), neg.
  - intros vpt Hty. rewrite cond_eval_tree_rec.
    cbn [cond_eval_rec]. unfold cond_eval_switch. cbn [type lone_node leaf_type].
    unfold cond_eval_tmpl.
    destruct Hty as [-> | ->];
      now destruct (tmpl_find_vp E request vpt =? 0), neg.
  - intros vpt Ha Hl Hx He. rewrite cond_eval_tree_rec.
    cbn [cond_eval_rec]. unfold cond_eval_switch. cbn [type lone_node leaf_type].
    unfold cond_eval_tmpl.
    destruct (tmpl_type vpt); try congruence; now destruct neg.
Qed.

(** ** The depth counter *)

Section depth.

Variable E : externs.
Variable modreturn : rlm_rcode_t.
Variable h : list fr_cond_t.

Lemma cond_advance_depth (fuel : nat) :
  forall c rcode d1 d2,
    advance_without_depth <$> cond_advance h fuel c rcode d1 =
    advance_without_depth <$> cond_advance h fuel c rcode d2.
Proof.
  induction fuel as [|fuel IH]; intros c rcode d1 d2; [reflexivity|].
  rewrite !cond_advance_S. cbv zeta.
  destruct (h !! c) as [n|]; [|reflexivity].
  assert (Hup :
            advance_without_depth <$>
              match parent n with
              | Some p => cond_advance h fuel p rcode (d1 - 1)
              | None => Some ADVANCE_RETURN
              end =
            advance_without_depth <$>
              match parent n with
              | Some p => cond_advance h fuel p rcode (d2 - 1)
              | None => Some ADVANCE_RETURN
              end).
  { destruct (parent n); [apply IH | reflexivity]. }
  destruct (next n) as [c_next|]; [|exact Hup].
  destruct (h !! c_next) as [n_next|]; [|reflexivity].
  destruct (type n_next); try reflexivity;
    [destruct (rcode =? 0) | destruct (negb _)];
    first [exact Hup | reflexivity].
Qed.

Lemma cond_eval_iter_depth (c : nat) (rcode d1 d2 : Z) (request : request_t) :
  iter_without_depth <$> cond_eval_iter E modreturn h c rcode d1 request =
  iter_without_depth <$> cond_eval_iter E modreturn h c rcode d2 request.
Proof.
  unfold cond_eval_iter.
  destruct (h !! c) as [n|]; [|reflexivity].
  destruct (cond_eval_switch E modreturn n request) as [[v rq]|child|];
    try reflexivity.
  unfold cond_eval_after.
  destruct (v <? 0); [reflexivity|].
  pose proof (cond_advance_depth (length h) c
                (if negate n then if v =? 0 then 1 else 0 else v) d1 d2) as H.
  destruct (cond_advance h (length h) c _ d1) as [[|c1 e1]|],
           (cond_advance h (length h) c _ d2) as [[|c2 e2]|];
    simpl in H; try discriminate; try reflexivity.
  injection H as ->. reflexivity.
Qed.

(** X21: [depth] is bookkeeping.  On any set of nodes, well formed or not,
    and for any bound on the number of turns, the loop of [cond_eval] returns
    the same value and the same request whatever depth it is entered with. *)
Theorem depth_is_bookkeeping (fuel : nat) :
  forall c rcode d1 d2 request,
    cond_eval_loop E modreturn h fuel c rcode d1 request =
    cond_eval_loop E modreturn h fuel c rcode d2 request.
Proof.
  induction fuel as [|fuel IH]; intros c rcode d1 d2 request;
    destruct c as [c|]; try reflexivity.
  cbn [cond_eval_loop].
  pose proof (cond_eval_iter_depth c rcode d1 d2 request) as H.
  destruct (cond_eval_iter E modreturn h c rcode d1 request)
    as [[r1 rq1|c1 r1 e1 rq1]|],
    (cond_eval_iter E modreturn h c rcode d2 request)
    as [[r2 rq2|c2 r2 e2 rq2]|];
    simpl in H; try discriminate; try reflexivity.
  - now injection H as -> ->.
  - injection H as -> -> ->. apply IH.
Qed.

End depth.

(** ** A compiled pattern on the right *)

Section compiled_regex.

Variable E : externs.

(** X22: a match against a compiled pattern.  In the normaliser the left
    value is made a string: a string is used as it is, a value of another type
    is cast to [string], a failing cast giving -1, and a value without type
    or no value at all gives -1.  The pattern is the one the template holds:
    nothing is compiled, and the engine runs on the string with that
    pattern, its result deciding about the captures. *)
Theorem compiled_regex_runs_on_string (request : request_t) (c : fr_cond_t)
    (map : map_t) (b : fr_value_box_t) :
  map_op map = T_OP_REG_EQ ->
  tmpl_type (map_rhs map) = TMPL_TYPE_REGEX ->
  (vb_type b = FR_TYPE_STRING ->
   cond_normalise_and_cmp E request c map (Some b) =
   let preg := tmpl_regex (map_rhs map) in
   let '(ret, regmatch) :=
     regex_exec E preg (vb_strvalue b) (vb_length b) (regex_slots E preg) in
   match ret with
   | 0 => (ret, regex_sub_to_request request None)
   | 1 => (ret, regex_sub_to_request request (Some (preg, regmatch)))
   | _ => (ret, request)
   end) /\
  (vb_type b <> FR_TYPE_STRING -> vb_type b <> FR_TYPE_INVALID ->
   cond_normalise_and_cmp E request c map (Some b) =
   match fr_value_box_cast E FR_TYPE_STRING None b with
   | None => (-1, request)
   | Some b' => cond_do_regex E request map (Some b') None
   end) /\
  (vb_type b = FR_TYPE_INVALID ->
   cond_normalise_and_cmp E request c map (Some b) = (-1, request)) /\
  cond_normalise_and_cmp E request c map None = (-1, request).
Proof.
  intros Hop Hty.
  assert (Hct : cond_cast_type c map = FR_TYPE_STRING).
  { unfold cond_cast_type. now rewrite (bool_decide_eq_true_2 _ Hop). }
  assert (Hcmp : forall lhs,
             cond_cmp_values E request c map lhs None =
             cond_do_regex E request map lhs None).
  { intros lhs. unfold cond_cmp_values.
    now rewrite (bool_decide_eq_true_2 _ Hop). }
  unfold cond_normalise_and_cmp. rewrite Hty, Hct.
  split; [|split; [|split]].
  - intros Hb. unfold CAST. rewrite Hb. cbn [bool_decide negb andb].
    replace (negb (bool_decide (FR_TYPE_STRING = FR_TYPE_INVALID))
             && negb (bool_decide (FR_TYPE_STRING = FR_TYPE_INVALID))
             && negb (bool_decide (FR_TYPE_STRING = FR_TYPE_STRING)))
      with false by reflexivity.
    rewrite Hcmp. unfold cond_do_regex, cond_do_regex_preg.
    now rewrite (bool_decide_eq_true_2 _ Hb), Hty.
  - intros Hs Hi. unfold CAST.
    rewrite (bool_decide_eq_false_2 _ Hi).
    rewrite (bool_decide_eq_false_2 (FR_TYPE_STRING = vb_type b))
      by congruence.
    replace (negb (bool_decide (FR_TYPE_STRING = FR_TYPE_INVALID))
             && negb false && negb false) with true by reflexivity.
    destruct (fr_value_box_cast E FR_TYPE_STRING None b) as [b'|];
      [apply Hcmp | reflexivity].
  - intros Hi. unfold CAST. rewrite (bool_decide_eq_true_2 _ Hi).
    replace (negb (bool_decide (FR_TYPE_STRING = FR_TYPE_INVALID))
             && negb true
             && negb (bool_decide (FR_TYPE_STRING = vb_type b)))
      with false by reflexivity.
    rewrite Hcmp. unfold cond_do_regex.
    rewrite (bool_decide_eq_false_2 (vb_type b = FR_TYPE_STRING))
      by congruence.
    reflexivity.
  - cbn [CAST]. now rewrite Hcmp.
Qed.

End compiled_regex.

(** ** What is read of the node *)

Section node_reading.

Variable E : externs.
Variables c c' : fr_cond_t.
Variable map : map_t.
Hypothesis Hnode :
  bool_decide (pass2_fixup c = PASS2_PAIRCOMPARE) =
  bool_decide (pass2_fixup c' = PASS2_PAIRCOMPARE) \/
  map_op map = T_OP_REG_EQ.

Lemma cond_cast_type_paircompare :
  cond_cast_type c map = cond_cast_type c' map.
Proof.
  unfold cond_cast_type. destruct Hnode as [H|H];
    [now rewrite H | now rewrite (bool_decide_eq_true_2 _ H)].
Qed.

Lemma cond_cmp_values_paircompare request lhs rhs :
  cond_cmp_values E request c map lhs rhs =
  cond_cmp_values E request c' map lhs rhs.
Proof.
  unfold cond_cmp_values. destruct Hnode as [H|H];
    [now rewrite H | now rewrite (bool_decide_eq_true_2 _ H)].
Qed.

Lemma cond_cast_and_cmp_paircompare request cast_type lhs rhs :
  cond_cast_and_cmp E request c map cast_type lhs rhs =
  cond_cast_and_cmp E request c' map cast_type lhs rhs.
Proof.
  unfold cond_cast_and_cmp.
  destruct (CAST E _ lhs); [reflexivity|].
  destruct (CAST E _ rhs); [reflexivity|].
  now rewrite cond_cmp_values_paircompare.
Qed.

Lemma cond_normalise_attr_loop_paircompare vps :
  forall request cast_type lhs rcode,
    cond_normalise_attr_loop E request c map vps cast_type lhs rcode =
    cond_normalise_attr_loop E request c' map vps cast_type lhs rcode.
Proof.
  induction vps as [|vp vps IH]; intros; simpl; [reflexivity|].
  rewrite cond_cast_and_cmp_paircompare.
  destruct (cond_cast_and_cmp E request c' map cast_type lhs
              (Some (vp_data vp))) as [[[r rq] ct] l].
  destruct (negb (r =? 0)); [reflexivity | apply IH].
Qed.

Lemma cond_normalise_and_cmp_paircompare request lhs :
  cond_normalise_and_cmp E request c map lhs =
  cond_normalise_and_cmp E request c' map lhs.
Proof.
  unfold cond_normalise_and_cmp. rewrite cond_cast_type_paircompare.
  destruct (tmpl_type (map_rhs map)); try reflexivity;
    try (now rewrite cond_cast_and_cmp_paircompare);
    try (destruct (tmpl_aexpand E request (map_rhs map) (cond_escape map))
           as [[ret p] rq];
         now rewrite cond_cast_and_cmp_paircompare).
  - destruct (tmpl_cursor_init E request (map_rhs map)) as [rcode vps].
    apply cond_normalise_attr_loop_paircompare.
  - destruct (CAST E _ lhs); [reflexivity|].
    apply cond_cmp_values_paircompare.
Qed.

Lemma cond_eval_map_loop_paircompare vps :
  forall request rcode,
    cond_eval_map_loop E request c map vps rcode =
    cond_eval_map_loop E request c' map vps rcode.
Proof.
  induction vps as [|vp vps IH]; intros; simpl; [reflexivity|].
  rewrite cond_normalise_and_cmp_paircompare.
  destruct (cond_normalise_and_cmp E request c' map (Some (vp_data vp)))
    as [r rq].
  destruct (negb (r =? 0)); [reflexivity | apply IH].
Qed.

(** X23: of the node it is given, [cond_eval_map] reads the map and whether
    the fixup is [PASS2_PAIRCOMPARE], and for a regular expression match not
    even that: two nodes with the same map that agree on this, or any two
    nodes when the operator is the regular expression match, give the same
    result and the same request.  The type, the [negate] flag and the
    pointers of the node play no part, nor does the difference between the
    other fixups. *)
Theorem map_reads_paircompare_flag_only (request : request_t) :
  cond_eval_map E request c map = cond_eval_map E request c' map.
Proof.
  unfold cond_eval_map.
  destruct (cond_realize_tmpl E request (map_lhs map) (map_rhs map))
    as [[ret1 lhs] rq1].
  destruct (ret1 <? 0); [reflexivity|].
  destruct (cond_realize_tmpl E rq1 (map_rhs map) (map_lhs map))
    as [[ret2 rhs] rq2].
  destruct (ret2 <? 0); [reflexivity|].
  assert (Hsel : bool_decide (pass2_fixup c = PASS2_PAIRCOMPARE)
                 && negb (bool_decide (map_op map = T_OP_REG_EQ)) =
                 bool_decide (pass2_fixup c' = PASS2_PAIRCOMPARE)
                 && negb (bool_decide (map_op map = T_OP_REG_EQ))).
  { destruct Hnode as [H|H]; [now rewrite H|].
    rewrite (bool_decide_eq_true_2 _ H). now rewrite !andb_false_r. }
  rewrite Hsel, !cond_normalise_and_cmp_paircompare.
  destruct (tmpl_cursor_init E rq2 (map_lhs map)) as [rcode vps].
  rewrite (cond_eval_map_loop_paircompare vps).
  destruct (tmpl_aexpand E rq2 (map_lhs map) None) as [[ret p] rq].
  rewrite (cond_normalise_and_cmp_paircompare rq).
  reflexivity.
Qed.

End node_reading.

(** ** The properties on sample inputs *)

Lemma sample_cast_in_place_contract : cast_in_place_contract Sample.E.
Proof.
  intros t da b b'. cbn [fr_value_box_cast_in_place Sample.E].
  unfold Sample.value_cast.
  case_bool_decide as Ht; [intros Heq; injection Heq as <-; now rewrite Ht|].
  destruct (negb (Sample.is_integer_type t)); [discriminate|].
  destruct (datum b) as [|s|n]; [discriminate| |].
  - destruct (Sample.parse_uint s); [|discriminate].
    intros Heq. injection Heq as <-. reflexivity.
  - intros Heq. injection Heq as <-. reflexivity.
Qed.

Lemma error_ends_walk_witness :
  cond_eval_tree Sample.E (Sample.request_of []) RLM_MODULE_OK
    (item_then (item_leaf (LEAF_MAP map_name_eq_bob) false PASS2_FIXUP_NONE)
       tree_null)
  = Some (-2, Sample.request_of []) /\
  -2 < 0 /\
  cond_eval_tree Sample.E (Sample.request_of []) RLM_MODULE_OK
    (item_and (item_leaf (LEAF_MAP map_name_eq_bob) false PASS2_FIXUP_NONE)
       tree_count)
  = Some (-2, Sample.request_of []).
Proof.
  split; [reflexivity|]. split; [reflexivity|].
  exact (proj1 (error_ends_walk Sample.E RLM_MODULE_OK
                  (item_leaf (LEAF_MAP map_name_eq_bob) false PASS2_FIXUP_NONE)
                  (tree_leaf LEAF_AND false PASS2_FIXUP_NONE tree_count)
                  (Sample.request_of []) (-2) (Sample.request_of [])
                  eq_refl eq_refl)).
Defined.

Lemma negate_flips_value_witness :
  cond_eval_tree Sample.E (Sample.request_of []) RLM_MODULE_OK
    (tree_leaf LEAF_TRUE false PASS2_FIXUP_NONE tree_null)
  = Some (1, Sample.request_of []) /\
  0 <= 1 /\
  cond_eval_tree Sample.E (Sample.request_of []) RLM_MODULE_OK
    (tree_leaf LEAF_TRUE true PASS2_FIXUP_NONE tree_null)
  = Some (0, Sample.request_of []).
Proof.
  split; [reflexivity|]. split; [lia|].
  apply (negate_flips_value Sample.E RLM_MODULE_OK LEAF_TRUE PASS2_FIXUP_NONE
           (Sample.request_of []) 1 (Sample.request_of []));
    [reflexivity | lia].
Defined.

Lemma empty_start_is_error_witness :
  (LEAF_AND = LEAF_INVALID \/ LEAF_AND = LEAF_AND \/ LEAF_AND = LEAF_OR) /\
  cond_eval_tree Sample.E (Sample.request_of []) RLM_MODULE_OK
    (tree_leaf LEAF_AND false PASS2_FIXUP_NONE tree_count)
  = Some (-1, Sample.request_of []).
Proof.
  split; [right; left; reflexivity|].
  exact (proj1 (proj2 (empty_start_is_error Sample.E RLM_MODULE_OK
                         (Sample.request_of [])))
           LEAF_AND false PASS2_FIXUP_NONE tree_count
           (or_intror (or_introl eq_refl))).
Defined.

(** [(true &&) && false] returns 1 where [(true) && false] returns 0. *)
Lemma trailing_marker_returns_at_once_witness :
  cond_eval_tree Sample.E (Sample.request_of []) RLM_MODULE_OK
    (item_then (item_leaf LEAF_TRUE false PASS2_FIXUP_NONE) tree_null)
  = Some (1, Sample.request_of []) /\
  1 <> 0 /\
  cond_eval_tree Sample.E (Sample.request_of []) RLM_MODULE_OK
    (tree_child false PASS2_FIXUP_NONE
       (item_and (item_leaf LEAF_TRUE false PASS2_FIXUP_NONE) tree_null)
       (tree_leaf LEAF_AND false PASS2_FIXUP_NONE
          (tree_leaf LEAF_FALSE false PASS2_FIXUP_NONE tree_null)))
  = Some (1, Sample.request_of []) /\
  cond_eval_tree Sample.E (Sample.request_of []) RLM_MODULE_OK
    (tree_child false PASS2_FIXUP_NONE
       (item_then (item_leaf LEAF_TRUE false PASS2_FIXUP_NONE) tree_null)
       (tree_leaf LEAF_AND false PASS2_FIXUP_NONE
          (tree_leaf LEAF_FALSE false PASS2_FIXUP_NONE tree_null)))
  = Some (0, Sample.request_of []).
Proof.
  split; [reflexivity|]. split; [discriminate|].
  split; [|reflexivity].
  apply (proj1 (proj2 (trailing_marker_returns_at_once Sample.E
                         RLM_MODULE_OK)
                  (item_leaf LEAF_TRUE false PASS2_FIXUP_NONE)
                  (Sample.request_of []) 1 (Sample.request_of [])
                  false PASS2_FIXUP_NONE
                  (tree_leaf LEAF_AND false PASS2_FIXUP_NONE
                     (tree_leaf LEAF_FALSE false PASS2_FIXUP_NONE tree_null))
                  eq_refl)).
  discriminate.
Defined.

Lemma connective_continues_with_rest_witness :
  cond_eval_tree Sample.E (Sample.request_of []) RLM_MODULE_OK
    (tree_leaf LEAF_TRUE false PASS2_FIXUP_NONE tree_null)
  = Some (1, Sample.request_of []) /\
  0 < 1 /\
  cond_eval_tree Sample.E (Sample.request_of []) RLM_MODULE_OK
    (item_and (item_leaf LEAF_TRUE false PASS2_FIXUP_NONE) tree_count) =
  cond_eval_tree_from Sample.E (Sample.request_of []) RLM_MODULE_OK 1
    tree_count.
Proof.
  split; [reflexivity|]. split; [reflexivity|].
  exact (proj1 (connective_continues_with_rest Sample.E RLM_MODULE_OK
                  LEAF_TRUE false PASS2_FIXUP_NONE tree_count
                  (Sample.request_of []) 1 (Sample.request_of []) eq_refl)
           eq_refl).
Defined.

Lemma realize_gives_value_or_defers_witness :
  cond_realize_tmpl Sample.E (Sample.request_of [])
    (map_lhs map_fail_eq_count) (map_rhs map_fail_eq_count)
  = (-1, None, Sample.note (Sample.request_of []) "%{fail}") /\
  (-1 < 0 -> @None fr_value_box_t = None).
Proof.
  split; [reflexivity|].
  exact (proj1 (proj2
           (realize_gives_value_or_defers Sample.E (Sample.request_of [])
              (map_lhs map_fail_eq_count) (map_rhs map_fail_eq_count)
              (-1) None (Sample.note (Sample.request_of []) "%{fail}")
              eq_refl))).
Defined.

Lemma realized_expansion_has_cast_type_witness :
  cast_in_place_contract Sample.E /\
  (tmpl_type (map_lhs map_xlat_eq_port) = TMPL_TYPE_XLAT \/
   tmpl_type (map_lhs map_xlat_eq_port) = TMPL_TYPE_EXEC \/
   tmpl_type (map_lhs map_xlat_eq_port) = TMPL_TYPE_REGEX_XLAT) /\
  cond_realize_tmpl Sample.E (Sample.request_of [])
    (map_lhs map_xlat_eq_port) (map_rhs map_xlat_eq_port)
  = (0, Some (Sample.box_integer FR_TYPE_UINT32 2),
     Sample.note (Sample.request_of []) "2") /\
  vb_type (Sample.box_integer FR_TYPE_UINT32 2) =
  da_type (tmpl_da (map_rhs map_xlat_eq_port)).
Proof.
  split; [exact sample_cast_in_place_contract|].
  split; [left; reflexivity|]. split; [reflexivity|].
  exact (proj1
           (proj2
              (proj2
                 (realized_expansion_has_cast_type Sample.E
                    (Sample.request_of [])
                    (map_lhs map_xlat_eq_port) (map_rhs map_xlat_eq_port)
                    0 (Sample.box_integer FR_TYPE_UINT32 2)
                    (Sample.note (Sample.request_of []) "2")
                    sample_cast_in_place_contract (or_introl eq_refl)
                    eq_refl)
                 eq_refl)
              eq_refl)
           eq_refl).
Defined.

Lemma failed_lhs_expansion_is_error_witness :
  (tmpl_type (map_lhs map_fail_eq_count) = TMPL_TYPE_XLAT \/
   tmpl_type (map_lhs map_fail_eq_count) = TMPL_TYPE_EXEC) /\
  tmpl_aexpand_box Sample.E (Sample.request_of [])
    (map_lhs map_fail_eq_count) None
  = (-1, fr_value_box_bstrndup_shallow "" (-1),
     Sample.note (Sample.request_of []) "%{fail}") /\
  - 2 ^ 31 <= -1 < 0 /\
  cond_eval_map Sample.E (Sample.request_of [])
    (Sample.node_of (COND_TYPE_MAP map_fail_eq_count) PASS2_FIXUP_NONE)
    map_fail_eq_count
  = (-1, Sample.note (Sample.request_of []) "%{fail}").
Proof.
  split; [left; reflexivity|]. split; [reflexivity|].
  split; [lia|].
  apply (proj1 (proj2
           (failed_lhs_expansion_is_error Sample.E (Sample.request_of [])
              (Sample.node_of (COND_TYPE_MAP map_fail_eq_count)
                 PASS2_FIXUP_NONE)
              map_fail_eq_count (-1)
              (fr_value_box_bstrndup_shallow "" (-1))
              (Sample.note (Sample.request_of []) "%{fail}")
              (or_introl eq_refl) eq_refl))).
  lia.
Defined.

Lemma lhs_expansion_runs_twice_witness :
  (tmpl_type (map_lhs map_xlat_eq_port) = TMPL_TYPE_XLAT \/
   tmpl_type (map_lhs map_xlat_eq_port) = TMPL_TYPE_EXEC) /\
  (tmpl_type (map_rhs map_xlat_eq_port) = TMPL_TYPE_ATTR \/
   tmpl_type (map_rhs map_xlat_eq_port) = TMPL_TYPE_LIST \/
   tmpl_type (map_rhs map_xlat_eq_port) = TMPL_TYPE_REGEX) /\
  cond_realize_tmpl Sample.E request_three_ports
    (map_lhs map_xlat_eq_port) (map_rhs map_xlat_eq_port)
  = (0, Some (Sample.box_integer FR_TYPE_UINT32 2),
     Sample.note request_three_ports "2") /\
  0 <= 0 /\
  tmpl_aexpand Sample.E (Sample.note request_three_ports "2")
    (map_lhs map_xlat_eq_port) None
  = (1, "2", Sample.note (Sample.note request_three_ports "2") "2") /\
  0 <= 1 /\
  cond_eval_map Sample.E request_three_ports
    (Sample.node_of (COND_TYPE_MAP map_xlat_eq_port) PASS2_FIXUP_NONE)
    map_xlat_eq_port =
  cond_normalise_and_cmp Sample.E
    (Sample.note (Sample.note request_three_ports "2") "2")
    (Sample.node_of (COND_TYPE_MAP map_xlat_eq_port) PASS2_FIXUP_NONE)
    map_xlat_eq_port (Some (fr_value_box_bstrndup_shallow "2" 1)).
Proof.
  split; [left; reflexivity|]. split; [left; reflexivity|].
  split; [reflexivity|]. split; [lia|]. split; [reflexivity|].
  split; [lia|].
  apply (proj2 (proj2 (proj2 (lhs_expansion_runs_twice Sample.E
                                request_three_ports
                         (Sample.node_of (COND_TYPE_MAP map_xlat_eq_port)
                            PASS2_FIXUP_NONE)
                         map_xlat_eq_port 0
                         (Some (Sample.box_integer FR_TYPE_UINT32 2))
                         (Sample.note request_three_ports "2") 1 "2"
                         (Sample.note (Sample.note request_three_ports "2")
                            "2")
                         (or_introl eq_refl) (or_introl eq_refl) eq_refl
                         ltac:(lia) eq_refl)))).
  lia.
Defined.

Lemma numeric_strings_compare_as_uint64_witness :
  map_op map_010_eq_10 <> T_OP_REG_EQ /\
  pass2_fixup (Sample.node_of (COND_TYPE_MAP map_010_eq_10) PASS2_FIXUP_NONE)
    <> PASS2_PAIRCOMPARE /\
  vb_type (Sample.box_string "010") = FR_TYPE_STRING /\
  vb_type (Sample.box_string "10") = FR_TYPE_STRING /\
  all_digits (vb_strvalue (Sample.box_string "010"))
    && all_digits (vb_strvalue (Sample.box_string "10")) = true /\
  cond_cast_and_cmp Sample.E (Sample.request_of [])
    (Sample.node_of (COND_TYPE_MAP map_010_eq_10) PASS2_FIXUP_NONE)
    map_010_eq_10 FR_TYPE_INVALID
    (Some (Sample.box_string "010")) (Some (Sample.box_string "10"))
  = (1, Sample.request_of [], FR_TYPE_UINT64,
     Some (Sample.box_integer FR_TYPE_UINT64 10)).
Proof.
  split; [discriminate|]. split; [discriminate|].
  split; [reflexivity|]. split; [reflexivity|]. split; [reflexivity|].
  apply (proj1 (proj2 (numeric_strings_compare_as_uint64 Sample.E
                         (Sample.request_of [])
                         (Sample.node_of (COND_TYPE_MAP map_010_eq_10)
                            PASS2_FIXUP_NONE)
                         map_010_eq_10
                         (Sample.box_string "010") (Sample.box_string "10")
                         ltac:(discriminate) ltac:(discriminate)
                         eq_refl eq_refl))).
  reflexivity.
Defined.

Lemma port_eq_2_rhs_realized :
  cond_realize_tmpl Sample.E request_three_ports
    (map_rhs map_port_eq_2) (map_lhs map_port_eq_2)
  = (0, Some (Sample.box_string "2"), request_three_ports).
Proof. vm_compute; reflexivity. Qed.

Lemma port_eq_2_instances :
  tmpl_cursor_init Sample.E request_three_ports (map_lhs map_port_eq_2)
  = (0, [port 1] ++ port 2 :: [port 3]).
Proof. vm_compute; reflexivity. Qed.

Lemma port_eq_2_first_passed_over :
  cond_lhs_passed_over Sample.E request_three_ports
    (Sample.node_of (COND_TYPE_MAP map_port_eq_2) PASS2_FIXUP_NONE)
    map_port_eq_2 [port 1]
  = Some request_three_ports.
Proof. vm_compute; reflexivity. Qed.

Lemma port_eq_2_second_matches :
  cond_normalise_and_cmp Sample.E request_three_ports
    (Sample.node_of (COND_TYPE_MAP map_port_eq_2) PASS2_FIXUP_NONE)
    map_port_eq_2 (Some (vp_data (port 2)))
  = (1, request_three_ports).
Proof. vm_compute; reflexivity. Qed.

Lemma port_eq_2_no_fixup :
  pass2_fixup (Sample.node_of (COND_TYPE_MAP map_port_eq_2) PASS2_FIXUP_NONE)
    <> PASS2_PAIRCOMPARE.
Proof. discriminate. Qed.

Lemma lhs_instances_first_match_witness :
  (tmpl_type (map_lhs map_port_eq_2) = TMPL_TYPE_ATTR \/
   tmpl_type (map_lhs map_port_eq_2) = TMPL_TYPE_LIST) /\
  (pass2_fixup (Sample.node_of (COND_TYPE_MAP map_port_eq_2) PASS2_FIXUP_NONE)
     <> PASS2_PAIRCOMPARE \/
   map_op map_port_eq_2 = T_OP_REG_EQ) /\
  cond_realize_tmpl Sample.E request_three_ports
    (map_rhs map_port_eq_2) (map_lhs map_port_eq_2)
  = (0, Some (Sample.box_string "2"), request_three_ports) /\
  0 <= 0 /\
  tmpl_cursor_init Sample.E request_three_ports (map_lhs map_port_eq_2)
  = (0, [port 1] ++ port 2 :: [port 3]) /\
  cond_lhs_passed_over Sample.E request_three_ports
    (Sample.node_of (COND_TYPE_MAP map_port_eq_2) PASS2_FIXUP_NONE)
    map_port_eq_2 [port 1]
  = Some request_three_ports /\
  cond_normalise_and_cmp Sample.E request_three_ports
    (Sample.node_of (COND_TYPE_MAP map_port_eq_2) PASS2_FIXUP_NONE)
    map_port_eq_2 (Some (vp_data (port 2)))
  = (1, request_three_ports) /\
  1 <> 0 /\
  cond_eval_map Sample.E request_three_ports
    (Sample.node_of (COND_TYPE_MAP map_port_eq_2) PASS2_FIXUP_NONE)
    map_port_eq_2
  = (1, request_three_ports).
Proof.
  split; [left; reflexivity|]. split; [left; exact port_eq_2_no_fixup|].
  split; [exact port_eq_2_rhs_realized|]. split; [reflexivity|].
  split; [exact port_eq_2_instances|].
  split; [exact port_eq_2_first_passed_over|].
  split; [exact port_eq_2_second_matches|]. split; [discriminate|].
  apply (proj1 (proj2 (lhs_instances_first_match Sample.E request_three_ports
                         (Sample.node_of (COND_TYPE_MAP map_port_eq_2)
                            PASS2_FIXUP_NONE)
                         map_port_eq_2 0 (Some (Sample.box_string "2"))
                         request_three_ports 0
                         ([port 1] ++ port 2 :: [port 3])
                         (or_introl eq_refl)
                         (or_introl port_eq_2_no_fixup)
                         port_eq_2_rhs_realized (Z.le_refl 0)
                         port_eq_2_instances))
           [port 1] (port 2) [port 3] request_three_ports 1
           request_three_ports eq_refl port_eq_2_first_passed_over
           port_eq_2_second_matches).
  discriminate.
Defined.

Lemma paircompare_map_casts_and_compares_witness :
  tmpl_type (map_lhs map_group_eq_staff) = TMPL_TYPE_ATTR /\
  tmpl_type (map_rhs map_group_eq_staff) = TMPL_TYPE_DATA /\
  pass2_fixup
    (Sample.node_of (COND_TYPE_MAP map_group_eq_staff) PASS2_PAIRCOMPARE)
  = PASS2_PAIRCOMPARE /\
  map_op map_group_eq_staff <> T_OP_REG_EQ /\
  (da_type (tmpl_da (map_lhs map_group_eq_staff)) = FR_TYPE_INVALID \/
   vb_type (tmpl_value (map_rhs map_group_eq_staff)) = FR_TYPE_INVALID \/
   da_type (tmpl_da (map_lhs map_group_eq_staff)) =
   vb_type (tmpl_value (map_rhs map_group_eq_staff))) /\
  fst (cond_eval_map Sample.E (Sample.request_of [])
         (Sample.node_of (COND_TYPE_MAP map_group_eq_staff) PASS2_PAIRCOMPARE)
         map_group_eq_staff)
  = 0 /\
  fr_value_box_cast Sample.E FR_TYPE_UINT32 None
    (tmpl_value (map_rhs map_port_eq_text)) = None /\
  fst (cond_eval_map Sample.E request_three_ports
         (Sample.node_of (COND_TYPE_MAP map_port_eq_text) PASS2_PAIRCOMPARE)
         map_port_eq_text)
  = -1.
Proof.
  split; [reflexivity|]. split; [reflexivity|]. split; [reflexivity|].
  split; [discriminate|]. split; [right; right; reflexivity|].
  split; [|split; [reflexivity|]].
  - apply (proj2 (paircompare_map_casts_and_compares Sample.E
                    (Sample.request_of [])
                    (Sample.node_of (COND_TYPE_MAP map_group_eq_staff)
                       PASS2_PAIRCOMPARE)
                    map_group_eq_staff eq_refl eq_refl eq_refl
                    ltac:(discriminate))).
    right; right; reflexivity.
  - apply (proj1 (paircompare_map_casts_and_compares Sample.E
                    request_three_ports
                    (Sample.node_of (COND_TYPE_MAP map_port_eq_text)
                       PASS2_PAIRCOMPARE)
                    map_port_eq_text eq_refl eq_refl eq_refl
                    ltac:(discriminate))); discriminate.
Defined.

Lemma regex_needs_string_and_pattern_witness :
  (@None fr_value_box_t = None \/
   exists l, @None fr_value_box_t = Some l /\ vb_type l <> FR_TYPE_STRING) /\
  cond_do_regex Sample.E request_with_captures map_name_matches_bob None None
  = (-1, request_with_captures).
Proof.
  split; [left; reflexivity|].
  exact (proj1 (regex_needs_string_and_pattern Sample.E request_with_captures
                  map_name_matches_bob None None)
           (or_introl eq_refl)).
Defined.

Lemma plain_nodes_never_fail_witness :
  (tmpl_type (map_lhs map_name_eq_bob) = TMPL_TYPE_ATTR \/
   tmpl_type (map_lhs map_name_eq_bob) = TMPL_TYPE_LIST) /\
  cond_eval_tree Sample.E (Sample.request_of []) RLM_MODULE_OK
    (tree_leaf (LEAF_TMPL (map_lhs map_name_eq_bob)) true PASS2_FIXUP_NONE
       tree_null)
  = Some (1, Sample.request_of []).
Proof.
  split; [left; reflexivity|].
  exact (proj1 (proj2 (proj2 (proj2
                  (plain_nodes_never_fail Sample.E RLM_MODULE_OK
                     (Sample.request_of []) true PASS2_FIXUP_NONE))))
           (map_lhs map_name_eq_bob) (or_introl eq_refl)).
Defined.

Lemma compiled_regex_runs_on_string_witness :
  map_op map_name_matches_bob = T_OP_REG_EQ /\
  tmpl_type (map_rhs map_name_matches_bob) = TMPL_TYPE_REGEX /\
  vb_type (Sample.box_string "bobby") = FR_TYPE_STRING /\
  cond_normalise_and_cmp Sample.E (Sample.request_of [])
    (Sample.node_of (COND_TYPE_MAP map_name_matches_bob) PASS2_FIXUP_NONE)
    map_name_matches_bob (Some (Sample.box_string "bobby"))
  = (1, regex_sub_to_request (Sample.request_of [])
          (Some (tmpl_regex (map_rhs map_name_matches_bob), ["bob"]))).
Proof.
  split; [reflexivity|]. split; [reflexivity|]. split; [reflexivity|].
  exact (proj1 (compiled_regex_runs_on_string Sample.E (Sample.request_of [])
                  (Sample.node_of (COND_TYPE_MAP map_name_matches_bob)
                     PASS2_FIXUP_NONE)
                  map_name_matches_bob (Sample.box_string "bobby")
                  eq_refl eq_refl)
           eq_refl).
Defined.

Lemma map_reads_paircompare_flag_only_witness :
  (bool_decide
     (pass2_fixup
        (Sample.node_of (COND_TYPE_MAP map_name_matches_bob) PASS2_FIXUP_NONE)
      = PASS2_PAIRCOMPARE) =
   bool_decide
     (pass2_fixup
        (Sample.node_of (COND_TYPE_MAP map_name_matches_bob)
           PASS2_PAIRCOMPARE)
      = PASS2_PAIRCOMPARE) \/
   map_op map_name_matches_bob = T_OP_REG_EQ) /\
  cond_eval_map Sample.E (Sample.request_of [])
    (Sample.node_of (COND_TYPE_MAP map_name_matches_bob) PASS2_FIXUP_NONE)
    map_name_matches_bob =
  cond_eval_map Sample.E (Sample.request_of [])
    (Sample.node_of (COND_TYPE_MAP map_name_matches_bob) PASS2_PAIRCOMPARE)
    map_name_matches_bob.
Proof.
  split; [right; reflexivity|].
  exact (map_reads_paircompare_flag_only Sample.E
           (Sample.node_of (COND_TYPE_MAP map_name_matches_bob)
              PASS2_FIXUP_NONE)
           (Sample.node_of (COND_TYPE_MAP map_name_matches_bob)
              PASS2_PAIRCOMPARE)
           map_name_matches_bob (or_intror eq_refl) (Sample.request_of [])).
Defined.

Lemma regex_pattern_needs_text_witness :
  tmpl_type (map_rhs map_fail_eq_count) <> TMPL_TYPE_REGEX /\
  vb_strvalue_set (fr_value_box_init FR_TYPE_STRING) = false /\
  cond_do_regex Sample.E request_with_captures map_fail_eq_count
    (Some (Sample.box_string "bob")) (Some (fr_value_box_init FR_TYPE_STRING))
  = (-1, request_with_captures).
Proof.
  split; [discriminate|]. split; [reflexivity|].
  apply (regex_pattern_needs_text Sample.E request_with_captures
           map_fail_eq_count (Some (Sample.box_string "bob"))
           (fr_value_box_init FR_TYPE_STRING));
    [discriminate | reflexivity].
Defined.
